(** * ury-listd: the connection-management core (listener.go)

    A model of [listener.go]: the per-connection read and write loops, the
    dispatcher ([handleChannels]) with its client table, and the accept loop.

    The file has three layers.
    - The loops as functions over scripts of what their blocking calls
      return ([Read], [Write], [runListener], [handleChannels]).
    - The goroutines together as a labelled transition system over
      unbuffered (rendezvous) channels ([step]).
    - The properties. *)

From stdpp Require Import gmap strings list fin_maps.
From Stdlib.Strings Require Import Byte.

Set Default Proof Using "Type".

(** ** Data model *)

(** [net.Conn] values and channels are compared by identity in Go; both are
    modelled by a handle. *)
Abbreviation Conn := positive (only parsing).
Abbreviation Chan := positive (only parsing).
Abbreviation Err := string (only parsing).
Abbreviation bytes := (list byte) (only parsing).

(** A tokenised line: baps3 hands lines around as [[]string]. *)
Abbreviation Frame := (list string) (only parsing).

(** Modelled from the spec: [baps3.Message] belongs to the external codec
    library (baps3-go), which is not part of this repository.  The spec's
    end-to-end scenario shows a message as a word followed by its arguments
    (["OHAI","listd","0.0"], ["FEATURES","lol"]); [NewMessage] makes a
    message with no argument and [AddArg] appends one. *)
Record Message := mkMessage { word : string; args : list string }.

#[global] Instance Message_eq_dec : EqDecision Message.
Proof. solve_decision. Defined.

Definition RsOhai : string := "OHAI".
Definition RsFeatures : string := "FEATURES".

Definition NewMessage (w : string) : Message := mkMessage w [].
Definition AddArg (a : string) (m : Message) : Message :=
  mkMessage (word m) (args m ++ [a]).

(** listener.go:90 *)
Definition makeWelcomeMsg : Message :=
  AddArg "0.0" (AddArg "listd" (NewMessage RsOhai)).

(** listener.go:94 *)
Definition makeFeaturesMsg : Message :=
  AddArg "lol" (NewMessage RsFeatures).

(** The [Client] struct as the dispatcher sees it.  The third field, [tok],
    is only ever touched by the client's read loop and lives in the reader's
    state below. *)
Record Client := mkClient { conn : Conn; resCh : Chan }.

#[global] Instance Client_eq_dec : EqDecision Client.
Proof. solve_decision. Defined.

(** One constructor per [log.Println] site. *)
Inductive LogEntry :=
| LogReadError (c : Conn) (e : Err)      (* line 46 *)
| LogErr (e : Err)                       (* lines 52, 58, 78 *)
| LogWriteError (c : Conn) (e : Err)     (* line 83 *)
| LogNewRequest (m : Message)            (* line 102 *)
| LogNewResponse (m : Message)           (* line 109 *)
| LogNewConnection (c : Conn)            (* line 134 *)
| LogClosedConnection (c : Conn)         (* line 138 *)
| LogListenError (e : Err)               (* line 148 *)
| LogAcceptError (e : Err).              (* line 162 *)

#[global] Instance LogEntry_eq_dec : EqDecision LogEntry.
Proof. solve_decision. Defined.

(** ** The dispatcher: [handleChannels] *)

(** What one [select] case receives. *)
Inductive Event :=
| EvRes (m : Message)      (* case msg := <-cResCh *)
| EvReq (m : Message)      (* case msg := <-reqCh *)
| EvAdd (c : Client)       (* case client := <-addCh *)
| EvRm (c : Client).       (* case client := <-rmCh *)

(** The statements a case body executes, in program order. *)
Inductive DOp :=
| DLog (e : LogEntry)
| DSend (ch : Chan) (m : Message)     (* ch <- m *)
| DForward (m : Message)              (* cReqCh <- m *)
| DInsert (k : Conn) (ch : Chan)      (* clients[k] = ch *)
| DClose (ch : Chan)                  (* close(ch) *)
| DDelete (k : Conn).                 (* delete(clients, k) *)

#[global] Instance DOp_eq_dec : EqDecision DOp.
Proof. solve_decision. Defined.

(** The dispatcher's table, and which channels have been closed.  Only the
    dispatcher closes channels, so the closed set travels with its state. *)
Record DState := mkDState {
  clients : gmap positive positive;
  closed : gset positive
}.

Definition initDState : DState := mkDState ∅ ∅.

(** listener.go:100 *)
Definition processRequest (req : Message) : list DOp :=
  [DLog (LogNewRequest req); DForward req].

(** listener.go:107.  [order] is the order in which [range] visits the
    table; Go leaves it unspecified. *)
Definition processResponse (order : list (positive * positive)) (res : Message)
  : list DOp :=
  DLog (LogNewResponse res) :: ((λ kv, DSend kv.2 res) <$> order).

(** The body of the case selected for [ev] (listener.go:126-138). *)
Definition case_body (order : list (positive * positive)) (ev : Event) : list DOp :=
  match ev with
  | EvRes msg => processResponse order msg
  | EvReq msg => processRequest msg
  | EvAdd client =>
      [DInsert (conn client) (resCh client);
       DSend (resCh client) makeWelcomeMsg;
       DSend (resCh client) makeFeaturesMsg;
       DLog (LogNewConnection (conn client))]
  | EvRm client =>
      [DClose (resCh client);
       DDelete (conn client);
       DLog (LogClosedConnection (conn client))]
  end.

(** One statement.  [None] is a run-time panic: a send on a closed channel
    or the close of a closed channel. *)
Definition exec_op (st : DState) (op : DOp) : option DState :=
  match op with
  | DLog _ => Some st
  | DSend ch _ => if decide (ch ∈ closed st) then None else Some st
  | DForward _ => Some st
  | DInsert k ch => Some (mkDState (<[k := ch]> (clients st)) (closed st))
  | DClose ch =>
      if decide (ch ∈ closed st) then None
      else Some (mkDState (clients st) ({[ch]} ∪ closed st))
  | DDelete k => Some (mkDState (delete k (clients st)) (closed st))
  end.

(** A case body run to its end, every send finding its receiver.  Returns
    the statements completed and the state, [None] after a panic. *)
Fixpoint run_ops (st : DState) (ops : list DOp) : list DOp * option DState :=
  match ops with
  | [] => ([], Some st)
  | op :: ops' =>
      match exec_op st op with
      | None => ([], None)
      | Some st' => let '(tr, fin) := run_ops st' ops' in (op :: tr, fin)
      end
  end.

(** The [for { select { ... } }] loop over the events it receives, with
    [range] visiting the table in [map_to_list] order. *)
Fixpoint handleChannels_from (st : DState) (evs : list Event)
  : list DOp * option DState :=
  match evs with
  | [] => ([], Some st)
  | ev :: evs' =>
      match run_ops st (case_body (map_to_list (clients st)) ev) with
      | (tr, None) => (tr, None)
      | (tr, Some st') =>
          let '(tr', fin) := handleChannels_from st' evs' in (tr ++ tr', fin)
      end
  end.

(** listener.go:120: the table starts empty. *)
Definition handleChannels (evs : list Event) : list DOp * option DState :=
  handleChannels_from initDState evs.

(** The sends of a trace, and the messages sent on one channel. *)
Definition sends (ops : list DOp) : list (positive * Message) :=
  omap (λ op, match op with DSend ch m => Some (ch, m) | _ => None end) ops.

Definition sends_on (ch : Chan) (ops : list DOp) : list Message :=
  omap (λ op, match op with
              | DSend ch' m => if decide (ch' = ch) then Some m else None
              | _ => None
              end) ops.

(** The table after registering [c]. *)
Definition register (m : gmap positive positive) (c : Client)
  : gmap positive positive :=
  <[conn c := resCh c]> m.

(** No event of [evs] is about channel [ch]: it is the channel of none of
    the clients added or removed.  This is what [make] gives a new client. *)
Definition chan_fresh (ch : Chan) (evs : list Event) : Prop :=
  Forall (λ ev, match ev with
                | EvAdd c | EvRm c => resCh c ≠ ch
                | _ => True
                end) evs.

(** A statement that does not touch channel [ch]. *)
Definition op_avoids (ch : Chan) (op : DOp) : Prop :=
  match op with
  | DSend ch' _ | DInsert _ ch' | DClose ch' => ch' ≠ ch
  | _ => True
  end.

(** The dispatcher does not know channel [ch]: it is not in the table and
    has not been closed. *)
Definition unknown (ch : Chan) (st : DState) : Prop :=
  (∀ k, clients st !! k ≠ Some ch) ∧ (ch ∉ closed st).

(** ** The codec *)

(** Modelled from the spec: the tokeniser and codec (baps3-go) are an
    external collaborator; the spec's interface is
    decode(bytes) -> (frames, error), parse(frame) -> (message, error) and
    message.encode() -> (bytes, error).  [Tokenise] is stateful (partial
    frames are buffered across reads), so the tokeniser state is threaded;
    the byte count it also returns is ignored by listener.go:50. *)
Class Codec := {
  TokState : Type;
  NewTokeniser : TokState;
  Tokenise : TokState → bytes → TokState * (list Frame * option Err);
  LineToMessage : Frame → Message + Err;
  Pack : Message → bytes + Err
}.

(** ** The read loop: [Client.Read] *)

(** What [reader.ReadBytes('\n')] returns. *)
Inductive ReadResult :=
| ReadLine (line : bytes)
| ReadFail (e : Err).

(** What the read loop does to the outside. *)
Inductive ROp :=
| RLog (e : LogEntry)
| RRequest (m : Message)       (* reqCh <- *msg *)
| RRemove.                     (* rmCh <- c; return *)

(** listener.go:55-62: the inner [for _, line := range lines]. *)
Fixpoint range_lines `{Codec} (lines : list Frame) : list ROp :=
  match lines with
  | [] => []
  | line :: lines' =>
      match LineToMessage line with
      | inr err => RLog (LogErr err) :: range_lines lines'
      | inl msg => RRequest msg :: range_lines lines'
      end
  end.

(** listener.go:44-62: one iteration of the outer loop, given what
    [ReadBytes] returned. *)
Definition Read_iter `{Codec} (c : Conn) (tok : TokState) (r : ReadResult)
  : TokState * list ROp :=
  match r with
  | ReadFail err => (tok, [RLog (LogReadError c err); RRemove])
  | ReadLine line =>
      match Tokenise tok line with
      | (tok', (_, Some err)) => (tok', [RLog (LogErr err)])
      | (tok', (lines, None)) => (tok', range_lines lines)
      end
  end.

Inductive LoopStatus :=
| Returned        (* the function has returned *)
| Waiting.        (* blocked in its next blocking call *)

(** [Client.Read] over the results of its successive [ReadBytes] calls,
    every send finding its receiver. *)
Fixpoint Read `{Codec} (c : Conn) (tok : TokState) (reads : list ReadResult)
  : list ROp * LoopStatus :=
  match reads with
  | [] => ([], Waiting)
  | r :: reads' =>
      let '(tok', ops) := Read_iter c tok r in
      match r with
      | ReadFail _ => (ops, Returned)
      | ReadLine _ =>
          let '(ops', st) := Read c tok' reads' in (ops ++ ops', st)
      end
  end.

(** The messages a trace of the read loop puts on [reqCh]. *)
Definition forwarded (ops : list ROp) : list Message :=
  omap (λ op, match op with RRequest m => Some m | _ => None end) ops.

(** The messages [LineToMessage] gives for [frames]. *)
Definition parsed `{Codec} (frames : list Frame) : list Message :=
  omap (λ f, match LineToMessage f with inl m => Some m | inr _ => None end) frames.

(** A decode-invalid unit: the tokeniser rejects [line], or every frame it
    yields (there is at least one) fails to parse. *)
Definition decode_invalid `{Codec} (tok : TokState) (line : bytes) (tok' : TokState)
  : Prop :=
  (∃ frames err, Tokenise tok line = (tok', (frames, Some err))) ∨
  (∃ frames, Tokenise tok line = (tok', (frames, None)) ∧ frames ≠ [] ∧
             parsed frames = []).

(** A valid complete message: [line] tokenises to one frame, which parses
    to [m]. *)
Definition decodes_to `{Codec} (tok : TokState) (line : bytes) (tok' : TokState)
    (m : Message) : Prop :=
  ∃ f, Tokenise tok line = (tok', ([f], None)) ∧ LineToMessage f = inl m.

(** ** The write loop: [Client.Write] *)

(** What [msg, more := <-resCh] returns. *)
Inductive RecvResult :=
| RecvMsg (m : Message)
| RecvClosed.

Inductive WOp :=
| WLog (e : LogEntry)
| WConnWrite (data : bytes)    (* c.conn.Write(data) *)
| WRemove.                     (* rmCh <- c; return *)

(** [Client.Write] over what it receives from [resCh] and the results of
    its successive [conn.Write] calls ([None] is success). *)
Fixpoint Write `{Codec} (c : Conn) (inbox : list RecvResult)
    (sock : list (option Err)) : list WOp * LoopStatus :=
  match inbox with
  | [] => ([], Waiting)
  | RecvClosed :: _ => ([], Returned)
  | RecvMsg msg :: inbox' =>
      match Pack msg with
      | inr err =>
          let '(ops, st) := Write c inbox' sock in (WLog (LogErr err) :: ops, st)
      | inl data =>
          match sock with
          | [] => ([WConnWrite data], Waiting)
          | None :: sock' =>
              let '(ops, st) := Write c inbox' sock' in (WConnWrite data :: ops, st)
          | Some err :: _ =>
              ([WConnWrite data; WLog (LogWriteError c err); WRemove], Returned)
          end
      end
  end.

(** ** The listener: [runListener] *)

(** What [netListener.Accept()] returns. *)
Inductive AcceptResult :=
| AcceptConn (c : Conn)
| AcceptFail (e : Err).

Inductive LOp :=
| LLog (e : LogEntry)
| LGoHandleChannels                      (* go handleChannels(...) *)
| LGoHandleNewConnection (c : Conn).     (* go handleNewConnection(conn, ...) *)

(** listener.go:159-167 *)
Definition accept_loop (accepts : list AcceptResult) : list LOp :=
  (λ r, match r with
        | AcceptFail err => LLog (LogAcceptError err)
        | AcceptConn c => LGoHandleNewConnection c
        end) <$> accepts.

(** [runListener] given what [net.Listen] returned ([None] is success) and
    what the successive [Accept] calls return.  The Go function has no
    result: all its caller gets is whether it has returned. *)
Definition runListener (listen : option Err) (accepts : list AcceptResult)
  : list LOp * LoopStatus :=
  match listen with
  | Some err => ([LLog (LogListenError err)], Returned)
  | None => (LGoHandleChannels :: accept_loop accepts, Waiting)
  end.

(** The connections [ops] starts a goroutine for. *)
Definition spawned (ops : list LOp) : list positive :=
  omap (λ op, match op with LGoHandleNewConnection c => Some c | _ => None end) ops.

(** ** The goroutines together

    Every channel of listener.go is made without a capacity, so a send and
    its receive happen together (rendezvous).  A goroutine is modelled by
    where it is blocked; a step is what one blocking call returning lets
    happen. *)

(** The goroutine running [handleNewConnection] and, inside it, [Write]. *)
Inductive WriterPc :=
| WRegister                    (* line 32: addCh <- client *)
| WSpawnRead                   (* line 34: go client.Read(reqCh, rmCh) *)
| WRecv                        (* line 71: msg, more := <-resCh *)
| WInConnWrite (data : bytes)  (* line 81: c.conn.Write(data) *)
| WSendRm                      (* line 84: rmCh <- c *)
| WDone.                       (* returned; the deferred conn.Close() has run *)

(** The goroutine running [Read]: not yet spawned, in its loop with the
    operations left in the current iteration ([RLoop []] is blocked in
    [ReadBytes]), or returned. *)
Inductive ReaderPc :=
| RNotStarted
| RLoop (ops : list ROp)
| RDone.

Record Session `{Codec} := mkSession {
  s_resCh : Chan;          (* client.resCh *)
  s_tok : TokState;        (* client.tok *)
  s_writer : WriterPc;
  s_reader : ReaderPc
}.
Arguments mkSession {_} _ _ _ _.

(** listener.go:23-32: the goroutine started for an accepted connection
    has made its client, with the channel [ch] that [make] returned and a
    new tokeniser, and is about to register it.  Its read loop is not
    running yet. *)
Definition handleNewConnection `{Codec} (ch : Chan) : Session :=
  mkSession ch NewTokeniser WRegister RNotStarted.

(** What the dispatcher has received, tagged with the session it came from
    (the tag is not in the Go value; it is kept to state properties). *)
Inductive Received :=
| RcvAdd (c : Conn)
| RcvReq (c : Conn) (m : Message)
| RcvRm (c : Conn)
| RcvRes (m : Message).

#[global] Instance Received_eq_dec : EqDecision Received.
Proof. solve_decision. Defined.

Record System `{Codec} := mkSystem {
  sessions : gmap positive Session;  (* the connections accepted so far *)
  next_chan : positive;              (* the next channel [make] returns *)
  dstate : DState;                   (* the dispatcher's table; closed channels *)
  pending : list DOp;                (* rest of the current case body; [] is at [select] *)
  crashed : bool;                    (* the process has panicked *)
  received : list Received;          (* history: events the dispatcher received *)
  delivered : list (positive * Message); (* history: messages write loops received *)
  downstream : list Message;         (* history: messages sent on cReqCh *)
  syslog : list LogEntry
}.
Arguments mkSystem {_} _ _ _ _ _ _ _ _ _.

(** The state once [runListener] has started the dispatcher. *)
Definition initSystem `{Codec} : System :=
  mkSystem ∅ 1%positive initDState [] false [] [] [] [].

Definition set_session `{Codec} (c : Conn) (sess : Session) (s : System) : System :=
  mkSystem (<[c := sess]> (sessions s)) (next_chan s) (dstate s) (pending s)
           (crashed s) (received s) (delivered s) (downstream s) (syslog s).

Definition add_log `{Codec} (es : list LogEntry) (s : System) : System :=
  mkSystem (sessions s) (next_chan s) (dstate s) (pending s)
           (crashed s) (received s) (delivered s) (downstream s) (syslog s ++ es).

(** The dispatcher receives in [select] and enters the case body. *)
Definition select_case `{Codec} (rcv : Received) (body : list DOp) (s : System)
  : System :=
  mkSystem (sessions s) (next_chan s) (dstate s) body
           (crashed s) (received s ++ [rcv]) (delivered s) (downstream s) (syslog s).

(** The dispatcher completes the statement at the head of [pending]. *)
Definition advance `{Codec} (st : DState) (rest : list DOp) (s : System) : System :=
  mkSystem (sessions s) (next_chan s) st rest
           (crashed s) (received s) (delivered s) (downstream s) (syslog s).

Definition panic `{Codec} (s : System) : System :=
  mkSystem (sessions s) (next_chan s) (dstate s) (pending s)
           true (received s) (delivered s) (downstream s) (syslog s).

Definition set_writer `{Codec} (pc : WriterPc) (sess : Session) : Session :=
  mkSession (s_resCh sess) (s_tok sess) pc (s_reader sess).

Definition set_reader `{Codec} (tok : TokState) (pc : ReaderPc) (sess : Session)
  : Session :=
  mkSession (s_resCh sess) tok (s_writer sess) pc.

(** listener.go:76-80: the write loop has received [msg]. *)
Definition writer_received `{Codec} (msg : Message) : WriterPc * list LogEntry :=
  match Pack msg with
  | inr err => (WRecv, [LogErr err])
  | inl data => (WInConnWrite data, [])
  end.

(** listener.go:82-86: [conn.Write] has returned. *)
Definition writer_wrote (c : Conn) (r : option Err) : WriterPc * list LogEntry :=
  match r with
  | None => (WRecv, [])
  | Some err => (WSendRm, [LogWriteError c err])
  end.

Inductive Label :=
| LAccept (c : Conn)             (* Accept returns c; go handleNewConnection *)
| LAcceptFail (e : Err)          (* Accept fails *)
| LAdd (c : Conn)                (* addCh: session c to the dispatcher *)
| LSpawnRead (c : Conn)          (* go client.Read *)
| LRes (m : Message) (order : list (positive * positive))
                                 (* cResCh: connector to the dispatcher *)
| LReq (c : Conn)                (* reqCh: c's read loop to the dispatcher *)
| LRmReader (c : Conn)           (* rmCh: c's read loop to the dispatcher *)
| LRmWriter (c : Conn)           (* rmCh: c's write loop to the dispatcher *)
| LDisp                          (* the dispatcher's next statement, not a client send *)
| LDeliver (c : Conn)            (* resCh: the dispatcher to c's write loop *)
| LRecvClosed (c : Conn)         (* c's write loop sees resCh closed *)
| LConnWrite (c : Conn) (r : option Err)   (* c's conn.Write returns *)
| LReadBytes (c : Conn) (r : ReadResult)   (* c's ReadBytes returns *)
| LReadLog (c : Conn).           (* c's read loop logs *)

(** One step of the system.  [None]: the step is not enabled.

    The dispatcher receives ([LAdd], [LRes], [LReq], [LRmReader],
    [LRmWriter]) only at [select], that is with no statement pending, and
    whichever sender is ready may be the one it receives from.  A send to a
    client ([LDeliver]) needs that client's write loop at its receive.
    What the outside does is left open: the connector may offer any
    response and takes every request; a socket read may return any line or
    fail at any time (a connection closed on this side makes [ReadBytes]
    fail, but lines [bufio] already holds are still returned); a socket
    write may succeed, fail, or not return, which is the [LConnWrite] step
    never being taken.  After a panic nothing steps. *)
Definition step `{Codec} (l : Label) (s : System) : option System :=
  if crashed s then None else
  match l with
  | LAccept c =>
      match sessions s !! c with
      | Some _ => None
      | None =>
          Some (mkSystem
                  (<[c := handleNewConnection (next_chan s)]> (sessions s))
                  (Pos.succ (next_chan s)) (dstate s) (pending s) (crashed s)
                  (received s) (delivered s) (downstream s) (syslog s))
      end
  | LAcceptFail err => Some (add_log [LogAcceptError err] s)
  | LAdd c =>
      match sessions s !! c, pending s with
      | Some sess, [] =>
          match s_writer sess with
          | WRegister =>
              Some (select_case (RcvAdd c)
                      (case_body [] (EvAdd (mkClient c (s_resCh sess))))
                      (set_session c (set_writer WSpawnRead sess) s))
          | _ => None
          end
      | _, _ => None
      end
  | LSpawnRead c =>
      match sessions s !! c with
      | Some sess =>
          match s_writer sess with
          | WSpawnRead =>
              Some (set_session c
                      (set_writer WRecv (set_reader (s_tok sess) (RLoop []) sess)) s)
          | _ => None
          end
      | None => None
      end
  | LRes msg order =>
      match pending s with
      | [] =>
          if decide (order ≡ₚ map_to_list (clients (dstate s)))
          then Some (select_case (RcvRes msg) (case_body order (EvRes msg)) s)
          else None
      | _ => None
      end
  | LReq c =>
      match sessions s !! c, pending s with
      | Some sess, [] =>
          match s_reader sess with
          | RLoop (RRequest msg :: ops) =>
              Some (select_case (RcvReq c msg) (case_body [] (EvReq msg))
                      (set_session c (set_reader (s_tok sess) (RLoop ops) sess) s))
          | _ => None
          end
      | _, _ => None
      end
  | LRmReader c =>
      match sessions s !! c, pending s with
      | Some sess, [] =>
          match s_reader sess with
          | RLoop (RRemove :: _) =>
              Some (select_case (RcvRm c)
                      (case_body [] (EvRm (mkClient c (s_resCh sess))))
                      (set_session c (set_reader (s_tok sess) RDone sess) s))
          | _ => None
          end
      | _, _ => None
      end
  | LRmWriter c =>
      match sessions s !! c, pending s with
      | Some sess, [] =>
          match s_writer sess with
          | WSendRm =>
              Some (select_case (RcvRm c)
                      (case_body [] (EvRm (mkClient c (s_resCh sess))))
                      (set_session c (set_writer WDone sess) s))
          | _ => None
          end
      | _, _ => None
      end
  | LDisp =>
      match pending s with
      | [] => None
      | op :: rest =>
          match exec_op (dstate s) op with
          | None => Some (panic s)
          | Some st' =>
              match op with
              | DSend _ _ => None
              | DForward msg =>
                  Some (mkSystem (sessions s) (next_chan s) st' rest (crashed s)
                          (received s) (delivered s) (downstream s ++ [msg]) (syslog s))
              | DLog e => Some (add_log [e] (advance st' rest s))
              | _ => Some (advance st' rest s)
              end
          end
      end
  | LDeliver c =>
      match pending s, sessions s !! c with
      | DSend ch msg :: rest, Some sess =>
          if decide (s_resCh sess = ch ∧ ch ∉ closed (dstate s)) then
            match s_writer sess with
            | WRecv =>
                let '(pc, es) := writer_received msg in
                Some (add_log es
                        (mkSystem (<[c := set_writer pc sess]> (sessions s))
                           (next_chan s) (dstate s) rest (crashed s) (received s)
                           (delivered s ++ [(ch, msg)]) (downstream s) (syslog s)))
            | _ => None
            end
          else None
      | _, _ => None
      end
  | LRecvClosed c =>
      match sessions s !! c with
      | Some sess =>
          match s_writer sess with
          | WRecv =>
              if decide (s_resCh sess ∈ closed (dstate s))
              then Some (set_session c (set_writer WDone sess) s)
              else None
          | _ => None
          end
      | None => None
      end
  | LConnWrite c r =>
      match sessions s !! c with
      | Some sess =>
          match s_writer sess with
          | WInConnWrite _ =>
              let '(pc, es) := writer_wrote c r in
              Some (add_log es (set_session c (set_writer pc sess) s))
          | _ => None
          end
      | None => None
      end
  | LReadBytes c r =>
      match sessions s !! c with
      | Some sess =>
          match s_reader sess with
          | RLoop [] =>
              let '(tok', ops) := Read_iter c (s_tok sess) r in
              Some (set_session c (set_reader tok' (RLoop ops) sess) s)
          | _ => None
          end
      | None => None
      end
  | LReadLog c =>
      match sessions s !! c with
      | Some sess =>
          match s_reader sess with
          | RLoop (RLog e :: ops) =>
              Some (add_log [e]
                      (set_session c (set_reader (s_tok sess) (RLoop ops) sess) s))
          | _ => None
          end
      | None => None
      end
  end.

(** A schedule run from [s]. *)
Fixpoint run `{Codec} (ls : list Label) (s : System) : option System :=
  match ls with
  | [] => Some s
  | l :: ls' =>
      match step l s with
      | Some s' => run ls' s'
      | None => None
      end
  end.

Definition reachable `{Codec} (s : System) : Prop :=
  ∃ ls, run ls initSystem = Some s.

(** [l] is session [a]'s [conn.Write] returning. *)
Definition is_conn_write (a : Conn) (l : Label) : bool :=
  match l with
  | LConnWrite c _ => bool_decide (c = a)
  | _ => false
  end.

(** A schedule in which [a]'s socket write never returns. *)
Definition stalls (a : Conn) (ls : list Label) : Prop :=
  Forall (λ l, is_conn_write a l = false) ls.

(** The messages the write loop of channel [ch] has received. *)
Definition received_on (ch : Chan) (d : list (positive * Message)) : list Message :=
  omap (λ p : positive * Message, if decide (p.1 = ch) then Some p.2 else None) d.

Definition greeted (l : list Message) : Prop :=
  ∃ rest, l = makeWelcomeMsg :: makeFeaturesMsg :: rest.

(** With [d] delivered, [p] the rest of the dispatcher's current case body
    and [tab] its table: what each channel has carried, followed by what is
    about to be sent on it, starts with the greeting and the capabilities
    message, unless the channel has carried nothing and is not, and is not
    about to be, in the table. *)
Definition chan_inv_of (d : list (positive * Message)) (p : list DOp)
    (tab : gmap positive positive) : Prop :=
  ∀ ch,
    greeted (received_on ch d ++ sends_on ch p) ∨
    (received_on ch d ++ sends_on ch p = [] ∧
     (∀ k, tab !! k ≠ Some ch) ∧
     (∀ k, DInsert k ch ∉ p)).

Definition chan_inv `{Codec} (s : System) : Prop :=
  chan_inv_of (delivered s) (pending s) (clients (dstate s)).

(** A session that has started (it is past [addCh <- client], or its read
    loop runs) has had its add event received, and every request the
    dispatcher received comes after the add event of its session. *)
Definition registered_inv `{Codec} (s : System) : Prop :=
  (∀ c sess, sessions s !! c = Some sess →
     s_writer sess ≠ WRegister ∨ s_reader sess ≠ RNotStarted →
     RcvAdd c ∈ received s) ∧
  (∀ pre c m post, received s = pre ++ RcvReq c m :: post → RcvAdd c ∈ pre).

(** Channels and sessions: every session's channel was made before
    [next_chan]; a session that has not registered has no read loop; no
    two sessions share a channel. *)
Definition owner_inv `{Codec} (s : System) : Prop :=
  (∀ c sess, sessions s !! c = Some sess →
     Pos.lt (s_resCh sess) (next_chan s) ∧
     (s_writer sess = WRegister → s_reader sess = RNotStarted)) ∧
  (∀ c1 c2 sess1 sess2,
     sessions s !! c1 = Some sess1 → sessions s !! c2 = Some sess2 →
     s_resCh sess1 = s_resCh sess2 → c1 = c2).

(** [c] is a session with channel [ch]. *)
Definition has_chan `{Codec} (S : gmap positive Session) (c : Conn) (ch : Chan)
  : Prop :=
  ∃ sess, S !! c = Some sess ∧ s_resCh sess = ch.

(** [c] is a session with channel [ch] that is past [addCh <- client]. *)
Definition registered `{Codec} (S : gmap positive Session) (c : Conn) (ch : Chan)
  : Prop :=
  ∃ sess, S !! c = Some sess ∧ s_resCh sess = ch ∧ s_writer sess ≠ WRegister.

(** Sessions stay, keep their channel, and do not go back to registering. *)
Definition sessions_ext `{Codec} (S S' : gmap positive Session) : Prop :=
  ∀ c sess, S !! c = Some sess →
    ∃ sess', S' !! c = Some sess' ∧ s_resCh sess' = s_resCh sess ∧
             (s_writer sess ≠ WRegister → s_writer sess' ≠ WRegister).

(** What a step does to the dispatcher: nothing; it receives at [select]
    and enters the case body (one constructor per case); it completes a
    statement of its own; a write loop takes the message it is sending; or
    it panics. *)
Inductive effect `{Codec} (s s' : System) : Prop :=
| eff_none :
    dstate s' = dstate s → pending s' = pending s → crashed s' = false →
    effect s s'
| eff_add c sess :
    sessions s !! c = Some sess → s_writer sess = WRegister →
    pending s = [] →
    pending s' = case_body [] (EvAdd (mkClient c (s_resCh sess))) →
    dstate s' = dstate s → crashed s' = false →
    effect s s'
| eff_res m order :
    pending s = [] → order ≡ₚ map_to_list (clients (dstate s)) →
    pending s' = processResponse order m →
    dstate s' = dstate s → crashed s' = false →
    effect s s'
| eff_req m :
    pending s = [] → pending s' = processRequest m →
    dstate s' = dstate s → crashed s' = false →
    effect s s'
| eff_rm c sess :
    sessions s !! c = Some sess → s_writer sess ≠ WRegister →
    pending s = [] →
    pending s' = case_body [] (EvRm (mkClient c (s_resCh sess))) →
    dstate s' = dstate s → crashed s' = false →
    effect s s'
| eff_local op rest :
    pending s = op :: rest → (∀ ch m, op ≠ DSend ch m) →
    exec_op (dstate s) op = Some (dstate s') →
    pending s' = rest → crashed s' = false →
    effect s s'
| eff_deliver ch m rest :
    pending s = DSend ch m :: rest →
    pending s' = rest → dstate s' = dstate s → crashed s' = false →
    effect s s'
| eff_panic op rest :
    pending s = op :: rest → exec_op (dstate s) op = None →
    pending s' = pending s → dstate s' = dstate s → crashed s' = true →
    effect s s'.

(** The dispatcher and the channels: pending sends go to open channels; a
    pending [close] is the first statement of a remove case body, for a
    registered session; a pending table insert is for a session's own open
    channel; the table holds sessions with their channels; a closed channel
    still in the table is about to be deleted; closed channels belong to
    registered sessions; and after a panic the statement that panicked is
    still the first one pending. *)
Definition disp_inv `{Codec} (s : System) : Prop :=
  (∀ ch m, DSend ch m ∈ pending s → ch ∉ closed (dstate s)) ∧
  (∀ ch, DClose ch ∈ pending s →
     ∃ c, pending s = [DClose ch; DDelete c; DLog (LogClosedConnection c)] ∧
          registered (sessions s) c ch) ∧
  (∀ k ch, DInsert k ch ∈ pending s →
     has_chan (sessions s) k ch ∧ ch ∉ closed (dstate s)) ∧
  (∀ k ch, clients (dstate s) !! k = Some ch → has_chan (sessions s) k ch) ∧
  (∀ k ch, clients (dstate s) !! k = Some ch → ch ∈ closed (dstate s) →
     DDelete k ∈ pending s) ∧
  (∀ ch, ch ∈ closed (dstate s) → ∃ c, registered (sessions s) c ch) ∧
  (crashed s = true →
     ∃ op rest, pending s = op :: rest ∧ exec_op (dstate s) op = None).

Definition safe_inv `{Codec} (s : System) : Prop := owner_inv s ∧ disp_inv s.

(** The dispatcher is sending [m] to session [a]'s channel [ch], and [a]'s
    write loop is inside [conn.Write]. *)
Definition blocked_on `{Codec} (a : Conn) (ch : Chan) (m : Message)
    (rest : list DOp) (s : System) : Prop :=
  crashed s = false ∧
  pending s = DSend ch m :: rest ∧
  (ch ∉ closed (dstate s)) ∧
  (∃ sess data, sessions s !! a = Some sess ∧ s_resCh sess = ch ∧
                s_writer sess = WInConnWrite data) ∧
  (∀ c sess, sessions s !! c = Some sess →
             Pos.lt (s_resCh sess) (next_chan s) ∧ (s_resCh sess = ch → c = a)).

(** The dispatcher is sending [m] to session [a]'s channel [ch], and [a]'s
    write loop is itself waiting for the dispatcher, at [rmCh <- c]. *)
Definition deadlocked_on `{Codec} (a : Conn) (ch : Chan) (m : Message)
    (rest : list DOp) (s : System) : Prop :=
  crashed s = false ∧
  pending s = DSend ch m :: rest ∧
  (ch ∉ closed (dstate s)) ∧
  (∃ sess, sessions s !! a = Some sess ∧ s_resCh sess = ch ∧
           s_writer sess = WSendRm) ∧
  (∀ c sess, sessions s !! c = Some sess →
             Pos.lt (s_resCh sess) (next_chan s) ∧ (s_resCh sess = ch → c = a)).

(** Isolation of sessions from one another, as a property of the system:
    whenever a message is on its way to a session [b] whose write loop is
    receiving, it can reach [b] without the socket write of any other
    session [a] returning. *)
Definition broadcast_isolated `{Codec} : Prop :=
  ∀ s a b sess_b m,
    reachable s → a ≠ b →
    sessions s !! b = Some sess_b → s_writer sess_b = WRecv →
    DSend (s_resCh sess_b) m ∈ pending s →
    ∃ ls s' pre,
      stalls a ls ∧ run ls s = Some s' ∧
      delivered s' = delivered s ++ pre ++ [(s_resCh sess_b, m)].

(** ** More vocabulary for the loops *)

(** The messages a trace of the dispatcher puts on [cReqCh]. *)
Definition forwards (ops : list DOp) : list Message :=
  omap (λ op, match op with DForward m => Some m | _ => None end) ops.

(** The requests among the events the dispatcher receives. *)
Definition requests (evs : list Event) : list Message :=
  omap (λ ev, match ev with EvReq m => Some m | _ => None end) evs.

(** What the events leave in the table under connection [k], starting from
    [b]: the channel of the last client added under [k], unless a client
    with that connection has been removed since. *)
Definition binding_from (b : option positive) (k : Conn) (evs : list Event)
  : option positive :=
  foldl (λ b ev, match ev with
                 | EvAdd c => if decide (conn c = k) then Some (resCh c) else b
                 | EvRm c => if decide (conn c = k) then None else b
                 | _ => b
                 end) b evs.

Definition binding (k : Conn) (evs : list Event) : option positive :=
  binding_from None k evs.

(** The clients that the events name. *)
Definition clients_of (evs : list Event) : list Client :=
  omap (λ ev, match ev with EvAdd c | EvRm c => Some c | _ => None end) evs.

(** The events tell clients apart by connection as they do by channel, as
    when every connection has one client, with the channel made for it. *)
Definition consistent (evs : list Event) : Prop :=
  ∀ c c', c ∈ clients_of evs → c' ∈ clients_of evs →
          (conn c = conn c' ↔ resCh c = resCh c').

(** With the channels [cl] closed already, some event uses a closed
    channel: it adds or removes a client whose channel is in [cl] or was
    closed by an earlier removal. *)
Fixpoint uses_closed (cl : gset positive) (evs : list Event) : Prop :=
  match evs with
  | [] => False
  | EvAdd c :: evs' => resCh c ∈ cl ∨ uses_closed cl evs'
  | EvRm c :: evs' => resCh c ∈ cl ∨ uses_closed ({[resCh c]} ∪ cl) evs'
  | _ :: evs' => uses_closed cl evs'
  end.

(** The tokeniser after it has been given [lines], one after the other. *)
Definition tok_after `{Codec} (tok : TokState) (lines : list bytes) : TokState :=
  foldl (λ t line, (Tokenise t line).1) tok lines.

(** The messages that [lines] carry: for each line that the tokeniser
    takes without error, the frames that parse, in order. *)
Fixpoint accepted `{Codec} (tok : TokState) (lines : list bytes) : list Message :=
  match lines with
  | [] => []
  | line :: lines' =>
      match Tokenise tok line with
      | (tok', (frames, None)) => parsed frames ++ accepted tok' lines'
      | (tok', (_, Some _)) => accepted tok' lines'
      end
  end.

(** The payloads a trace of the write loop hands to [conn.Write]. *)
Definition writes (ops : list WOp) : list bytes :=
  omap (λ op, match op with WConnWrite data => Some data | _ => None end) ops.

(** The payloads of the messages that pack. *)
Definition packed `{Codec} (msgs : list Message) : list bytes :=
  omap (λ m, match Pack m with inl data => Some data | inr _ => None end) msgs.

(** The messages received before the channel is seen closed. *)
Fixpoint before_close (inbox : list RecvResult) : list Message :=
  match inbox with
  | RecvMsg m :: inbox' => m :: before_close inbox'
  | _ => []
  end.

(** The connections that the accepts give. *)
Definition accepted_conns (accepts : list AcceptResult) : list positive :=
  omap (λ r, match r with AcceptConn c => Some c | AcceptFail _ => None end) accepts.

(** The errors of the accepts that fail. *)
Definition accept_errors (accepts : list AcceptResult) : list Err :=
  omap (λ r, match r with AcceptFail e => Some e | AcceptConn _ => None end) accepts.

(** The entries a trace of the listener logs. *)
Definition listener_log (ops : list LOp) : list LogEntry :=
  omap (λ op, match op with LLog e => Some e | _ => None end) ops.

(** ** More vocabulary for the system *)

(** The requests, and the responses, among what the dispatcher received. *)
Definition requests_received (r : list Received) : list Message :=
  omap (λ x, match x with RcvReq _ m => Some m | _ => None end) r.

Definition responses_received (r : list Received) : list Message :=
  omap (λ x, match x with RcvRes m => Some m | _ => None end) r.

(** How often the dispatcher has received [x]. *)
Definition times_received (x : Received) (r : list Received) : nat :=
  length (filter (λ y, y = x) r).

(** What the dispatcher sent or is sending on [ch]: what the write loop of
    [ch] has received, then the sends on [ch] left in the current case
    body. *)
Definition carried `{Codec} (ch : Chan) (s : System) : list Message :=
  received_on ch (delivered s) ++ sends_on ch (pending s).

(** What a step does as seen from the dispatcher, with the histories: it
    does not involve the dispatcher; the dispatcher receives [rcv] at
    [select] and enters the case body; it completes a statement of its
    own; a write loop takes the message it is sending; or it panics. *)
Inductive dispatch `{Codec} (s s' : System) : Prop :=
| dsp_none :
    dstate s' = dstate s → pending s' = pending s →
    received s' = received s → delivered s' = delivered s →
    downstream s' = downstream s → crashed s' = false →
    dispatch s s'
| dsp_select rcv :
    pending s = [] →
    match rcv with
    | RcvAdd c =>
        ∃ sess, sessions s !! c = Some sess ∧ s_writer sess = WRegister ∧
                sessions s' !! c = Some (set_writer WSpawnRead sess) ∧
                pending s' = case_body [] (EvAdd (mkClient c (s_resCh sess)))
    | RcvReq c m =>
        pending s' = processRequest m
    | RcvRm c =>
        ∃ sess, sessions s !! c = Some sess ∧
                pending s' = case_body [] (EvRm (mkClient c (s_resCh sess)))
    | RcvRes m =>
        ∃ order, order ≡ₚ map_to_list (clients (dstate s)) ∧
                 pending s' = processResponse order m
    end →
    dstate s' = dstate s →
    received s' = received s ++ [rcv] → delivered s' = delivered s →
    downstream s' = downstream s → crashed s' = false →
    dispatch s s'
| dsp_local op rest :
    pending s = op :: rest → (∀ ch m, op ≠ DSend ch m) →
    exec_op (dstate s) op = Some (dstate s') → pending s' = rest →
    received s' = received s → delivered s' = delivered s →
    downstream s' = downstream s ++ forwards [op] → crashed s' = false →
    dispatch s s'
| dsp_deliver c sess ch m rest :
    pending s = DSend ch m :: rest →
    sessions s !! c = Some sess → s_resCh sess = ch → s_writer sess = WRecv →
    pending s' = rest → dstate s' = dstate s →
    received s' = received s → delivered s' = delivered s ++ [(ch, m)] →
    downstream s' = downstream s → crashed s' = false →
    dispatch s s'
| dsp_panic op rest :
    pending s = op :: rest → exec_op (dstate s) op = None →
    pending s' = pending s → dstate s' = dstate s →
    received s' = received s → delivered s' = delivered s →
    downstream s' = downstream s → crashed s' = true →
    dispatch s s'.

(** Connection [c] with channel [ch] is in the dispatcher's table, or about
    to be put there by the current case body. *)
Definition live `{Codec} (c : Conn) (ch : Chan) (s : System) : Prop :=
  clients (dstate s) !! c = Some ch ∨ DInsert c ch ∈ pending s.

(** Deliveries: a channel that has carried or is about to carry a message
    is the channel of a session past [addCh <- client]; and a live session
    has been sent, or is about to be sent, the greeting, the capabilities
    message and then the responses received since its add event. *)
Definition delivery_inv `{Codec} (s : System) : Prop :=
  (∀ ch, carried ch s ≠ [] → ∃ c, registered (sessions s) c ch) ∧
  (∀ c ch, live c ch s →
     ∃ pre post,
       received s = pre ++ RcvAdd c :: post ∧ (RcvAdd c ∉ post) ∧
       carried ch s
       = makeWelcomeMsg :: makeFeaturesMsg :: responses_received post).

(** A write loop past [addCh <- client] counts for one. *)
Definition writer_registered (pc : WriterPc) : nat :=
  match pc with WRegister => 0 | _ => 1 end.

(** A read loop that has returned counts for one. *)
Definition reader_done (pc : ReaderPc) : nat :=
  match pc with RDone => 1 | _ => 0 end.

(** How often channel [ch] has been, or is about to be, closed. *)
Definition closes `{Codec} (ch : Chan) (s : System) : nat :=
  (if decide (ch ∈ closed (dstate s)) then 1 else 0)
  + (if decide (DClose ch ∈ pending s) then 1 else 0).

(** Counting what the dispatcher received: a connection's add event was
    received once if its goroutine is past [addCh <- client] and never
    otherwise, and its remove event as often as its channel has been, or is
    about to be, closed. *)
Definition count_inv `{Codec} (s : System) : Prop :=
  ∀ c,
    match sessions s !! c with
    | None =>
        times_received (RcvAdd c) (received s) = 0 ∧
        times_received (RcvRm c) (received s) = 0
    | Some sess =>
        times_received (RcvAdd c) (received s)
        = writer_registered (s_writer sess) ∧
        times_received (RcvRm c) (received s) = closes (s_resCh sess) s
    end.

(** What the histories say about the loops of connection [c], in session
    state [sess], with [r] received by the dispatcher and [lg] logged.  A
    read loop that is about to send on [rmCh], or has returned, has had a
    read error, which is logged or is the next thing it logs; a write loop
    at [rmCh <- c] has logged a write error; a write loop at
    [go client.Read] has not started the read loop yet; and the
    dispatcher has received the removal of [c] at most once more than its
    read loop has sent it, namely from a write loop that has returned
    after a logged write error. *)
Definition fail_at `{Codec} (c : Conn) (sess : Session) (r : list Received)
    (lg : list LogEntry) : Prop :=
  match s_reader sess with
  | RNotStarted => True
  | RLoop ops =>
      RRemove ∈ ops →
      (∃ e, ops = [RLog (LogReadError c e); RRemove]) ∨
      (ops = [RRemove] ∧ ∃ e, LogReadError c e ∈ lg)
  | RDone => ∃ e, LogReadError c e ∈ lg
  end ∧
  (s_writer sess = WSendRm → ∃ e, LogWriteError c e ∈ lg) ∧
  (s_writer sess = WSpawnRead → s_reader sess = RNotStarted) ∧
  times_received (RcvRm c) r ≤ reader_done (s_reader sess) + 1 ∧
  (times_received (RcvRm c) r = reader_done (s_reader sess) + 1 →
   s_writer sess = WDone ∧ ∃ e, LogWriteError c e ∈ lg).

Definition fail_inv `{Codec} (s : System) : Prop :=
  ∀ c sess, sessions s !! c = Some sess →
            fail_at c sess (received s) (syslog s).

(** [l] is a [conn.Write] that returns an error. *)
Definition write_fails (l : Label) : bool :=
  match l with
  | LConnWrite _ (Some _) => true
  | _ => false
  end.

(** No write loop is about to send on [rmCh], and the dispatcher has
    received the removal of a connection only from its read loop. *)
Definition reader_removals `{Codec} (s : System) : Prop :=
  ∀ c sess, sessions s !! c = Some sess →
    s_writer sess ≠ WSendRm ∧
    times_received (RcvRm c) (received s) ≤ reader_done (s_reader sess).

(** The channel of the session of connection [c]. *)
Definition chan_of `{Codec} (S : gmap positive Session) (c : Conn) : positive :=
  default 1%positive (s_resCh <$> S !! c).

(** What the dispatcher received, as the value its [select] case gets: an
    add or a remove event carries the client, that is the connection and
    its channel. *)
Definition event_of `{Codec} (S : gmap positive Session) (x : Received) : Event :=
  match x with
  | RcvAdd c => EvAdd (mkClient c (chan_of S c))
  | RcvReq _ m => EvReq m
  | RcvRm c => EvRm (mkClient c (chan_of S c))
  | RcvRes m => EvRes m
  end.

Definition events_received `{Codec} (s : System) : list Event :=
  event_of (sessions s) <$> received s.

(** The dispatcher of the system against [handleChannels]: with the events
    [evs] received, [p] left of the current case body and state [st].  At
    [select], [st] is what [handleChannels] ends in on [evs]; inside a case
    body, [handleChannels] on the events before the last one ends in some
    state from which the statements of the body already completed lead to
    [st]. *)
Definition link_at (evs : list Event) (p : list DOp) (st : DState) : Prop :=
  match p with
  | [] => snd (handleChannels evs) = Some st
  | _ :: _ =>
      ∃ pre ev st0 order done,
        evs = pre ++ [ev] ∧
        snd (handleChannels pre) = Some st0 ∧
        order ≡ₚ map_to_list (clients st0) ∧
        case_body order ev = done ++ p ∧
        run_ops st0 done = (done, Some st)
  end.

Definition link_inv `{Codec} (s : System) : Prop :=
  (∀ c, RcvAdd c ∈ received s ∨ RcvRm c ∈ received s →
        is_Some (sessions s !! c)) ∧
  link_at (events_received s) (pending s) (dstate s).





(** [l] is a [conn.Write] of connection [c] that returns an error. *)
Definition write_fails_on (c : Conn) (l : Label) : bool :=
  match l with
  | LConnWrite c' (Some _) => bool_decide (c' = c)
  | _ => false
  end.

(** The write loop of connection [c] is not about to send on [rmCh], and
    the dispatcher has received the removal of [c] only from its read
    loop. *)
Definition reader_removals_of `{Codec} (c : Conn) (s : System) : Prop :=
  ∀ sess, sessions s !! c = Some sess →
    s_writer sess ≠ WSendRm ∧
    times_received (RcvRm c) (received s) ≤ reader_done (s_reader sess).



(** A small concrete codec to run the model on.  The tokeniser keeps no
    state and looks only at the length of what it is given: nothing gives no
    frame; one byte gives a frame together with an error; two bytes give a
    frame that does not parse (the empty one); three bytes give one frame;
    more give three frames, the second of which does not parse.  The message
    [BAD] does not pack. *)
Definition toy_codec : Codec := {|
  TokState := unit;
  NewTokeniser := tt;
  Tokenise := λ _ line,
    match line with
    | [] => (tt, ([], None))
    | [_] => (tt, ([["STRAY"]], Some "tokeniser error"))
    | [_; _] => (tt, ([[]], None))
    | [_; _; _] => (tt, ([["REQ"; "X"]], None))
    | _ => (tt, ([["REQ"; "X"]; []; ["REQ"; "Y"]], None))
    end;
  LineToMessage := λ f,
    match f with
    | [] => inr "empty line"
    | w :: a => inl (mkMessage w a)
    end;
  Pack := λ m,
    if decide (word m = "BAD") then inr "cannot pack"
    else inl []
|}.

(** *** Schedules

    Concrete runs of the system, over [toy_codec]. *)

(** Session 7 connects and is greeted, but the write of the capabilities
    message to its socket fails: [Write] sends 7 on [rmCh] and returns,
    which closes the connection; [Read]'s [ReadBytes] then fails and [Read]
    sends 7 on [rmCh] as well. *)
Definition double_remove_schedule : list Label :=
  [LAccept 7; LAdd 7; LSpawnRead 7; LDisp;
   LDeliver 7; LConnWrite 7 None; LDeliver 7; LDisp;
   LConnWrite 7 (Some "broken pipe"); LRmWriter 7; LDisp; LDisp; LDisp;
   LReadBytes 7 (ReadFail "use of closed network connection"); LReadLog 7;
   LRmReader 7; LDisp].

(** The state that [double_remove_schedule] ends in. *)
Definition double_remove_state : System (H := toy_codec) :=
  default initSystem (run double_remove_schedule initSystem).





(** Session 11 connects; its socket takes the greeting but the write of the
    capabilities message does not return.  Session 12 connects and is
    served.  The connector broadcasts RES and [range] visits session 11
    first. *)
Definition stall_schedule : list Label :=
  [LAccept 11; LAdd 11; LSpawnRead 11; LDisp;
   LDeliver 11; LConnWrite 11 None; LDeliver 11; LDisp;
   LAccept 12; LAdd 12; LSpawnRead 12; LDisp;
   LDeliver 12; LConnWrite 12 None; LDeliver 12; LConnWrite 12 None; LDisp;
   LRes (NewMessage "RES") [(11, 1); (12, 2)]%positive; LDisp].

Definition stall_state : System (H := toy_codec) :=
  default initSystem (run stall_schedule initSystem).

(** Session 3 connects, is greeted, and sends one line, which the
    dispatcher forwards. *)
Definition request_schedule : list Label :=
  [LAccept 3; LAdd 3; LSpawnRead 3; LDisp;
   LDeliver 3; LConnWrite 3 None; LDeliver 3; LConnWrite 3 None; LDisp;
   LReadBytes 3 (ReadLine [x52; x45; x0a]%byte); LReq 3; LDisp; LDisp].

Definition request_state : System (H := toy_codec) :=
  default initSystem (run request_schedule initSystem).

(** Session 3 connects and is greeted; a broadcast's socket write fails and
    the write loop has the session removed; the read loop then still gets a
    line out of its buffer and sends the request. *)
Definition late_request_schedule : list Label :=
  [LAccept 3; LAdd 3; LSpawnRead 3; LDisp;
   LDeliver 3; LConnWrite 3 None; LDeliver 3; LConnWrite 3 None; LDisp;
   LRes (NewMessage "RES") [(3, 1)]%positive; LDisp; LDeliver 3;
   LConnWrite 3 (Some "broken pipe"); LRmWriter 3; LDisp; LDisp; LDisp;
   LReadBytes 3 (ReadLine [x52; x45; x0a]%byte); LReq 3].

(** Session 11 connects; the write of the greeting to its socket fails
    while the dispatcher is about to send the capabilities message. *)
Definition deadlock_schedule : list Label :=
  [LAccept 11; LAdd 11; LSpawnRead 11; LDisp;
   LDeliver 11; LConnWrite 11 (Some "connection reset by peer")].

Definition deadlock_state : System (H := toy_codec) :=
  default initSystem (run deadlock_schedule initSystem).

(** * Properties *)

(** ** The dispatcher *)

Example handleChannels_two_clients :
  fst (handleChannels [EvAdd (mkClient 5 1); EvAdd (mkClient 6 2);
                       EvReq (NewMessage "REQ"); EvRm (mkClient 5 1);
                       EvRes (NewMessage "RES")])
  = [DInsert 5 1; DSend 1 makeWelcomeMsg; DSend 1 makeFeaturesMsg;
     DLog (LogNewConnection 5);
     DInsert 6 2; DSend 2 makeWelcomeMsg; DSend 2 makeFeaturesMsg;
     DLog (LogNewConnection 6);
     DLog (LogNewRequest (NewMessage "REQ")); DForward (NewMessage "REQ");
     DClose 1; DDelete 5; DLog (LogClosedConnection 5);
     DLog (LogNewResponse (NewMessage "RES")); DSend 2 (NewMessage "RES")].
Proof. by vm_compute. Qed.

Example makeWelcomeMsg_value : makeWelcomeMsg = mkMessage "OHAI" ["listd"; "0.0"].
Proof. reflexivity. Qed.

Example makeFeaturesMsg_value : makeFeaturesMsg = mkMessage "FEATURES" ["lol"].
Proof. reflexivity. Qed.

Lemma handleChannels_from_app st evs1 evs2 :
  handleChannels_from st (evs1 ++ evs2) =
  match handleChannels_from st evs1 with
  | (tr, None) => (tr, None)
  | (tr, Some st') =>
      let '(tr', fin) := handleChannels_from st' evs2 in (tr ++ tr', fin)
  end.
Proof.
  revert st. induction evs1 as [|ev evs1 IH]; intros st; simpl.
  - by destruct (handleChannels_from st evs2).
  - destruct (run_ops st _) as [tr [st'|]]; [|done].
    rewrite IH. destruct (handleChannels_from st' evs1) as [tr1 [st1|]]; [|done].
    destruct (handleChannels_from st1 evs2). by rewrite app_assoc.
Qed.

Lemma sends_on_app ch ops1 ops2 :
  sends_on ch (ops1 ++ ops2) = sends_on ch ops1 ++ sends_on ch ops2.
Proof. apply omap_app. Qed.

(** Registering a client whose channel is open. *)
Lemma run_add st c :
  resCh c ∉ closed st →
  run_ops st (case_body (map_to_list (clients st)) (EvAdd c)) =
  (case_body [] (EvAdd c), Some (mkDState (register (clients st) c) (closed st))).
Proof. intros Hc. simpl. by rewrite !decide_False. Qed.

Lemma run_adds cs : ∀ st,
  closed st = ∅ →
  ∃ tr, handleChannels_from st (EvAdd <$> cs) =
        (tr, Some (mkDState (foldl register (clients st) cs) ∅)).
Proof.
  induction cs as [|c cs IH]; intros st Hcl.
  - exists []. simpl. destruct st; simpl in *; by subst.
  - rewrite fmap_cons. cbn [handleChannels_from].
    rewrite run_add by (rewrite Hcl; apply not_elem_of_empty).
    destruct (IH (mkDState (register (clients st) c) (closed st)) Hcl) as [tr Htr].
    rewrite Htr. by eexists.
Qed.

Lemma table_after_adds cs : ∀ m : gmap positive positive,
  NoDup (conn <$> cs) →
  (∀ c, c ∈ cs → m !! conn c = None) →
  map_to_list (foldl register m cs) ≡ₚ
    ((λ c, (conn c, resCh c)) <$> cs) ++ map_to_list m.
Proof.
  induction cs as [|c cs IH]; intros m Hnd Hfresh; [done|].
  rewrite fmap_cons in Hnd. apply NoDup_cons in Hnd as [Hc Hnd].
  simpl. rewrite IH; [|done|].
  - unfold register. rewrite map_to_list_insert by (apply Hfresh; left).
    by rewrite <-Permutation_middle.
  - intros c' Hc'. unfold register. rewrite lookup_insert_ne.
    + apply Hfresh. by right.
    + intros Heq. apply Hc. rewrite Heq. by apply list_elem_of_fmap_2.
Qed.

Lemma sends_processResponse order M :
  sends (processResponse order M) = (λ kv : positive * positive, (kv.2, M)) <$> order.
Proof.
  unfold processResponse.
  change (sends ((λ kv : positive * positive, DSend kv.2 M) <$> order)
          = (λ kv : positive * positive, (kv.2, M)) <$> order).
  induction order as [|kv order IH]; [done|].
  simpl. f_equal. apply IH.
Qed.

Lemma sends_on_processResponse ch order M :
  sends_on ch (processResponse order M) =
  replicate (length (filter (λ kv : positive * positive, kv.2 = ch) order)) M.
Proof.
  unfold processResponse.
  change (sends_on ch ((λ kv : positive * positive, DSend kv.2 M) <$> order)
          = replicate (length (filter (λ kv : positive * positive, kv.2 = ch) order)) M).
  induction order as [|kv order IH]; [done|].
  rewrite filter_cons. simpl.
  destruct (decide (kv.2 = ch)); simpl; [f_equal|]; apply IH.
Qed.

(** A broadcast to open channels completes and leaves the state alone. *)
Lemma run_broadcast st order M :
  (∀ kv, kv ∈ order → kv.2 ∉ closed st) →
  run_ops st (processResponse order M) = (processResponse order M, Some st).
Proof.
  intros Hopen. unfold processResponse. cbn [run_ops exec_op].
  assert (run_ops st ((λ kv : positive * positive, DSend kv.2 M) <$> order)
          = ((λ kv : positive * positive, DSend kv.2 M) <$> order, Some st)) as ->;
    [|done].
  induction order as [|kv order IH]; [done|].
  rewrite fmap_cons. cbn [run_ops exec_op].
  rewrite decide_False by (apply Hopen; left).
  rewrite IH; [done|]. intros kv' ?. apply Hopen. by right.
Qed.

Lemma filter_eq_absent (l : list positive) ch :
  ch ∉ l → filter (λ x, x = ch) l = [].
Proof.
  induction l as [|x l IH]; [done|]. intros [Hne Hnin]%not_elem_of_cons.
  rewrite filter_cons, decide_False by done. auto.
Qed.

Lemma count_one_of_NoDup (l : list positive) ch :
  NoDup l → ch ∈ l → length (filter (λ x, x = ch) l) = 1.
Proof.
  induction 1 as [|x l Hx Hnd IH]; intros Hin; [by apply elem_of_nil in Hin|].
  rewrite filter_cons. destruct (decide (x = ch)) as [->|Hne].
  - simpl. by rewrite filter_eq_absent.
  - apply IH. apply elem_of_cons in Hin as [->|]; done.
Qed.

(** The dispatcher on its own, every send finding its receiver.  N sessions
    register (distinct connections, each with the channel [make] gave it)
    and none is removed; the connector then sends M.  Whatever order [range]
    visits the table in, the sends of the broadcast are exactly one send of
    M per registered session, none of them on a closed channel.  Whether a
    send is taken is for the write loop on the other side, which is not
    part of this statement: the system below has it. *)
Theorem broadcast_reaches_each_session_once (cs : list Client) (M : Message) :
  NoDup (conn <$> cs) →
  NoDup (resCh <$> cs) →
  ∃ tr st,
    handleChannels (EvAdd <$> cs) = (tr, Some st) ∧
    handleChannels ((EvAdd <$> cs) ++ [EvRes M]) =
      (tr ++ processResponse (map_to_list (clients st)) M, Some st) ∧
    ∀ order, order ≡ₚ map_to_list (clients st) →
      run_ops st (processResponse order M) = (processResponse order M, Some st) ∧
      sends (processResponse order M) ≡ₚ (λ c, (resCh c, M)) <$> cs ∧
      ∀ c, c ∈ cs → sends_on (resCh c) (processResponse order M) = [M].
Proof.
  intros Hconn Hchan.
  destruct (run_adds cs initDState eq_refl) as [tr Htr].
  set (st := mkDState (foldl register (clients initDState) cs) ∅) in *.
  assert (Hopen : ∀ (order : list (positive * positive)) kv,
             kv ∈ order → kv.2 ∉ closed st)
    by (intros; apply not_elem_of_empty).
  assert (Htab : map_to_list (clients st) ≡ₚ (λ c, (conn c, resCh c)) <$> cs).
  { simpl. rewrite table_after_adds; [|done|done].
    by rewrite map_to_list_empty, app_nil_r. }
  exists tr, st. split; [done|]. split.
  - unfold handleChannels in *. rewrite handleChannels_from_app, Htr.
    cbn [handleChannels_from case_body].
    rewrite run_broadcast by eauto. by rewrite app_nil_r.
  - intros order Hord. split; [by eapply run_broadcast, Hopen|]. split.
    + rewrite sends_processResponse, Hord, Htab, <-list_fmap_compose. done.
    + intros c Hc. rewrite sends_on_processResponse.
      assert (length (filter (λ kv : positive * positive, kv.2 = resCh c) order) = 1)
        as ->; [|done].
      rewrite <-(count_one_of_NoDup (resCh <$> cs) (resCh c) Hchan)
        by (by apply list_elem_of_fmap_2).
      assert (Hsnd : order.*2 ≡ₚ resCh <$> cs).
      { rewrite Hord, Htab, <-list_fmap_compose. done. }
      rewrite <-Hsnd. clear. induction order as [|kv order IH]; [done|].
      rewrite fmap_cons, !filter_cons. simpl.
      destruct (decide (kv.2 = resCh c)); simpl; by rewrite IH.
Qed.

Lemma broadcast_reaches_each_session_once_witness :
  let cs := [mkClient 5 1; mkClient 6 2; mkClient 9 3] in
  NoDup (conn <$> cs) ∧ NoDup (resCh <$> cs) ∧
  ∃ tr st,
    handleChannels (EvAdd <$> cs) = (tr, Some st) ∧
    handleChannels ((EvAdd <$> cs) ++ [EvRes (NewMessage "RES")]) =
      (tr ++ processResponse (map_to_list (clients st)) (NewMessage "RES"), Some st) ∧
    ∀ order, order ≡ₚ map_to_list (clients st) →
      run_ops st (processResponse order (NewMessage "RES"))
        = (processResponse order (NewMessage "RES"), Some st) ∧
      sends (processResponse order (NewMessage "RES"))
        ≡ₚ (λ c, (resCh c, NewMessage "RES")) <$> cs ∧
      ∀ c, c ∈ cs →
        sends_on (resCh c) (processResponse order (NewMessage "RES"))
          = [NewMessage "RES"].
Proof.
  intros cs.
  assert (H1 : NoDup (conn <$> cs))
    by (apply (bool_decide_unpack _); vm_compute; exact I).
  assert (H2 : NoDup (resCh <$> cs))
    by (apply (bool_decide_unpack _); vm_compute; exact I).
  exact (conj H1 (conj H2
           (broadcast_reaches_each_session_once cs (NewMessage "RES") H1 H2))).
Defined.

(** *** A channel the dispatcher has not been told about *)

Lemma exec_op_avoids ch st op st' :
  op_avoids ch op → unknown ch st → exec_op st op = Some st' → unknown ch st'.
Proof.
  intros Hop [Htab Hcl] Hex.
  destruct op as [e|ch' m|m|k ch'|ch'|k]; simpl in *.
  - by simplify_eq.
  - destruct (decide (ch' ∈ closed st)); by simplify_eq.
  - by simplify_eq.
  - simplify_eq. split; [|done]. intros k'. simpl.
    destruct (decide (k = k')) as [->|Hk].
    + rewrite lookup_insert_eq. congruence.
    + rewrite lookup_insert_ne by done. apply Htab.
  - destruct (decide (ch' ∈ closed st)); simplify_eq.
    split; [done|]. simpl.
    rewrite elem_of_union, elem_of_singleton. by intros [?|?].
  - simplify_eq. split; [|done]. intros k'. simpl.
    destruct (decide (k = k')) as [->|Hk].
    + by rewrite lookup_delete_eq.
    + rewrite lookup_delete_ne by done. apply Htab.
Qed.

Lemma run_ops_avoids ch ops : ∀ st tr fin,
  Forall (op_avoids ch) ops → unknown ch st →
  run_ops st ops = (tr, fin) →
  sends_on ch tr = [] ∧ ∀ st', fin = Some st' → unknown ch st'.
Proof.
  induction ops as [|op ops IH]; intros st tr fin Hav Hun Hrun; simpl in Hrun.
  - simplify_eq. split; [done|]. by intros ? [= <-].
  - apply Forall_cons in Hav as [Hop Hav].
    destruct (exec_op st op) as [st1|] eqn:Hex; [|by simplify_eq].
    destruct (run_ops st1 ops) as [tr1 fin1] eqn:Hrun1. simplify_eq.
    destruct (IH _ _ _ Hav (exec_op_avoids _ _ _ _ Hop Hun Hex) Hrun1) as [Hs Hfin].
    split; [|done].
    destruct op; simpl in *; try done. by rewrite decide_False.
Qed.

Lemma case_body_avoids ch st ev :
  unknown ch st → chan_fresh ch [ev] →
  Forall (op_avoids ch) (case_body (map_to_list (clients st)) ev).
Proof.
  intros [Htab _] [Hev _]%Forall_cons. destruct ev as [m|m|c|c]; simpl.
  - constructor; [done|]. apply Forall_fmap, Forall_forall.
    intros [k ch'] Hin%elem_of_map_to_list. simpl. intros ->. by eapply Htab.
  - repeat constructor.
  - repeat constructor; done.
  - repeat constructor; done.
Qed.

Lemma handleChannels_from_fresh ch evs : ∀ st tr fin,
  chan_fresh ch evs → unknown ch st →
  handleChannels_from st evs = (tr, fin) →
  sends_on ch tr = [] ∧ ∀ st', fin = Some st' → unknown ch st'.
Proof.
  induction evs as [|ev evs IH]; intros st tr fin Hfr Hun Hrun; simpl in Hrun.
  - simplify_eq. split; [done|]. by intros ? [= <-].
  - apply Forall_cons in Hfr as [Hev Hfr].
    destruct (run_ops st _) as [tr1 fin1] eqn:Hrun1.
    eapply run_ops_avoids in Hrun1 as [Hs1 Hfin1];
      [|apply case_body_avoids; [done|by constructor]|done].
    destruct fin1 as [st1|]; [|by simplify_eq].
    destruct (handleChannels_from st1 evs) as [tr2 fin2] eqn:Hrun2. simplify_eq.
    destruct (IH _ _ _ Hfr (Hfin1 _ eq_refl) Hrun2) as [Hs2 Hfin2].
    split; [|done]. by rewrite sends_on_app, Hs1, Hs2.
Qed.

Lemma unknown_init ch : unknown ch initDState.
Proof.
  split; simpl; [intros k; by rewrite lookup_empty|apply not_elem_of_empty].
Qed.

(** The dispatcher alone: when the add event of a client with a new channel
    arrives, nothing has been sent on that channel; the trace continues with
    the add case body (insert, greeting, capabilities, log) before any
    statement of a later event, so the channel's messages start with the
    greeting and the capabilities message. *)
Lemma handleChannels_greets_first (pre post : list Event) (c : Client) tr0 st :
  chan_fresh (resCh c) pre →
  handleChannels pre = (tr0, Some st) →
  ∃ rest fin,
    handleChannels (pre ++ EvAdd c :: post)
      = (tr0 ++ case_body [] (EvAdd c) ++ rest, fin) ∧
    sends_on (resCh c) tr0 = [] ∧
    sends_on (resCh c) (tr0 ++ case_body [] (EvAdd c) ++ rest)
      = makeWelcomeMsg :: makeFeaturesMsg :: sends_on (resCh c) rest.
Proof.
  intros Hfr Hpre. unfold handleChannels in *.
  destruct (handleChannels_from_fresh _ _ _ _ _ Hfr (unknown_init _) Hpre)
    as [Hs0 Hun].
  destruct (Hun _ eq_refl) as [_ Hopen].
  destruct (handleChannels_from (mkDState (register (clients st) c) (closed st)) post)
    as [rest fin] eqn:Hpost.
  exists rest, fin. split; [|split; [done|]].
  - rewrite handleChannels_from_app, Hpre. cbn [handleChannels_from].
    rewrite run_add by done. by rewrite Hpost.
  - rewrite !sends_on_app, Hs0. simpl.
    by destruct (decide (resCh c = resCh c)).
Qed.

(** C5.  The dispatcher does have a terminal state.  A client that is
    added and then removed twice makes the second [close(client.resCh)]
    close a closed channel: the dispatcher panics ([None]) after the
    statements of the add and of the first remove. *)
Theorem double_remove_crashes_dispatcher (c : Client) :
  handleChannels [EvAdd c; EvRm c; EvRm c]
  = (case_body [] (EvAdd c) ++ case_body [] (EvRm c), None).
Proof.
  unfold handleChannels. cbn [handleChannels_from].
  rewrite run_add by apply not_elem_of_empty. simpl.
  rewrite decide_False by apply not_elem_of_empty. simpl.
  rewrite decide_True; [done|].
  apply elem_of_union. left. by apply elem_of_singleton.
Qed.
(** ** More on the dispatcher alone *)

Lemma forwards_app ops1 ops2 :
  forwards (ops1 ++ ops2) = forwards ops1 ++ forwards ops2.
Proof. apply omap_app. Qed.

Lemma forwards_processResponse order m : forwards (processResponse order m) = [].
Proof.
  unfold processResponse.
  change (forwards ((λ kv : positive * positive, DSend kv.2 m) <$> order) = []).
  induction order as [|kv order IH]; [done|]. apply IH.
Qed.

(** What [run_ops] completes is the start of what it was given, and all of
    it unless a statement panicked. *)
Lemma run_ops_trace ops : ∀ st tr fin,
  run_ops st ops = (tr, fin) →
  ∃ rest, ops = tr ++ rest ∧ (is_Some fin → rest = []).
Proof.
  induction ops as [|op ops IH]; intros st tr fin Hrun; simpl in Hrun.
  - simplify_eq. by exists [].
  - destruct (exec_op st op) as [st1|]; [|simplify_eq].
    + destruct (run_ops st1 ops) as [tr1 fin1] eqn:Hrun1. simplify_eq.
      destruct (IH _ _ _ Hrun1) as (rest & -> & Hrest). by exists rest.
    + exists (op :: ops). split; [done|]. by intros [? ?].
Qed.

Lemma forwards_prefix_nil tr rest :
  forwards (tr ++ rest) = [] → forwards tr = [].
Proof. rewrite forwards_app. by intros [? _]%app_eq_nil. Qed.

(** X1.  Whatever events the dispatcher receives, what it puts on
    [cReqCh] is, in order, the requests among them: all of them when it has
    processed every event, and those it got to when a case body panicked.
    Nothing else is ever forwarded, and no request is forwarded twice. *)
Theorem requests_forwarded_in_order (evs : list Event) :
  forwards (fst (handleChannels evs)) `prefix_of` requests evs ∧
  (is_Some (snd (handleChannels evs)) →
   forwards (fst (handleChannels evs)) = requests evs).
Proof.
  unfold handleChannels. generalize initDState.
  induction evs as [|ev evs IH]; intros st; simpl.
  - split; [done|done].
  - destruct (run_ops st _) as [tr fin] eqn:Hrun.
    destruct (run_ops_trace _ _ _ _ Hrun) as (rest & Hbody & Hrest).
    assert (Hfw : forwards tr ++ forwards rest
                  = match ev with EvReq m => [m] | _ => [] end).
    { rewrite <-forwards_app, <-Hbody. destruct ev; simpl; try done.
      apply forwards_processResponse. }
    destruct fin as [st1|].
    + rewrite (Hrest (mk_is_Some _ _ eq_refl)), app_nil_r in Hfw.
      destruct (IH st1) as [Hpre Heq].
      destruct (handleChannels_from st1 evs) as [tr1 fin1]. simpl in *.
      rewrite forwards_app, Hfw.
      destruct ev; simpl; try done.
      split; [by apply prefix_cons|]. intros Hs. by rewrite Heq.
    + simpl. split; [|by intros [? ?]].
      destruct ev as [m|m|c|c]; simpl in *.
      * apply app_eq_nil in Hfw as [-> _]. apply prefix_nil.
      * simplify_eq.
      * apply app_eq_nil in Hfw as [-> _]. apply prefix_nil.
      * apply app_eq_nil in Hfw as [-> _]. apply prefix_nil.
Qed.

(** *** The table *)

Lemma exec_op_state st op st' :
  exec_op st op = Some st' →
  clients st' = match op with
                | DInsert k ch => <[k := ch]> (clients st)
                | DDelete k => delete k (clients st)
                | _ => clients st
                end ∧
  closed st' = match op with
               | DClose ch => {[ch]} ∪ closed st
               | _ => closed st
               end.
Proof.
  destruct op; simpl; intros Hex; try case_decide; by simplify_eq.
Qed.

Lemma run_ops_sends_state order m : ∀ st tr st',
  run_ops st ((λ kv : positive * positive, DSend kv.2 m) <$> order) = (tr, Some st') →
  st' = st.
Proof.
  induction order as [|kv order IH]; intros st tr st' Hrun; simpl in Hrun.
  - by simplify_eq.
  - destruct (decide (kv.2 ∈ closed st)); [done|].
    destruct (run_ops st _) as [tr1 fin1] eqn:Hrun1. simplify_eq. eauto.
Qed.

(** What a case body that completes does to the dispatcher's state. *)
Lemma case_body_state st order ev tr st' :
  run_ops st (case_body order ev) = (tr, Some st') →
  st' = match ev with
        | EvAdd c => mkDState (<[conn c := resCh c]> (clients st)) (closed st)
        | EvRm c => mkDState (delete (conn c) (clients st)) ({[resCh c]} ∪ closed st)
        | _ => st
        end.
Proof.
  destruct ev as [m|m|c|c]; simpl.
  - destruct (run_ops st _) as [tr1 fin1] eqn:Hrun1. intros ?; simplify_eq.
    eauto using run_ops_sends_state.
  - intros ?; by simplify_eq.
  - repeat case_decide; intros ?; by simplify_eq.
  - repeat case_decide; intros ?; by simplify_eq.
Qed.

Lemma binding_from_table evs : ∀ st tr st' k,
  handleChannels_from st evs = (tr, Some st') →
  clients st' !! k = binding_from (clients st !! k) k evs.
Proof.
  induction evs as [|ev evs IH]; intros st tr st' k Hrun; simpl in Hrun.
  - by simplify_eq.
  - destruct (run_ops st _) as [tr1 [st1|]] eqn:Hrun1; [|done].
    destruct (handleChannels_from st1 evs) as [tr2 fin2] eqn:Hrun2. simplify_eq.
    rewrite (IH _ _ _ k Hrun2). unfold binding_from. simpl. f_equal.
    rewrite (case_body_state _ _ _ _ _ Hrun1).
    destruct ev as [m|m|c|c]; simpl; try done.
    + destruct (decide (conn c = k)) as [->|Hne].
      * by rewrite lookup_insert_eq.
      * by rewrite lookup_insert_ne.
    + destruct (decide (conn c = k)) as [->|Hne].
      * by rewrite lookup_delete_eq.
      * by rewrite lookup_delete_ne.
Qed.

(** X2.  The table is keyed by connection.  When the dispatcher has
    processed a sequence of events, what its table holds under a
    connection is the channel of the last client added under it, and
    nothing if a client with that connection has been removed since or
    none was ever added: an add replaces the entry of its connection, and
    a remove deletes the entry of its connection, whatever channel the
    removed client carries. *)
Theorem table_holds_last_registration (evs : list Event) tr st (k : Conn) :
  handleChannels evs = (tr, Some st) →
  clients st !! k = binding k evs.
Proof.
  intros Hrun. unfold binding.
  by rewrite (binding_from_table _ _ _ _ k Hrun).
Qed.

Lemma table_holds_last_registration_witness :
  let evs := [EvAdd (mkClient 5 1); EvAdd (mkClient 6 2); EvRm (mkClient 5 1);
              EvRes (NewMessage "RES"); EvAdd (mkClient 6 3)] in
  ∃ tr st, handleChannels evs = (tr, Some st) ∧
           clients st !! 5%positive = None ∧
           clients st !! 6%positive = Some 3%positive ∧
           clients st !! 9%positive = None.
Proof.
  intros evs.
  destruct (handleChannels evs) as [tr [st|]] eqn:Hrun; [|by vm_compute in Hrun].
  exists tr, st. split; [done|].
  pose proof (table_holds_last_registration evs tr st 5%positive Hrun) as H5.
  pose proof (table_holds_last_registration evs tr st 6%positive Hrun) as H6.
  pose proof (table_holds_last_registration evs tr st 9%positive Hrun) as H9.
  exact (conj H5 (conj H6 H9)).
Defined.

(** *** When the dispatcher panics *)

Lemma clients_of_cons_client c evs ev :
  (ev = EvAdd c ∨ ev = EvRm c) → clients_of (ev :: evs) = c :: clients_of evs.
Proof. by intros [->| ->]. Qed.

Lemma consistent_tail ev evs : consistent (ev :: evs) → consistent evs.
Proof.
  intros Hc c c' Hin Hin'. apply Hc.
  - destruct ev; simpl; try done; by right.
  - destruct ev; simpl; try done; by right.
Qed.

Lemma uses_closed_from evs : ∀ st,
  (∀ k ch, clients st !! k = Some ch → ch ∉ closed st) →
  (∀ k ch c, clients st !! k = Some ch → c ∈ clients_of evs →
             (conn c = k ↔ resCh c = ch)) →
  consistent evs →
  snd (handleChannels_from st evs) = None ↔ uses_closed (closed st) evs.
Proof.
  induction evs as [|ev evs IH]; intros st Hopen Htab Hcons; [done|].
  pose proof (consistent_tail _ _ Hcons) as Hcons'.
  destruct ev as [m|m|c|c]; cbn [handleChannels_from uses_closed].
  - cbn [case_body]. rewrite run_broadcast.
    + rewrite <-(IH st Hopen Htab Hcons').
      by destruct (handleChannels_from st evs).
    + intros [k ch] Hin%elem_of_map_to_list. by eapply Hopen.
  - cbn [case_body processRequest run_ops exec_op].
    rewrite <-(IH st Hopen Htab Hcons').
    by destruct (handleChannels_from st evs).
  - destruct (decide (resCh c ∈ closed st)) as [Hcl|Hcl].
    + simpl. rewrite decide_True by done. simpl. by split; [left|].
    + rewrite run_add by done.
      set (st1 := mkDState (register (clients st) c) (closed st)).
      assert (snd (handleChannels_from st1 evs) = None
              ↔ uses_closed (closed st1) evs) as Hst1.
      { apply IH; [| |done].
        - intros k ch. unfold st1, register. simpl.
          intros [[<- <-]|[_ Hk]]%lookup_insert_Some; [done|by eapply Hopen].
        - intros k ch c'. unfold st1, register. simpl.
          intros [[<- <-]|[Hne Hk]]%lookup_insert_Some Hin.
          + rewrite (Hcons c' c); [done|by right|by left].
          + apply Htab; [done|by right]. }
      destruct (handleChannels_from st1 evs) as [tr1 fin1]. simpl in *.
      rewrite Hst1. split; [by right|]. by intros [?|?].
  - destruct (decide (resCh c ∈ closed st)) as [Hcl|Hcl].
    + simpl. rewrite decide_True by done. simpl. by split; [left|].
    + simpl. rewrite decide_False by done. simpl.
      set (st1 := mkDState (delete (conn c) (clients st)) ({[resCh c]} ∪ closed st)).
      assert (snd (handleChannels_from st1 evs) = None
              ↔ uses_closed (closed st1) evs) as Hst1.
      { apply IH; [| |done].
        - intros k ch. unfold st1. simpl.
          intros [Hne Hk]%lookup_delete_Some.
          rewrite elem_of_union, elem_of_singleton. intros [->|Hin].
          + apply Hne. apply (Htab k (resCh c) c); [done|by left|done].
          + by eapply Hopen.
        - intros k ch c'. unfold st1. simpl.
          intros [Hne Hk]%lookup_delete_Some Hin.
          apply Htab; [done|by right]. }
      destruct (handleChannels_from st1 evs) as [tr1 fin1]. simpl in *.
      rewrite Hst1. split; [by right|]. by intros [?|?].
Qed.

(** X3.  When the events tell clients apart by connection as by channel,
    the dispatcher panics exactly when a client's channel is used after
    that client's removal: the client is removed a second time, or it is
    added again (the greeting is then sent on the closed channel).  No
    other sequence of events stops it; in particular a broadcast never
    meets a closed channel. *)
Theorem dispatcher_panics_iff_closed_channel_reused (evs : list Event) :
  consistent evs →
  snd (handleChannels evs) = None ↔ uses_closed ∅ evs.
Proof.
  intros Hcons. apply (uses_closed_from evs initDState); [| |done].
  - intros k ch. simpl. by rewrite lookup_empty.
  - intros k ch c. simpl. by rewrite lookup_empty.
Qed.

Lemma dispatcher_panics_iff_closed_channel_reused_witness :
  let ok := [EvAdd (mkClient 5 1); EvAdd (mkClient 6 2); EvRm (mkClient 5 1);
             EvRes (NewMessage "RES"); EvRm (mkClient 6 2)] in
  let bad := [EvAdd (mkClient 5 1); EvRm (mkClient 5 1); EvAdd (mkClient 5 1)] in
  consistent ok ∧ consistent bad ∧
  (¬ uses_closed ∅ ok) ∧ is_Some (snd (handleChannels ok)) ∧
  snd (handleChannels bad) = None.
Proof.
  intros ok bad.
  assert (Hok : consistent ok).
  { intros c c' Hc Hc'. vm_compute in Hc, Hc'.
    set_unfold in Hc. set_unfold in Hc'.
    destruct_or!; simplify_eq; done. }
  assert (Hbad : consistent bad).
  { intros c c' Hc Hc'. vm_compute in Hc, Hc'.
    set_unfold in Hc. set_unfold in Hc'.
    destruct_or!; simplify_eq; done. }
  pose proof (dispatcher_panics_iff_closed_channel_reused ok Hok) as Hiff_ok.
  pose proof (dispatcher_panics_iff_closed_channel_reused bad Hbad) as Hiff_bad.
  split; [exact Hok|]. split; [exact Hbad|].
  assert (Hrun : is_Some (snd (handleChannels ok)))
    by (eexists; vm_compute; reflexivity).
  split; [|split; [exact Hrun|]].
  - intros Huse. apply Hiff_ok in Huse. rewrite Huse in Hrun. by destruct Hrun.
  - apply Hiff_bad. unfold bad. cbn [uses_closed resCh]. right. right. left.
    apply elem_of_union. left. by apply elem_of_singleton.
Defined.

(** *** A broadcast after a removal *)

Lemma foldl_register_lookup cs : ∀ (m : gmap positive positive) c,
  NoDup (conn <$> cs) → c ∈ cs →
  foldl register m cs !! conn c = Some (resCh c).
Proof.
  induction cs as [|c0 cs IH]; intros m c Hnd Hin; [by apply elem_of_nil in Hin|].
  rewrite fmap_cons in Hnd. apply NoDup_cons in Hnd as [Hc0 Hnd].
  apply elem_of_cons in Hin as [->|Hin]; [|by apply IH].
  simpl. clear IH Hnd. revert m. induction cs as [|c1 cs IH]; intros m; simpl.
  - unfold register. by rewrite lookup_insert_eq.
  - rewrite fmap_cons in Hc0. apply not_elem_of_cons in Hc0 as [Hne Hc0].
    unfold register at 2 3. rewrite insert_insert_ne by done. by apply IH.
Qed.

Lemma NoDup_fmap_elem_inj {A B} (f : A → B) (l : list A) x y :
  NoDup (f <$> l) → x ∈ l → y ∈ l → f x = f y → x = y.
Proof.
  induction l as [|a l IH]; intros Hnd Hx Hy Heq; [by apply elem_of_nil in Hx|].
  rewrite fmap_cons in Hnd. apply NoDup_cons in Hnd as [Ha Hnd].
  apply elem_of_cons in Hx as [->|Hx]; apply elem_of_cons in Hy as [->|Hy].
  - done.
  - destruct Ha. rewrite Heq. by apply list_elem_of_fmap_2.
  - destruct Ha. rewrite <-Heq. by apply list_elem_of_fmap_2.
  - by apply IH.
Qed.

Lemma length_filter_snd (order : list (positive * positive)) ch :
  length (filter (λ kv : positive * positive, kv.2 = ch) order)
  = length (filter (λ x, x = ch) (order.*2)).
Proof.
  induction order as [|kv order IH]; [done|].
  rewrite fmap_cons, !filter_cons. simpl.
  destruct (decide (kv.2 = ch)); simpl; by rewrite IH.
Qed.

(** X4.  The dispatcher has processed the add events of N sessions
    (distinct connections, distinct channels) and the removal of one of
    them, and then the connector sends M.  The dispatcher has not
    panicked and the channel of the removed session is closed.  Whatever
    order [range] visits the table in, the broadcast has no send on a
    closed channel, so that it cannot panic; it has no send on the channel
    of the removed session, and exactly one send of M on the channel of
    each of the others.  Run on its own, every send finding its receiver,
    it leaves the table and the closed channels as they are; whether a
    send is taken is for the write loop on the other side. *)
Theorem broadcast_skips_removed_session (cs : list Client) (c : Client) (M : Message) :
  NoDup (conn <$> cs) →
  NoDup (resCh <$> cs) →
  c ∈ cs →
  ∃ tr st,
    handleChannels ((EvAdd <$> cs) ++ [EvRm c]) = (tr, Some st) ∧
    resCh c ∈ closed st ∧
    ∀ order, order ≡ₚ map_to_list (clients st) →
      (∀ ch m, DSend ch m ∈ processResponse order M → ch ∉ closed st) ∧
      run_ops st (processResponse order M) = (processResponse order M, Some st) ∧
      sends_on (resCh c) (processResponse order M) = [] ∧
      ∀ c', c' ∈ cs → c' ≠ c →
        sends_on (resCh c') (processResponse order M) = [M].
Proof.
  intros Hconn Hchan Hc.
  destruct (run_adds cs initDState eq_refl) as [tr Htr].
  set (tab := foldl register (clients initDState) cs) in *.
  assert (Htab : map_to_list tab ≡ₚ (λ c, (conn c, resCh c)) <$> cs).
  { unfold tab. simpl. rewrite table_after_adds; [|done|done].
    by rewrite map_to_list_empty, app_nil_r. }
  assert (Hlk : tab !! conn c = Some (resCh c))
    by (by apply foldl_register_lookup).
  set (st := mkDState (delete (conn c) tab) ({[resCh c]} ∪ ∅)).
  assert (Hsnd : ∀ order, order ≡ₚ map_to_list (clients st) →
            resCh c :: order.*2 ≡ₚ resCh <$> cs).
  { intros order ->. simpl.
    change (resCh c :: (map_to_list (delete (conn c) tab)).*2)
      with (((conn c, resCh c) :: map_to_list (delete (conn c) tab)).*2).
    rewrite (map_to_list_delete tab _ _ Hlk), Htab, <-list_fmap_compose. done. }
  exists (tr ++ case_body [] (EvRm c)), st. split; [|split].
  - unfold handleChannels in *. rewrite handleChannels_from_app, Htr.
    cbn [handleChannels_from case_body run_ops exec_op closed clients].
    rewrite decide_False by apply not_elem_of_empty.
    by rewrite app_nil_r.
  - simpl. apply elem_of_union. left. by apply elem_of_singleton.
  - intros order Hord. pose proof (Hsnd _ Hord) as Hperm.
    assert (Hnd : NoDup (resCh c :: order.*2)) by (by rewrite Hperm).
    apply NoDup_cons in Hnd as [Hnin Hnd].
    assert (Hopen : ∀ kv, kv ∈ order → kv.2 ∉ closed st).
    { intros kv Hin. simpl.
      rewrite elem_of_union, elem_of_singleton, elem_of_empty.
      intros [Heq|[]]. apply Hnin. rewrite <-Heq. by apply list_elem_of_fmap_2. }
    split_and!.
    + intros ch m Hin. apply elem_of_cons in Hin as [Heq|Hin]; [done|].
      apply list_elem_of_fmap in Hin as (kv & Heq & Hin).
      injection Heq as -> _. by apply Hopen.
    + by apply run_broadcast.
    + rewrite sends_on_processResponse, length_filter_snd.
      by rewrite filter_eq_absent.
    + intros c' Hc' Hne. rewrite sends_on_processResponse, length_filter_snd.
      assert (Hin : resCh c' ∈ resCh c :: order.*2).
      { rewrite Hperm. by apply list_elem_of_fmap_2. }
      apply elem_of_cons in Hin as [Heq|Hin].
      * destruct Hne.
        by apply (NoDup_fmap_elem_inj resCh cs).
      * by rewrite (count_one_of_NoDup _ _ Hnd Hin).
Qed.

Lemma broadcast_skips_removed_session_witness :
  let cs := [mkClient 5 1; mkClient 6 2; mkClient 9 3] in
  let c := mkClient 6 2 in
  NoDup (conn <$> cs) ∧ NoDup (resCh <$> cs) ∧ c ∈ cs ∧
  ∃ tr st,
    handleChannels ((EvAdd <$> cs) ++ [EvRm c]) = (tr, Some st) ∧
    resCh c ∈ closed st ∧
    ∀ order, order ≡ₚ map_to_list (clients st) →
      (∀ ch m, DSend ch m ∈ processResponse order (NewMessage "RES") →
               ch ∉ closed st) ∧
      run_ops st (processResponse order (NewMessage "RES"))
        = (processResponse order (NewMessage "RES"), Some st) ∧
      sends_on (resCh c) (processResponse order (NewMessage "RES")) = [] ∧
      ∀ c', c' ∈ cs → c' ≠ c →
        sends_on (resCh c') (processResponse order (NewMessage "RES"))
          = [NewMessage "RES"].
Proof.
  intros cs c.
  assert (H1 : NoDup (conn <$> cs))
    by (apply (bool_decide_unpack _); vm_compute; exact I).
  assert (H2 : NoDup (resCh <$> cs))
    by (apply (bool_decide_unpack _); vm_compute; exact I).
  assert (H3 : c ∈ cs)
    by (apply (bool_decide_unpack _); vm_compute; exact I).
  exact (conj H1 (conj H2 (conj H3
           (broadcast_skips_removed_session cs c (NewMessage "RES") H1 H2 H3)))).
Defined.

(** ** The read loop *)

Example Read_toy :
  Read (H := toy_codec) 7 tt
    [ReadLine [x41; x42; x43; x0a]%byte; ReadLine [x21]%byte;
     ReadLine [x52; x45; x0a]%byte; ReadFail "EOF"; ReadLine [x52; x45; x0a]%byte]
  = ([RRequest (mkMessage "REQ" ["X"]); RLog (LogErr "empty line");
      RRequest (mkMessage "REQ" ["Y"]);
      RLog (LogErr "tokeniser error");
      RRequest (mkMessage "REQ" ["X"]);
      RLog (LogReadError 7 "EOF"); RRemove], Returned).
Proof. reflexivity. Qed.

Section read_loop.
Context `{Codec}.

(** One more line read: the loop does this iteration and goes on. *)
Lemma Read_line_cons c tok line reads :
  Read c tok (ReadLine line :: reads) =
  (snd (Read_iter c tok (ReadLine line))
     ++ fst (Read c (fst (Read_iter c tok (ReadLine line))) reads),
   snd (Read c (fst (Read_iter c tok (ReadLine line))) reads)).
Proof.
  cbn [Read]. destruct (Read_iter c tok (ReadLine line)) as [tok' ops].
  simpl. by destruct (Read c tok' reads).
Qed.

Lemma forwarded_app ops1 ops2 :
  forwarded (ops1 ++ ops2) = forwarded ops1 ++ forwarded ops2.
Proof. apply omap_app. Qed.

Lemma forwarded_range_lines frames :
  forwarded (range_lines frames) = parsed frames.
Proof.
  induction frames as [|f frames IH]; [done|].
  unfold parsed in *. simpl.
  destruct (LineToMessage f); simpl; [f_equal|]; apply IH.
Qed.

Lemma range_lines_app frames1 frames2 :
  range_lines (frames1 ++ frames2) = range_lines frames1 ++ range_lines frames2.
Proof.
  induction frames1 as [|f frames1 IH]; [done|].
  simpl. destruct (LineToMessage f); simpl; by rewrite IH.
Qed.

Lemma RRemove_not_in_range_lines frames : RRemove ∉ range_lines frames.
Proof.
  induction frames as [|f frames IH]; simpl; [by apply not_elem_of_nil|].
  destruct (LineToMessage f); apply not_elem_of_cons; done.
Qed.

Lemma Read_iter_invalid c tok bad tok1 :
  decode_invalid tok bad tok1 →
  fst (Read_iter c tok (ReadLine bad)) = tok1 ∧
  forwarded (snd (Read_iter c tok (ReadLine bad))) = [] ∧
  (RRemove ∉ snd (Read_iter c tok (ReadLine bad))) ∧
  ∃ err, RLog (LogErr err) ∈ snd (Read_iter c tok (ReadLine bad)).
Proof.
  intros [(frames & err & Htok)|(frames & Htok & Hne & Hnone)];
    simpl; rewrite Htok; simpl.
  - split_and!; [done|done| |].
    + by intros [?|[]%elem_of_nil]%elem_of_cons.
    + exists err. by left.
  - split_and!; [done|by rewrite forwarded_range_lines
                 |apply RRemove_not_in_range_lines|].
    destruct frames as [|f frames]; [done|].
    unfold parsed in Hnone. simpl in *.
    destruct (LineToMessage f) as [m|err]; [done|]. exists err. by left.
Qed.

Lemma Read_iter_valid c tok good tok2 m :
  decodes_to tok good tok2 m →
  Read_iter c tok (ReadLine good) = (tok2, [RRequest m]).
Proof. intros (f & Htok & Hf). simpl. rewrite Htok. simpl. by rewrite Hf. Qed.

(** C6.  The read loop is fed a decode-invalid line (the tokeniser
    rejects it, or none of its frames parses) and then a line holding one
    valid message [m].  Exactly [m] is put on [reqCh]; the invalid unit is
    logged and nothing of it is forwarded; the loop has not signalled
    removal and is waiting for its next read.  Whatever is read
    afterwards is handled as if the bad line had not been there. *)
Theorem malformed_input_is_dropped c tok bad tok1 good tok2 m :
  decode_invalid tok bad tok1 →
  decodes_to tok1 good tok2 m →
  (forwarded (fst (Read c tok [ReadLine bad; ReadLine good])) = [m] ∧
   snd (Read c tok [ReadLine bad; ReadLine good]) = Waiting ∧
   (RRemove ∉ fst (Read c tok [ReadLine bad; ReadLine good])) ∧
   ∃ err, RLog (LogErr err) ∈ fst (Read c tok [ReadLine bad; ReadLine good])) ∧
  ∀ reads,
    forwarded (fst (Read c tok (ReadLine bad :: ReadLine good :: reads)))
      = m :: forwarded (fst (Read c tok2 reads)) ∧
    snd (Read c tok (ReadLine bad :: ReadLine good :: reads))
      = snd (Read c tok2 reads).
Proof.
  intros Hbad Hgood.
  destruct (Read_iter_invalid c _ _ _ Hbad) as (Htok1 & Hfwd & Hrm & err & Herr).
  pose proof (Read_iter_valid c _ _ _ _ Hgood) as Hiter.
  assert (Hgen : ∀ reads,
    Read c tok (ReadLine bad :: ReadLine good :: reads) =
    (snd (Read_iter c tok (ReadLine bad))
       ++ RRequest m :: fst (Read c tok2 reads),
     snd (Read c tok2 reads))).
  { intros reads. rewrite Read_line_cons, Htok1, Read_line_cons, Hiter. done. }
  split.
  - rewrite Hgen. cbn [Read fst snd]. rewrite forwarded_app, Hfwd.
    split_and!; [done|done| |].
    + rewrite elem_of_app, elem_of_cons. intros [?|[?|[]%elem_of_nil]]; done.
    + exists err. apply elem_of_app. by left.
  - intros reads. rewrite Hgen. cbn [fst snd].
    by rewrite forwarded_app, Hfwd.
Qed.

(** C10.  A line for which [Tokenise] returns an error, with whatever
    frames [frames1] alongside it, contributes the log entry only: none
    of [frames1] is parsed or forwarded, and the loop goes on with the
    next read.  For a line tokenised without error, each frame that fails
    to parse is logged and dropped on its own; the frames before and
    after it are handled as usual. *)
Theorem tokeniser_error_discards_all_frames
    c tok line1 tok1 frames1 err line2 tok2 frames2 reads :
  Tokenise tok line1 = (tok1, (frames1, Some err)) →
  Tokenise tok1 line2 = (tok2, (frames2, None)) →
  Read c tok (ReadLine line1 :: ReadLine line2 :: reads) =
    (RLog (LogErr err) :: range_lines frames2 ++ fst (Read c tok2 reads),
     snd (Read c tok2 reads)) ∧
  forwarded (fst (Read c tok (ReadLine line1 :: ReadLine line2 :: reads))) =
    parsed frames2 ++ forwarded (fst (Read c tok2 reads)) ∧
  ∀ pre f post e,
    frames2 = pre ++ f :: post → LineToMessage f = inr e →
    range_lines frames2
      = range_lines pre ++ RLog (LogErr e) :: range_lines post ∧
    parsed frames2 = parsed pre ++ parsed post.
Proof.
  intros Htok1 Htok2.
  assert (Hrun : Read c tok (ReadLine line1 :: ReadLine line2 :: reads) =
    (RLog (LogErr err) :: range_lines frames2 ++ fst (Read c tok2 reads),
     snd (Read c tok2 reads))).
  { rewrite Read_line_cons. cbn [Read_iter]. rewrite Htok1. cbn [fst snd].
    rewrite Read_line_cons. cbn [Read_iter]. rewrite Htok2. done. }
  split_and!; [done| |].
  - rewrite Hrun. cbn [fst]. change (RLog (LogErr err) :: ?l) with ([RLog (LogErr err)] ++ l).
    by rewrite !forwarded_app, forwarded_range_lines.
  - intros pre f post e -> Hf. rewrite range_lines_app. simpl. rewrite Hf.
    split; [done|]. unfold parsed. rewrite omap_app. simpl. by rewrite Hf.
Qed.
End read_loop.

Lemma malformed_input_is_dropped_witness :
  let bad := [x21]%byte in
  let good := [x52; x45; x0a]%byte in
  let m := mkMessage "REQ" ["X"] in
  decode_invalid (H := toy_codec) tt bad tt ∧
  decodes_to (H := toy_codec) tt good tt m ∧
  forwarded (fst (Read (H := toy_codec) 7 tt [ReadLine bad; ReadLine good])) = [m].
Proof.
  intros bad good m.
  assert (H1 : decode_invalid (H := toy_codec) tt bad tt)
    by (left; exists [["STRAY"]], "tokeniser error"; reflexivity).
  assert (H2 : decodes_to (H := toy_codec) tt good tt m)
    by (exists ["REQ"; "X"]; split; reflexivity).
  exact (conj H1 (conj H2
    (proj1 (proj1 (malformed_input_is_dropped (H := toy_codec)
                     7%positive tt bad tt good tt m H1 H2))))).
Defined.

Lemma tokeniser_error_discards_all_frames_witness :
  let line1 := [x21]%byte in
  let line2 := [x41; x42; x43; x0a]%byte in
  Tokenise (Codec := toy_codec) tt line1
    = (tt, ([["STRAY"]], Some "tokeniser error")) ∧
  Tokenise (Codec := toy_codec) tt line2
    = (tt, ([["REQ"; "X"]; []; ["REQ"; "Y"]], None)) ∧
  forwarded (fst (Read (H := toy_codec) 7 tt [ReadLine line1; ReadLine line2]))
    = [mkMessage "REQ" ["X"]; mkMessage "REQ" ["Y"]].
Proof.
  intros line1 line2.
  pose proof (tokeniser_error_discards_all_frames (H := toy_codec)
                7%positive tt line1 tt [["STRAY"]] "tokeniser error"
                line2 tt [["REQ"; "X"]; []; ["REQ"; "Y"]] []
                eq_refl eq_refl) as (_ & Hfwd & _).
  exact (conj eq_refl (conj eq_refl Hfwd)).
Defined.

(** ** The write loop *)

Section write_loop.
Context `{Codec}.

(** The write loop signals removal only as the last thing it does, right
    after a failed [conn.Write]. *)
Lemma Write_remove_last c inbox : ∀ sock,
  WRemove ∈ fst (Write c inbox sock) →
  snd (Write c inbox sock) = Returned ∧
  ∃ pre data err,
    fst (Write c inbox sock)
      = pre ++ [WConnWrite data; WLog (LogWriteError c err); WRemove] ∧
    (WRemove ∉ pre) ∧ Some err ∈ sock.
Proof.
  induction inbox as [|[msg|] inbox IH]; intros sock; simpl.
  - by intros ?%elem_of_nil.
  - destruct (Pack msg) as [data|err].
    + destruct sock as [|[err|] sock].
      * intros [?|?%elem_of_nil]%elem_of_cons; done.
      * intros _. split; [done|]. exists [], data, err.
        split_and!; [done|apply not_elem_of_nil|by left].
      * specialize (IH sock). destruct (Write c inbox sock) as [ops st].
        simpl in *. intros [?|Hin]%elem_of_cons; [done|].
        destruct (IH Hin) as (-> & pre & data' & err & -> & Hpre & Hsock).
        split; [done|]. exists (WConnWrite data :: pre), data', err.
        split_and!; [done| |by right].
        by apply not_elem_of_cons.
    + specialize (IH sock). destruct (Write c inbox sock) as [ops st].
      simpl in *. intros [?|Hin]%elem_of_cons; [done|].
      destruct (IH Hin) as (-> & pre & data' & err' & -> & Hpre & Hsock).
      split; [done|]. exists (WLog (LogErr err) :: pre), data', err'.
      split_and!; [done| |done].
      by apply not_elem_of_cons.
  - by intros ?%elem_of_nil.
Qed.

(** The write loop on its own, its send on [rmCh] finding the dispatcher
    ready, for a message [good] that packs and a message [bad] that does
    not.  On a closed channel it returns, having done nothing.  On [bad]
    it logs and goes on with the messages that follow, the socket
    untouched.  On [good] with the socket write failing it logs and sends
    the client on [rmCh], whatever is still to come; with the write
    succeeding it goes on.  Over a whole run, the send on [rmCh] is the
    last action, after a failed socket write.  When the dispatcher takes
    that send is not part of this statement: the system below has it. *)
Theorem write_loop_outcomes c good data bad err :
  Pack good = inl data →
  Pack bad = inr err →
  (∀ inbox sock, Write c (RecvClosed :: inbox) sock = ([], Returned)) ∧
  (∀ inbox sock,
     Write c (RecvMsg bad :: inbox) sock =
       (WLog (LogErr err) :: fst (Write c inbox sock), snd (Write c inbox sock))) ∧
  (∀ werr inbox sock,
     Write c (RecvMsg good :: inbox) (Some werr :: sock) =
       ([WConnWrite data; WLog (LogWriteError c werr); WRemove], Returned)) ∧
  (∀ inbox sock,
     Write c (RecvMsg good :: inbox) (None :: sock) =
       (WConnWrite data :: fst (Write c inbox sock), snd (Write c inbox sock))) ∧
  (∀ inbox sock,
     WRemove ∈ fst (Write c inbox sock) →
     snd (Write c inbox sock) = Returned ∧
     ∃ pre data' werr,
       fst (Write c inbox sock)
         = pre ++ [WConnWrite data'; WLog (LogWriteError c werr); WRemove] ∧
       (WRemove ∉ pre) ∧ Some werr ∈ sock).
Proof.
  intros Hgood Hbad. split_and!.
  - done.
  - intros inbox sock. simpl. rewrite Hbad. by destruct (Write c inbox sock).
  - intros werr inbox sock. simpl. by rewrite Hgood.
  - intros inbox sock. simpl. rewrite Hgood. by destruct (Write c inbox sock).
  - apply Write_remove_last.
Qed.
End write_loop.

Lemma write_loop_outcomes_witness :
  let good := NewMessage "RES" in
  let bad := NewMessage "BAD" in
  Pack (Codec := toy_codec) good = inl [] ∧
  Pack (Codec := toy_codec) bad = inr "cannot pack" ∧
  Write (H := toy_codec) 7 [RecvMsg bad; RecvMsg good; RecvMsg good; RecvClosed]
        [None; Some "broken pipe"]
  = ([WLog (LogErr "cannot pack"); WConnWrite [];
      WConnWrite []; WLog (LogWriteError 7 "broken pipe"); WRemove], Returned).
Proof.
  intros good bad.
  pose proof (write_loop_outcomes (H := toy_codec) 7%positive good [] bad
                "cannot pack" eq_refl eq_refl) as (_ & Hbad & Hfail & Hok & _).
  split; [reflexivity|]. split; [reflexivity|].
  rewrite Hbad, Hok, Hfail. reflexivity.
Defined.

(** ** The listener *)

Example runListener_accepts :
  runListener None [AcceptConn 4; AcceptFail "too many open files"; AcceptConn 5]
  = ([LGoHandleChannels; LGoHandleNewConnection 4;
      LLog (LogAcceptError "too many open files"); LGoHandleNewConnection 5],
     Waiting).
Proof. reflexivity. Qed.

Lemma spawned_app ops1 ops2 : spawned (ops1 ++ ops2) = spawned ops1 ++ spawned ops2.
Proof. apply omap_app. Qed.

Lemma accept_loop_app a1 a2 :
  accept_loop (a1 ++ a2) = accept_loop a1 ++ accept_loop a2.
Proof. apply fmap_app. Qed.

(** C8, as the code has it.  Once [net.Listen] has succeeded the listener
    never returns; a failed [Accept] is logged and the accepts after it are
    served like those before it.  When [net.Listen] fails the listener logs
    the error and returns at once: no dispatcher is started and nothing is
    accepted.  The error is in the log only. *)
Theorem listener_failures :
  (∀ accepts, snd (runListener None accepts) = Waiting) ∧
  (∀ pre err post,
     runListener None (pre ++ AcceptFail err :: post) =
       (LGoHandleChannels
          :: accept_loop pre ++ LLog (LogAcceptError err) :: accept_loop post,
        Waiting) ∧
     spawned (fst (runListener None (pre ++ AcceptFail err :: post))) =
       spawned (accept_loop pre) ++ spawned (accept_loop post)) ∧
  (∀ pre c post,
     spawned (fst (runListener None (pre ++ AcceptConn c :: post))) =
       spawned (accept_loop pre) ++ c :: spawned (accept_loop post)) ∧
  (∀ err accepts,
     runListener (Some err) accepts = ([LLog (LogListenError err)], Returned)).
Proof.
  split_and!; try done.
  - intros pre err post. simpl. rewrite accept_loop_app. split; [done|].
    change (spawned (accept_loop pre ++ accept_loop [AcceptFail err] ++ accept_loop post)
            = spawned (accept_loop pre) ++ spawned (accept_loop post)).
    by rewrite !spawned_app.
  - intros pre c post. simpl. rewrite accept_loop_app.
    change (spawned (accept_loop pre ++ accept_loop [AcceptConn c] ++ accept_loop post)
            = spawned (accept_loop pre) ++ c :: spawned (accept_loop post)).
    by rewrite !spawned_app.
Qed.

(** C8 as stated fails: what [runListener] hands back to its caller does
    not carry the listen error.  The caller sees the same thing whether the
    port was taken or the permission was missing. *)
Lemma listen_error_not_returned :
  ¬ ∃ report : LoopStatus → Err,
      ∀ err accepts, report (snd (runListener (Some err) accepts)) = err.
Proof.
  intros [report Hrep].
  pose proof (Hrep "address already in use" []) as H1.
  pose proof (Hrep "permission denied" []) as H2.
  simpl in *. congruence.
Qed.

(** ** More on the read loop *)

Section read_more.
Context `{Codec}.

Lemma Read_iter_tok c tok line :
  fst (Read_iter c tok (ReadLine line)) = fst (Tokenise tok line).
Proof. simpl. by destruct (Tokenise tok line) as [tok' [frames [err|]]]. Qed.

Lemma forwarded_Read_iter c tok line :
  forwarded (snd (Read_iter c tok (ReadLine line))) =
  match Tokenise tok line with
  | (_, (frames, None)) => parsed frames
  | (_, (_, Some _)) => []
  end.
Proof.
  simpl. destruct (Tokenise tok line) as [tok' [frames [err|]]]; simpl; [done|].
  apply forwarded_range_lines.
Qed.

Lemma RRemove_not_in_Read_iter c tok line :
  RRemove ∉ snd (Read_iter c tok (ReadLine line)).
Proof.
  simpl. destruct (Tokenise tok line) as [tok' [frames [err|]]]; simpl.
  - by intros [?|[]%elem_of_nil]%elem_of_cons.
  - apply RRemove_not_in_range_lines.
Qed.

Lemma Read_lines_app c lines : ∀ tok reads,
  Read c tok ((ReadLine <$> lines) ++ reads) =
  (fst (Read c tok (ReadLine <$> lines)) ++ fst (Read c (tok_after tok lines) reads),
   snd (Read c (tok_after tok lines) reads)).
Proof.
  induction lines as [|line lines IH]; intros tok reads.
  - simpl. by destruct (Read c tok reads).
  - rewrite fmap_cons, <-app_comm_cons, !Read_line_cons, IH. cbn [fst snd].
    unfold tok_after. cbn [foldl]. rewrite Read_iter_tok.
    by rewrite app_assoc.
Qed.

Lemma Read_lines_waiting c lines : ∀ tok,
  snd (Read c tok (ReadLine <$> lines)) = Waiting ∧
  (RRemove ∉ fst (Read c tok (ReadLine <$> lines))).
Proof.
  induction lines as [|line lines IH]; intros tok.
  - split; [done|apply not_elem_of_nil].
  - rewrite fmap_cons, Read_line_cons. cbn [fst snd].
    destruct (IH (fst (Read_iter c tok (ReadLine line)))) as [Hst Hrm].
    split; [done|]. rewrite elem_of_app. intros [Hin|Hin]; [|done].
    by apply RRemove_not_in_Read_iter in Hin.
Qed.

(** X5.  The tokeniser is carried from read to read.  Reading some lines
    and then going on is reading the lines, and then going on with the
    tokeniser as those lines have left it, whether the tokeniser took them
    or returned an error: nothing else of the lines already read bears on
    what the loop does next. *)
Theorem Read_carries_tokeniser (c : Conn) (tok : TokState) (lines : list bytes)
    (reads : list ReadResult) :
  Read c tok ((ReadLine <$> lines) ++ reads) =
  (fst (Read c tok (ReadLine <$> lines)) ++ fst (Read c (tok_after tok lines) reads),
   snd (Read c (tok_after tok lines) reads)).
Proof.
  revert tok. induction lines as [|line lines IH]; intros tok.
  - simpl. by destruct (Read c tok reads).
  - rewrite fmap_cons, <-app_comm_cons, !Read_line_cons, IH. cbn [fst snd].
    unfold tok_after. cbn [foldl]. rewrite Read_iter_tok.
    by rewrite app_assoc.
Qed.

(** X6.  The read loop and a failing [ReadBytes].  As long as the reads
    return lines the loop does not return and does not send on [rmCh],
    whatever the lines hold.  At the first read that fails it logs the
    error with the connection and then sends the client on [rmCh], once:
    what it does is what it did for the lines read before, then these two
    actions and nothing after them, and what later reads would have
    returned plays no part.  When the dispatcher takes the send, and so
    when the loop returns, is not part of this statement. *)
Theorem Read_stops_at_first_read_error (c : Conn) (tok : TokState)
    (lines : list bytes) :
  snd (Read c tok (ReadLine <$> lines)) = Waiting ∧
  (RRemove ∉ fst (Read c tok (ReadLine <$> lines))) ∧
  ∀ e rest,
    fst (Read c tok ((ReadLine <$> lines) ++ ReadFail e :: rest)) =
    fst (Read c tok (ReadLine <$> lines)) ++ [RLog (LogReadError c e); RRemove].
Proof.
  destruct (Read_lines_waiting c lines tok) as [Hst Hrm].
  split; [done|]. split; [done|].
  intros e rest. by rewrite Read_lines_app.
Qed.

Lemma forwarded_Read_lines c lines : ∀ tok,
  forwarded (fst (Read c tok (ReadLine <$> lines))) = accepted tok lines.
Proof.
  induction lines as [|line lines IH]; intros tok; [done|].
  rewrite fmap_cons, Read_line_cons. cbn [fst].
  rewrite forwarded_app, forwarded_Read_iter, IH, Read_iter_tok.
  cbn [accepted]. by destruct (Tokenise tok line) as [tok' [frames [err|]]].
Qed.

(** X7.  What reaches [reqCh].  The messages the read loop sends on
    [reqCh] are, in the order read, the frames that parse of every line
    that the tokeniser took without error: no message is sent twice or out
    of order, and nothing is sent for a line the tokeniser rejected.  A
    read error at the end changes nothing to what was sent before it. *)
Theorem Read_forwards_in_arrival_order (c : Conn) (tok : TokState)
    (lines : list bytes) :
  forwarded (fst (Read c tok (ReadLine <$> lines))) = accepted tok lines ∧
  ∀ e rest,
    forwarded (fst (Read c tok ((ReadLine <$> lines) ++ ReadFail e :: rest)))
    = accepted tok lines.
Proof.
  split; [apply forwarded_Read_lines|].
  intros e rest. rewrite Read_lines_app. cbn [fst].
  rewrite forwarded_app, forwarded_Read_lines. cbn. by rewrite app_nil_r.
Qed.
End read_more.

(** ** More on the write loop *)

Section write_more.
Context `{Codec}.

Lemma packed_cons m ms :
  packed (m :: ms) = match Pack m with
                     | inl data => data :: packed ms
                     | inr _ => packed ms
                     end.
Proof. unfold packed. simpl. by destruct (Pack m). Qed.

(** X8.  What reaches the socket.  The payloads the write loop hands to
    [conn.Write] are, in order, the packed forms of the messages it
    received before the channel was closed, those that do not pack left
    out, up to where the loop stopped.  When no socket write fails and
    every one returns, these are all of them; the loop then does not
    signal removal, and it returns exactly if the channel was closed. *)
Theorem Write_writes_in_order (c : Conn) (inbox : list RecvResult)
    (sock : list (option Err)) :
  writes (fst (Write c inbox sock)) `prefix_of` packed (before_close inbox) ∧
  (Forall (λ r, r = None) sock →
   length (packed (before_close inbox)) ≤ length sock →
   writes (fst (Write c inbox sock)) = packed (before_close inbox) ∧
   (WRemove ∉ fst (Write c inbox sock)) ∧
   (snd (Write c inbox sock) = Returned ↔ RecvClosed ∈ inbox)).
Proof.
  revert sock. induction inbox as [|[msg|] inbox IH]; intros sock.
  - simpl. split; [done|]. intros _ _. split_and!; [done|apply not_elem_of_nil|].
    split; [done|by intros ?%elem_of_nil].
  - cbn [Write before_close]. rewrite packed_cons.
    destruct (Pack msg) as [data|err].
    + destruct sock as [|[werr|] sock].
      * simpl. split; [by apply prefix_cons, prefix_nil|]. simpl. lia.
      * simpl. split; [by apply prefix_cons, prefix_nil|].
        intros Hall. apply Forall_cons in Hall as [? _]. done.
      * destruct (IH sock) as [Hpre Hall].
        destruct (Write c inbox sock) as [ops st]. simpl in *.
        split; [by apply prefix_cons|].
        intros [_ Hnone]%Forall_cons Hlen.
        destruct Hall as (Heq & Hrm & Hst); [done|lia|].
        split_and!; [by f_equal|by apply not_elem_of_cons|].
        rewrite Hst, elem_of_cons. split; [by right|by intros [?|?]].
    + destruct (IH sock) as [Hpre Hall].
      destruct (Write c inbox sock) as [ops st]. simpl in *.
      split; [done|]. intros Hnone Hlen.
      destruct Hall as (Heq & Hrm & Hst); [done|done|].
      split_and!; [done|by apply not_elem_of_cons|].
      rewrite Hst, elem_of_cons. split; [by right|by intros [?|?]].
  - simpl. split; [done|]. intros _ _.
    split_and!; [done|apply not_elem_of_nil|]. split; [by left|done].
Qed.
End write_more.

(** ** More on the listener *)

(** X9.  Once [net.Listen] has succeeded the listener starts the
    dispatcher, once and before anything else, and then does one thing per
    [Accept]: for those that give a connection it starts one
    [handleNewConnection] goroutine, in the order accepted, and for those
    that fail it logs the error; a failed accept starts nothing. *)
Theorem runListener_one_goroutine_per_connection (accepts : list AcceptResult) :
  ∃ rest,
    fst (runListener None accepts) = LGoHandleChannels :: rest ∧
    (LGoHandleChannels ∉ rest) ∧
    length rest = length accepts ∧
    spawned rest = accepted_conns accepts ∧
    listener_log rest = LogAcceptError <$> accept_errors accepts.
Proof.
  exists (accept_loop accepts). split; [done|].
  induction accepts as [|[c|e] accepts (Hno & Hlen & Hsp & Hlog)].
  - split_and!; [apply not_elem_of_nil|done..].
  - split_and!; [by apply not_elem_of_cons|by simpl; f_equal| |done].
    unfold spawned, accepted_conns in *. simpl. by f_equal.
  - split_and!; [by apply not_elem_of_cons|by simpl; f_equal|done|].
    unfold listener_log, accept_errors in *. simpl. by f_equal.
Qed.

(** ** The goroutines together *)

Lemma snoc_eq_middle {A} (l pre post : list A) (x y : A) :
  l ++ [x] = pre ++ y :: post →
  (post = [] ∧ x = y ∧ l = pre) ∨
  (∃ post', post = post' ++ [x] ∧ l = pre ++ y :: post').
Proof.
  destruct (decide (post = [])) as [->|Hne].
  - intros Heq. apply app_inj_tail in Heq as [-> ->]. by left.
  - destruct (exists_last Hne) as (post' & z & ->). intros Heq.
    rewrite app_comm_cons, app_assoc in Heq.
    apply app_inj_tail in Heq as [-> ->]. right. by exists post'.
Qed.

Lemma received_on_app ch d1 d2 :
  received_on ch (d1 ++ d2) = received_on ch d1 ++ received_on ch d2.
Proof. apply omap_app. Qed.

Lemma greeted_app l1 l2 : greeted l1 → greeted (l1 ++ l2).
Proof. intros [rest ->]. by exists (rest ++ l2). Qed.

Lemma sends_on_broadcast_absent ch (order : list (positive * positive)) m :
  (∀ kv, kv ∈ order → kv.2 ≠ ch) →
  sends_on ch (processResponse order m) = [].
Proof.
  intros Habs. rewrite sends_on_processResponse.
  assert (filter (λ kv : positive * positive, kv.2 = ch) order = []) as ->; [|done].
  induction order as [|kv order IH]; [done|].
  rewrite filter_cons, decide_False by (apply Habs; left).
  apply IH. intros kv' ?. apply Habs. by right.
Qed.

Lemma DInsert_not_in_broadcast k ch order m :
  DInsert k ch ∉ processResponse order m.
Proof.
  unfold processResponse. apply not_elem_of_cons. split; [done|].
  intros (kv & Heq & _)%list_elem_of_fmap. done.
Qed.

Lemma sends_on_cons_other ch op p :
  (∀ m, op ≠ DSend ch m) → sends_on ch (op :: p) = sends_on ch p.
Proof.
  intros Hop. destruct op as [| ch' m | | | |]; try done.
  unfold sends_on. simpl. destruct (decide (ch' = ch)) as [->|]; [|done].
  by destruct (Hop m).
Qed.

(** At [select] the dispatcher enters a case body. *)
Lemma chan_inv_of_body d tab order ev :
  order ≡ₚ map_to_list tab →
  chan_inv_of d [] tab → chan_inv_of d (case_body order ev) tab.
Proof.
  intros Hord Hinv ch. specialize (Hinv ch).
  assert (Hg : ∀ p, greeted (received_on ch d ++ sends_on ch []) →
                    greeted (received_on ch d ++ sends_on ch p)).
  { intros p. simpl. rewrite app_nil_r. apply greeted_app. }
  destruct Hinv as [Hgr|(Hnil & Htab & _)]; [left; by apply Hg|].
  simpl in Hnil. rewrite app_nil_r in Hnil.
  destruct ev as [m|m|c|c]; cbn [case_body].
  - right. rewrite sends_on_broadcast_absent.
    + rewrite app_nil_r. split_and!; [done..|].
      intros k. apply DInsert_not_in_broadcast.
    + intros [k ch'] Hin. rewrite Hord in Hin.
      apply elem_of_map_to_list in Hin. simpl. intros ->. by eapply Htab.
  - right. rewrite Hnil. split_and!; [done..|].
    intros k. unfold processRequest.
    by intros [?|[?|[]%elem_of_nil]%elem_of_cons]%elem_of_cons.
  - rewrite Hnil. unfold sends_on. simpl.
    destruct (decide (resCh c = ch)) as [->|Hne]; simpl.
    + left. by exists [].
    + right. split_and!; [done..|]. intros k.
      intros [?|[?|[?|[?|[]%elem_of_nil]%elem_of_cons]%elem_of_cons]%elem_of_cons]%elem_of_cons;
        congruence.
  - right. rewrite Hnil. split_and!; [done..|]. intros k.
    by intros [?|[?|[?|[]%elem_of_nil]%elem_of_cons]%elem_of_cons]%elem_of_cons.
Qed.

(** The dispatcher completes a statement that is not a send to a client. *)
Lemma chan_inv_of_local d op p st st' :
  (∀ ch m, op ≠ DSend ch m) →
  exec_op st op = Some st' →
  chan_inv_of d (op :: p) (clients st) → chan_inv_of d p (clients st').
Proof.
  intros Hop Hex Hinv ch. specialize (Hinv ch).
  rewrite sends_on_cons_other in Hinv by (intros m; apply Hop).
  destruct Hinv as [Hgr|(Hnil & Htab & Hins)]; [by left|].
  right. split_and!; [done| |].
  - destruct op as [e|ch' m|m|k ch'|ch'|k]; simpl in Hex.
    + by simplify_eq.
    + by destruct (Hop ch' m).
    + by simplify_eq.
    + simplify_eq. simpl. intros k'. destruct (decide (k = k')) as [->|Hk].
      * rewrite lookup_insert_eq. intros [= ->]. apply (Hins k'). by left.
      * by rewrite lookup_insert_ne.
    + destruct (decide (ch' ∈ closed st)); by simplify_eq.
    + simplify_eq. simpl. intros k'. destruct (decide (k = k')) as [->|Hk].
      * by rewrite lookup_delete_eq.
      * by rewrite lookup_delete_ne.
  - intros k Hin. apply (Hins k). by right.
Qed.

(** A write loop receives the message the dispatcher is sending. *)
Lemma chan_inv_of_deliver d ch m p tab :
  chan_inv_of d (DSend ch m :: p) tab → chan_inv_of (d ++ [(ch, m)]) p tab.
Proof.
  intros Hinv ch0. specialize (Hinv ch0).
  assert (received_on ch0 (d ++ [(ch, m)]) ++ sends_on ch0 p
          = received_on ch0 d ++ sends_on ch0 (DSend ch m :: p)) as ->.
  { rewrite received_on_app, <-app_assoc. f_equal.
    unfold received_on, sends_on. simpl. by destruct (decide (ch = ch0)). }
  destruct Hinv as [Hgr|(Hnil & Htab & Hins)]; [by left|].
  right. split_and!; [done..|]. intros k Hin. apply (Hins k). by right.
Qed.

(** Case analysis on an enabled step [Hs : step l s = Some s']. *)
Ltac step_inv Hs :=
  unfold step in Hs;
  match type of Hs with
  | (if crashed ?s then _ else _) = _ =>
      destruct (crashed s) eqn:?; [discriminate Hs|]
  end;
  match type of Hs with
  | match ?l with _ => _ end = _ => destruct l
  end;
  repeat (case_match; simplify_eq /=); simplify_eq /=; destruct_and?.

Section system.
Context `{Codec}.

Lemma run_invariant (P : System → Prop) :
  (∀ l s s', P s → step l s = Some s' → P s') →
  ∀ ls s s', P s → run ls s = Some s' → P s'.
Proof.
  intros Hstep. induction ls as [|l ls IH]; intros s s' HP Hrun; simpl in Hrun.
  - by simplify_eq.
  - destruct (step l s) as [s1|] eqn:Hs; [|done]. eauto.
Qed.

Lemma reachable_invariant (P : System → Prop) :
  P initSystem →
  (∀ l s s', P s → step l s = Some s' → P s') →
  ∀ s, reachable s → P s.
Proof. intros H0 Hstep s [ls Hrun]. by eapply run_invariant. Qed.

(** *** Registration comes first *)

Lemma registered_inv_init : registered_inv initSystem.
Proof.
  split; simpl.
  - intros c sess Hlk. by rewrite lookup_empty in Hlk.
  - intros pre c m post Heq. by destruct pre.
Qed.

Lemma registered_inv_step l s s' :
  registered_inv s → step l s = Some s' → registered_inv s'.
Proof.
  intros [Hreg Hord] Hs.
  assert (Hold : ∀ c sess, sessions s !! c = Some sess →
            s_writer sess ≠ WRegister ∨ s_reader sess ≠ RNotStarted →
            ∀ x, RcvAdd c ∈ received s ++ x).
  { intros. apply elem_of_app. left. eauto. }
  step_inv Hs.
  all: split; simpl;
    [ intros c0 sess0 Hlk Hpc;
      try (apply lookup_insert_Some in Hlk as [[<- <-]|[Hne Hlk]]);
      simpl in *;
      first [ by destruct Hpc
            | by (eapply Hreg; [eassumption|];
                  first [done|left; congruence|right; congruence])
            | by (eapply Hold; [eassumption|];
                  first [done|left; congruence|right; congruence])
            | by (apply elem_of_app; right; left) ]
    | intros pre c0 m0 post Heq;
      first [ exact (Hord _ _ _ _ Heq)
            | apply snoc_eq_middle in Heq as [(-> & Hx & <-)|(post' & -> & Heq)];
              [ simplify_eq;
                try (eapply Hreg; [eassumption|right; congruence])
              | exact (Hord _ _ _ _ Heq) ] ] ].
Qed.

(** C9.  In every reachable state: a session whose read loop has been
    started has had its add event received by the dispatcher, and every
    request the dispatcher has received from a session comes, in the
    order of reception, after that session's add event.  (The dispatcher
    receives only at [select], with the previous case body completed, so
    the add has been processed by then.) *)
Theorem add_before_any_request (s : System) :
  reachable s →
  (∀ c sess, sessions s !! c = Some sess →
     s_reader sess ≠ RNotStarted → RcvAdd c ∈ received s) ∧
  (∀ pre c m post, received s = pre ++ RcvReq c m :: post → RcvAdd c ∈ pre) ∧
  (∀ l s', step l s = Some s' → received s' ≠ received s → pending s = []).
Proof.
  intros Hr.
  destruct (reachable_invariant registered_inv registered_inv_init
              registered_inv_step s Hr) as [Hreg Hord].
  split_and!; [|done|].
  - intros c sess Hlk Hpc. eapply Hreg; eauto.
  - intros l s' Hs Hne. step_inv Hs; done.
Qed.

(** *** The greeting comes first *)

Lemma chan_inv_init : chan_inv initSystem.
Proof.
  intros ch. right. split_and!; [done| |].
  - intros k. simpl. by rewrite lookup_empty.
  - intros k. simpl. apply not_elem_of_nil.
Qed.

Lemma chan_inv_step l s s' : chan_inv s → step l s = Some s' → chan_inv s'.
Proof.
  unfold chan_inv. intros Hinv Hs. step_inv Hs; try exact Hinv.
  all: repeat match goal with
              | Hp : pending _ = _ |- _ =>
                  try rewrite Hp in Hinv; try rewrite Hp; clear Hp
              end.
  all: try exact Hinv.
  all: try (by apply chan_inv_of_deliver).
  all: try match goal with
       | |- chan_inv_of _ (processResponse ?order ?m) _ =>
           by apply (chan_inv_of_body _ _ order (EvRes m))
       | |- chan_inv_of _ (processRequest ?m) ?tab =>
           by apply (chan_inv_of_body _ _ (map_to_list tab) (EvReq m))
       | |- chan_inv_of _ (DInsert ?c ?ch :: _) ?tab =>
           by apply (chan_inv_of_body _ _ (map_to_list tab) (EvAdd (mkClient c ch)))
       | |- chan_inv_of _ (DClose ?ch :: DDelete ?c :: _) ?tab =>
           by apply (chan_inv_of_body _ _ (map_to_list tab) (EvRm (mkClient c ch)))
       end.
  all: match goal with
       | Hi : chan_inv_of _ (?op :: ?p) (clients ?st) |- chan_inv_of _ ?p ?tab' =>
           apply (chan_inv_of_local _ op _ st
                    (mkDState tab'
                       match op with
                       | DClose ch => {[ch]} ∪ closed st
                       | _ => closed st
                       end));
           [done|simpl; try rewrite decide_False by done; try reflexivity|exact Hi]
       end.
  all: by destruct (dstate s).
Qed.

(** C3.  In every reachable state and for every channel: what the write
    loop of that channel has received so far is nothing, or the greeting,
    or the greeting and the capabilities message followed by anything
    else; so both precede every broadcast that session gets, whatever the
    other goroutines do.  The dispatcher, on receiving a session's add
    event, has as its case body: insert into the table, send the
    greeting, send the capabilities message, log; and it receives its
    next event only once that body is finished. *)
Theorem greeting_comes_first (s : System) (ch : Chan) :
  reachable s →
  (received_on ch (delivered s) = [] ∨
   received_on ch (delivered s) = [makeWelcomeMsg] ∨
   ∃ rest, received_on ch (delivered s)
           = makeWelcomeMsg :: makeFeaturesMsg :: rest) ∧
  (∀ c s', step (LAdd c) s = Some s' →
     ∃ sess, sessions s !! c = Some sess ∧
             pending s' = [DInsert c (s_resCh sess);
                           DSend (s_resCh sess) makeWelcomeMsg;
                           DSend (s_resCh sess) makeFeaturesMsg;
                           DLog (LogNewConnection c)]) ∧
  (∀ l s', step l s = Some s' → received s' ≠ received s → pending s = []).
Proof.
  intros Hr. split_and!.
  - pose proof (reachable_invariant chan_inv chan_inv_init chan_inv_step s Hr ch)
      as [[rest Hg]|(Hnil & _)].
    + destruct (received_on ch (delivered s)) as [|x [|y d]]; simpl in Hg.
      * by left.
      * right; left. by simplify_eq.
      * right; right. simplify_eq. by eexists.
    + left. by apply app_eq_nil in Hnil as [-> _].
  - intros c s' Hs. step_inv Hs. by eexists.
  - intros l s' Hs Hne. step_inv Hs; done.
Qed.

(** *** The only panic is a second close *)

Lemma owner_inv_init : owner_inv initSystem.
Proof. split; simpl; intros *; by rewrite lookup_empty. Qed.

Lemma owner_inv_step l s s' : owner_inv s → step l s = Some s' → owner_inv s'.
Proof.
  intros [Hown Hinj] Hs. step_inv Hs.
  all: split; simpl;
    [ intros c0 sess0 Hlk;
      try (apply lookup_insert_Some in Hlk as [[<- <-]|[Hne Hlk]]); simpl;
      try match goal with
          | Hc : sessions _ !! _ = Some ?s0 |- Pos.lt (s_resCh ?s0) _ ∧ _ =>
              destruct (Hown _ _ Hc) as [Hlt Hrd]
          end;
      try (destruct (Hown _ _ Hlk) as [Hlt' Hrd']);
      (split; [lia|try done; try congruence; eauto])
    | intros c1 c2 sess1 sess2 Hlk1 Hlk2 Heq;
      try (apply lookup_insert_Some in Hlk1 as [[<- <-]|[Hne1 Hlk1]]);
      try (apply lookup_insert_Some in Hlk2 as [[<- <-]|[Hne2 Hlk2]]);
      simpl in *; try done;
      try (by eapply Hinj);
      try match goal with
          | Hc : sessions _ !! _ = Some _ |- _ =>
              by (eapply Hinj; [exact Hc|eassumption|done])
          | Hc : sessions _ !! _ = Some _ |- _ =>
              by (eapply Hinj; [eassumption|exact Hc|done])
          end ].
  all: try match goal with
           | Hk : sessions _ !! _ = Some ?s2, He : next_chan _ = s_resCh ?s2 |- _ =>
               destruct (Hown _ _ Hk) as [? _]; lia
           | Hk : sessions _ !! _ = Some ?s2, He : s_resCh ?s2 = next_chan _ |- _ =>
               destruct (Hown _ _ Hk) as [? _]; lia
           end.
  all: try (intros Hw; try (apply Hrd in Hw); congruence).
  all: unfold writer_received, writer_wrote in *; repeat case_match; simplify_eq; done.
Qed.


Lemma step_sessions_ext l s s' :
  step l s = Some s' → sessions_ext (sessions s) (sessions s').
Proof.
  intros Hs. step_inv Hs.
  all: intros c0 sess0 Hlk; simpl.
  all: try (by exists sess0).
  all: match goal with
       | |- ∃ _, <[?c:=_]> _ !! _ = _ ∧ _ =>
           destruct (decide (c = c0)) as [->|Hne];
           [ rewrite lookup_insert_eq; simplify_eq; eexists; (split; [done|]);
             (split; [done|])
           | rewrite lookup_insert_ne by done; by exists sess0 ]
       end.
  all: simpl; try congruence.
  all: unfold writer_received, writer_wrote in *; repeat case_match; simplify_eq; done.
Qed.

Lemma step_effect l s s' :
  owner_inv s → step l s = Some s' → effect s s'.
Proof.
  intros [Hown _] Hs. step_inv Hs.
  all: try (by apply eff_none).
  all: try (by eapply eff_add).
  all: try (by eapply eff_res).
  all: try (by eapply eff_req).
  all: try (by eapply eff_deliver).
  all: try (eapply eff_rm; [eassumption| |done..];
            first [ congruence
                  | intros Hw;
                    match goal with
                    | Hc : sessions _ !! _ = Some _ |- _ =>
                        destruct (Hown _ _ Hc) as [_ Hrd];
                        specialize (Hrd Hw); congruence
                    end ]).
  all: try (eapply eff_local; [eassumption|done| |done|done];
            simpl; try rewrite decide_False by done; by destruct (dstate s)).
  all: try (eapply eff_panic; [eassumption|eassumption|done..]).
Qed.

Lemma has_chan_ext S S' c ch :
  sessions_ext S S' → has_chan S c ch → has_chan S' c ch.
Proof.
  intros Hext (sess & Hlk & Hch).
  destruct (Hext _ _ Hlk) as (sess' & Hlk' & Hch' & _).
  exists sess'. split; [done|congruence].
Qed.

Lemma registered_ext S S' c ch :
  sessions_ext S S' → registered S c ch → registered S' c ch.
Proof.
  intros Hext (sess & Hlk & Hch & Hw).
  destruct (Hext _ _ Hlk) as (sess' & Hlk' & Hch' & Hw').
  exists sess'. split_and!; [done|congruence|auto].
Qed.

Lemma disp_inv_init : disp_inv initSystem.
Proof.
  split_and!; simpl; intros *; by rewrite ?elem_of_nil, ?lookup_empty.
Qed.

Lemma disp_inv_effect s s' :
  owner_inv s → disp_inv s → effect s s' →
  sessions_ext (sessions s) (sessions s') → disp_inv s'.
Proof.
  intros [Hown Hinj] (P1 & P2 & P3 & T1 & T2 & C1 & K) Heff Hext.
  assert (Hhas : ∀ c ch, has_chan (sessions s) c ch → has_chan (sessions s') c ch)
    by (intros; by eapply has_chan_ext).
  assert (Hregd : ∀ c ch, registered (sessions s) c ch → registered (sessions s') c ch)
    by (intros; by eapply registered_ext).
  assert (Hregs : ∀ ch, (∃ c, registered (sessions s) c ch) →
                        ∃ c, registered (sessions s') c ch)
    by (intros ch [c Hc]; eauto).
  assert (Hidle : pending s = [] →
            ∀ k ch, clients (dstate s) !! k = Some ch → ch ∉ closed (dstate s)).
  { intros Hp0 k ch Hk Hcl. specialize (T2 _ _ Hk Hcl).
    rewrite Hp0 in T2. by apply elem_of_nil in T2. }
  unfold disp_inv.
  destruct Heff as
    [Hd Hp Hc
    |c sess Hlk Hw Hp0 Hp Hd Hc
    |m order Hp0 Hord Hp Hd Hc
    |m Hp0 Hp Hd Hc
    |c sess Hlk Hw Hp0 Hp Hd Hc
    |op rest Hp0 Hop Hex Hp Hc
    |ch m rest Hp0 Hp Hd Hc
    |op rest Hp0 Hex Hp Hd Hc].
  - (* nothing *)
    rewrite Hd, Hp, Hc. split_and!; [done| | | |done| |done].
    + intros ch Hin. destruct (P2 _ Hin) as (c & ? & ?). eauto.
    + intros k ch Hin. destruct (P3 _ _ Hin). eauto.
    + eauto.
    + eauto.
  - (* add *)
    assert (Hopen : s_resCh sess ∉ closed (dstate s)).
    { intros Hcl. destruct (C1 _ Hcl) as (c' & sess' & Hlk' & Hch' & Hw').
      assert (c' = c) as -> by eauto. congruence. }
    rewrite Hd, Hp, Hc. simpl. split_and!; [| | | | | |done].
    + intros ch m. set_unfold. intros Hin. destruct_or!; simplify_eq; eauto.
    + intros ch. set_unfold. intros Hin. destruct_or!; simplify_eq; eauto.
    + intros k ch. set_unfold. intros Hin. destruct_or!; simplify_eq.
      split; [|done]. apply Hhas. by exists sess.
    + eauto.
    + intros k ch Hk Hcl. by destruct (Hidle Hp0 _ _ Hk).
    + eauto.
  - (* response *)
    rewrite Hd, Hp, Hc. split_and!; [| | | | | |done].
    + intros ch m'. unfold processResponse. rewrite elem_of_cons.
      intros [?|(kv & [= -> ->] & Hin)%list_elem_of_fmap]; [done|].
      rewrite Hord in Hin. destruct kv as [k ch'].
      apply elem_of_map_to_list in Hin. by eapply Hidle.
    + intros ch. unfold processResponse. rewrite elem_of_cons.
      intros [?|(kv & ? & Hin)%list_elem_of_fmap]; done.
    + intros k ch. unfold processResponse. rewrite elem_of_cons.
      intros [?|(kv & ? & Hin)%list_elem_of_fmap]; done.
    + eauto.
    + intros k ch Hk Hcl. by destruct (Hidle Hp0 _ _ Hk).
    + eauto.
  - (* request *)
    rewrite Hd, Hp, Hc. unfold processRequest. split_and!; [| | | | | |done].
    + intros ch m'. set_unfold. intros Hin. destruct_or!; simplify_eq; eauto.
    + intros ch. set_unfold. intros Hin. destruct_or!; simplify_eq; eauto.
    + intros k ch. set_unfold. intros Hin. destruct_or!; simplify_eq; eauto.
    + eauto.
    + intros k ch Hk Hcl. by destruct (Hidle Hp0 _ _ Hk).
    + eauto.
  - (* remove *)
    rewrite Hd, Hp, Hc. simpl. split_and!; [| | | | | |done].
    + intros ch m'. set_unfold. intros Hin. destruct_or!; simplify_eq; eauto.
    + intros ch. set_unfold. intros Hin. destruct_or!; simplify_eq.
      exists c. split; [done|]. apply Hregd. by exists sess.
    + intros k ch. set_unfold. intros Hin. destruct_or!; simplify_eq; eauto.
    + eauto.
    + intros k ch Hk Hcl. by destruct (Hidle Hp0 _ _ Hk).
    + eauto.
  - (* a local statement *)
    subst rest.
    assert (Htail : ∀ x, x ∈ pending s' → x ∈ pending s)
      by (intros x ?; rewrite Hp0; by right).
    assert (Hrm : ∀ ch, DClose ch ∈ pending s →
              ∃ c, op = DClose ch ∧
                   pending s' = [DDelete c; DLog (LogClosedConnection c)] ∧
                   registered (sessions s) c ch).
    { intros ch Hin. destruct (P2 ch Hin) as (c & Hpc & Hrc).
      rewrite Hp0 in Hpc. injection Hpc as -> Hrest. eauto. }
    assert (Hnc : ∀ ch, DClose ch ∉ pending s').
    { intros ch Hin. destruct (Hrm ch (Htail _ Hin)) as (c & _ & Hrest & _).
      rewrite Hrest in Hin. set_unfold in Hin. by destruct_or!. }
    assert (Hcl : closed (dstate s') = closed (dstate s) ∨
                  ∃ ch c, op = DClose ch ∧
                    closed (dstate s') = {[ch]} ∪ closed (dstate s) ∧
                    clients (dstate s') = clients (dstate s) ∧
                    pending s' = [DDelete c; DLog (LogClosedConnection c)] ∧
                    registered (sessions s) c ch).
    { destruct op as [e|ch' m'|m'|k ch'|ch'|k]; simpl in Hex.
      1,3,4,6: left; simplify_eq; by rewrite <-Hex.
      - by destruct (Hop ch' m').
      - destruct (decide (ch' ∈ closed (dstate s))); [done|].
        destruct (Hrm ch') as (c & _ & Hrest & Hrc); [rewrite Hp0; by left|].
        right. exists ch', c. simplify_eq. by rewrite <-Hex. }
    assert (Htab : ∀ k ch, clients (dstate s') !! k = Some ch →
              (clients (dstate s) !! k = Some ch ∧ op ≠ DDelete k) ∨
              op = DInsert k ch).
    { intros k ch Hk.
      destruct op as [e|ch' m'|m'|k' ch'|ch'|k']; simpl in Hex.
      - simplify_eq. rewrite <-Hex in Hk. by left.
      - by destruct (Hop ch' m').
      - simplify_eq. rewrite <-Hex in Hk. by left.
      - simplify_eq. rewrite <-Hex in Hk. simpl in Hk.
        apply lookup_insert_Some in Hk as [[<- <-]|[_ Hk]]; [by right|by left].
      - destruct (decide (ch' ∈ closed (dstate s))); [done|].
        simplify_eq. rewrite <-Hex in Hk. by left.
      - simplify_eq. rewrite <-Hex in Hk. simpl in Hk.
        apply lookup_delete_Some in Hk as [Hne Hk].
        left. split; [done|congruence]. }
    rewrite Hc. split_and!; [| | | | | |done].
    + (* sends go to open channels *)
      intros ch m Hin. specialize (P1 _ _ (Htail _ Hin)).
      destruct Hcl as [->|(ch' & c & _ & _ & _ & Hrest & _)]; [done|].
      rewrite Hrest in Hin. set_unfold in Hin. by destruct_or!.
    + intros ch Hin. by destruct (Hnc ch).
    + intros k ch Hin. destruct (P3 _ _ (Htail _ Hin)) as [Hh Ho].
      split; [by apply Hhas|].
      destruct Hcl as [->|(ch' & c & _ & _ & _ & Hrest & _)]; [done|].
      rewrite Hrest in Hin. set_unfold in Hin. by destruct_or!.
    + (* the table holds sessions *)
      intros k ch Hk. apply Hhas.
      destruct (Htab _ _ Hk) as [[Hk' _]| ->]; [by eauto|].
      apply P3. rewrite Hp0. by left.
    + (* a closed channel still in the table is about to be deleted *)
      intros k ch Hk Hch.
      destruct Hcl as [Hsame|(ch' & c & -> & Hcl' & Htab' & Hrest & Hrc)].
      * rewrite Hsame in Hch.
        destruct (Htab _ _ Hk) as [[Hk' Hne]| ->].
        -- specialize (T2 _ _ Hk' Hch). rewrite Hp0 in T2.
           apply elem_of_cons in T2 as [<-|?]; done.
        -- destruct (P3 k ch) as [_ Ho]; [rewrite Hp0; by left|]. done.
      * rewrite Htab' in Hk. rewrite Hcl' in Hch.
        apply elem_of_union in Hch as [->%elem_of_singleton|Hch].
        -- destruct (T1 _ _ Hk) as (sk & Hlk & Hchk).
           destruct Hrc as (sc & Hlc & Hchc & _).
           assert (k = c) as -> by (eapply Hinj; [done..|congruence]).
           rewrite Hrest. by left.
        -- specialize (T2 _ _ Hk Hch). rewrite Hp0 in T2.
           by apply elem_of_cons in T2 as [?|?].
    + (* closed channels belong to registered sessions *)
      intros ch Hch. apply Hregs.
      destruct Hcl as [Hsame|(ch' & c & _ & Hcl' & _ & _ & Hrc)].
      * rewrite Hsame in Hch. eauto.
      * rewrite Hcl' in Hch.
        apply elem_of_union in Hch as [->%elem_of_singleton|Hch]; eauto.
  - (* deliver *)
    subst rest.
    assert (Htail : ∀ x, x ∈ pending s' → x ∈ pending s)
      by (intros x ?; rewrite Hp0; by right).
    rewrite Hd, Hc. split_and!; [| | | | | |done].
    + eauto.
    + intros ch' Hin. destruct (P2 ch' (Htail _ Hin)) as (c & Hpc & _).
      rewrite Hp0 in Hpc. simplify_eq.
    + intros k ch' Hin. destruct (P3 _ _ (Htail _ Hin)). eauto.
    + eauto.
    + intros k ch' Hk Hcl. specialize (T2 _ _ Hk Hcl). rewrite Hp0 in T2.
      by apply elem_of_cons in T2 as [?|?].
    + eauto.
  - (* panic *)
    rewrite Hd, Hp. split_and!.
    + done.
    + intros ch Hin. destruct (P2 _ Hin) as (c & ? & ?). eauto.
    + intros k ch Hin. destruct (P3 _ _ Hin). eauto.
    + eauto.
    + done.
    + eauto.
    + intros _. exists op, rest. done.
Qed.

Lemma safe_inv_step l s s' : safe_inv s → step l s = Some s' → safe_inv s'.
Proof.
  intros [Ho Hd] Hs. split; [by eapply owner_inv_step|].
  eapply disp_inv_effect; [done|done|by eapply step_effect|by eapply step_sessions_ext].
Qed.

(** X10.  In every reachable state the dispatcher is not sending on a closed
    channel, and if the process has panicked, the dispatcher was at the
    [close(client.resCh)] of a remove case for a channel that was closed
    already. *)
Theorem only_double_close_panics (s : System) :
  reachable s →
  (∀ ch m rest, pending s = DSend ch m :: rest → ch ∉ closed (dstate s)) ∧
  (crashed s = true →
     ∃ ch c, pending s = [DClose ch; DDelete c; DLog (LogClosedConnection c)] ∧
             ch ∈ closed (dstate s)).
Proof.
  intros Hr.
  destruct (reachable_invariant safe_inv (conj owner_inv_init disp_inv_init)
              safe_inv_step s Hr) as [_ (P1 & P2 & _ & _ & _ & _ & K)].
  split.
  - intros ch m rest Hp. apply (P1 ch m). rewrite Hp. by left.
  - intros Hc. destruct (K Hc) as (op & rest & Hp & Hex).
    destruct op as [e|ch m|m|k ch|ch|k]; simpl in Hex; try done.
    + destruct (decide (ch ∈ closed (dstate s))); [|done].
      destruct (P1 ch m); [rewrite Hp; by left|done].
    + destruct (decide (ch ∈ closed (dstate s))) as [Hcl|]; [|done].
      destruct (P2 ch) as (c & Hpc & _); [rewrite Hp; by left|]. eauto.
Qed.

(** In the running system a broadcast sends its message once to each
    session in the table: when the dispatcher receives a response, the case
    body it enters holds exactly one send for the channel of every table
    entry, and every send of the body goes to the channel of a table
    entry. *)
Lemma broadcast_step_once_per_session (s s' : System) m order :
  reachable s →
  step (LRes m order) s = Some s' →
  pending s' = processResponse order m ∧
  order ≡ₚ map_to_list (clients (dstate s)) ∧
  (∀ k ch, clients (dstate s) !! k = Some ch → sends_on ch (pending s') = [m]) ∧
  (∀ ch m', DSend ch m' ∈ pending s' →
     m' = m ∧ ∃ k, clients (dstate s) !! k = Some ch).
Proof.
  intros Hr Hs.
  destruct (reachable_invariant safe_inv (conj owner_inv_init disp_inv_init)
              safe_inv_step s Hr) as [[_ Hinj] (_ & _ & _ & T1 & _)].
  unfold step in Hs. destruct (crashed s); [done|].
  destruct (pending s) eqn:Hp; [|done].
  destruct (decide (order ≡ₚ map_to_list (clients (dstate s)))) as [Hperm|]; [|done].
  injection Hs as <-. unfold select_case. cbn [pending case_body].
  split; [done|]. split; [done|]. split.
  - intros k ch Hk. rewrite sends_on_processResponse.
    assert (length (filter (λ kv : positive * positive, kv.2 = ch) order) = 1)
      as ->; [|done].
    assert (Hnd : NoDup (order.*2)).
    { rewrite Hperm. apply NoDup_fmap_2_strong; [|apply NoDup_map_to_list].
      intros [k1 ch1] [k2 ch2] Hin1%elem_of_map_to_list Hin2%elem_of_map_to_list.
      simpl. intros <-.
      destruct (T1 _ _ Hin1) as (s1 & Hl1 & Hc1).
      destruct (T1 _ _ Hin2) as (s2 & Hl2 & Hc2).
      f_equal. eapply Hinj; [done..|congruence]. }
    assert (Hin : ch ∈ order.*2).
    { rewrite Hperm. apply list_elem_of_fmap. exists (k, ch).
      split; [done|]. by apply elem_of_map_to_list. }
    rewrite <-(count_one_of_NoDup _ _ Hnd Hin). clear.
    induction order as [|kv order IH]; [done|].
    rewrite fmap_cons, !filter_cons. simpl.
    destruct (decide (kv.2 = ch)); simpl; by rewrite IH.
  - intros ch m'. unfold processResponse. rewrite elem_of_cons.
    intros [?|(kv & [= -> ->] & Hin)%list_elem_of_fmap]; [done|].
    split; [done|]. rewrite Hperm in Hin. destruct kv as [k ch].
    exists k. by apply elem_of_map_to_list.
Qed.

(** *** A dispatcher waiting for a write loop *)

(** Whatever a write loop receives is what the dispatcher was sending. *)
Lemma step_delivered l s s' :
  step l s = Some s' →
  delivered s' = delivered s ∨
  ∃ c sess ch m rest,
    l = LDeliver c ∧ sessions s !! c = Some sess ∧ s_resCh sess = ch ∧
    s_writer sess = WRecv ∧
    pending s = DSend ch m :: rest ∧ pending s' = rest ∧
    delivered s' = delivered s ++ [(ch, m)].
Proof.
  intros Hs. step_inv Hs; try by left.
  right. eexists _, _, _, _, _. split_and!; done.
Qed.

Lemma blocked_on_step a ch m rest l s s' :
  blocked_on a ch m rest s →
  is_conn_write a l = false →
  step l s = Some s' →
  blocked_on a ch m rest s' ∧ delivered s' = delivered s ∧
  received s' = received s.
Proof.
  intros (Hcr & Hpend & Hopen & (sa & data & Ha & Hch & Hw) & Hown) Hl Hs.
  assert (Hnew : ch ≠ next_chan s).
  { intros ->. destruct (Hown _ _ Ha) as [Hlt _]. lia. }
  step_inv Hs.
  (* the dispatcher cannot hand the message over: its receiver is [a] *)
  4: { match goal with
       | Hc : sessions s !! ?c = Some ?s0, He : s_resCh ?s0 = _ |- _ =>
           destruct (Hown _ _ Hc) as [_ Heq]; specialize (Heq He); subst c
       end. simplify_eq. congruence. }
  all: split; [|done].
  all: unfold blocked_on; simpl; split_and!; try done.
  all: try (intros c' sess' Hlk;
            apply lookup_insert_Some in Hlk as [[<- <-]|[Hne Hlk]]; simpl;
            [ first [ split; [lia|by intros ?]
                    | match goal with
                      | Hc : sessions _ !! _ = Some ?s0
                        |- Pos.lt (s_resCh ?s0) _ ∧ _ =>
                          destruct (Hown _ _ Hc) as [Hlt Hto];
                          split; [lia|exact Hto]
                      end ]
            | destruct (Hown _ _ Hlk) as [Hlt Hto]; split; [lia|exact Hto] ]).
  all: try (match goal with
            | |- ∃ _ _, <[?c:=_]> _ !! ?a' = _ ∧ _ =>
                destruct (decide (c = a')) as [->|Hne];
                [ rewrite lookup_insert_eq; simplify_eq /=;
                  try (eexists _, _; split_and!; [done|done|simpl; eassumption])
                | eexists _, _; rewrite lookup_insert_ne by done; done ]
            | |- _ => by eexists _, _
            end).
  all: try congruence.
  by rewrite bool_decide_eq_false in Hl.
Qed.

Lemma blocked_on_run a ch m rest ls : ∀ s s',
  blocked_on a ch m rest s → stalls a ls → run ls s = Some s' →
  blocked_on a ch m rest s' ∧ delivered s' = delivered s ∧
  received s' = received s.
Proof.
  induction ls as [|l ls IH]; intros s s' Hb Hst Hrun; simpl in Hrun.
  - by simplify_eq.
  - apply Forall_cons in Hst as [Hl Hst].
    destruct (step l s) as [s1|] eqn:Hs; [|done].
    destruct (blocked_on_step _ _ _ _ _ _ _ Hb Hl Hs) as (Hb1 & Hd1 & Hr1).
    destruct (IH _ _ Hb1 Hst Hrun) as (Hb' & Hd' & Hr').
    split; [done|]. split; congruence.
Qed.

Lemma deadlocked_on_step a ch m rest l s s' :
  deadlocked_on a ch m rest s →
  step l s = Some s' →
  deadlocked_on a ch m rest s' ∧ delivered s' = delivered s ∧
  received s' = received s.
Proof.
  intros (Hcr & Hpend & Hopen & (sa & Ha & Hch & Hw) & Hown) Hs.
  assert (Hnew : ch ≠ next_chan s).
  { intros ->. destruct (Hown _ _ Ha) as [Hlt _]. lia. }
  step_inv Hs.
  4: { match goal with
       | Hc : sessions s !! ?c = Some ?s0, He : s_resCh ?s0 = _ |- _ =>
           destruct (Hown _ _ Hc) as [_ Heq]; specialize (Heq He); subst c
       end. simplify_eq. congruence. }
  all: split; [|done].
  all: unfold deadlocked_on; simpl; split_and!; try done.
  all: try (intros c' sess' Hlk;
            apply lookup_insert_Some in Hlk as [[<- <-]|[Hne Hlk]]; simpl;
            [ first [ split; [lia|by intros ?]
                    | match goal with
                      | Hc : sessions _ !! _ = Some ?s0
                        |- Pos.lt (s_resCh ?s0) _ ∧ _ =>
                          destruct (Hown _ _ Hc) as [Hlt Hto];
                          split; [lia|exact Hto]
                      end ]
            | destruct (Hown _ _ Hlk) as [Hlt Hto]; split; [lia|exact Hto] ]).
  all: try (match goal with
            | |- ∃ _, <[?c:=_]> _ !! ?a' = _ ∧ _ =>
                destruct (decide (c = a')) as [->|Hne];
                [ rewrite lookup_insert_eq; simplify_eq /=;
                  try (eexists; split_and!; [done|done|simpl; eassumption])
                | eexists; rewrite lookup_insert_ne by done; done ]
            | |- _ => by eexists
            end).
  all: congruence.
Qed.

(** Once the dispatcher is sending to a session whose write loop is at
    [rmCh <- c], it stays there for ever: no schedule delivers anything or
    lets the dispatcher receive an event again. *)
Lemma deadlocked_on_run a ch m rest ls : ∀ s s',
  deadlocked_on a ch m rest s → run ls s = Some s' →
  deadlocked_on a ch m rest s' ∧ delivered s' = delivered s ∧
  received s' = received s.
Proof.
  induction ls as [|l ls IH]; intros s s' Hb Hrun; simpl in Hrun.
  - by simplify_eq.
  - destruct (step l s) as [s1|] eqn:Hs; [|done].
    destruct (deadlocked_on_step _ _ _ _ _ _ _ Hb Hs) as (Hb1 & Hd1 & Hr1).
    destruct (IH _ _ Hb1 Hrun) as (Hb' & Hd' & Hr').
    split; [done|]. split; congruence.
Qed.
(** In a reachable state, a dispatcher that is sending to a session whose
    write loop is inside [conn.Write] is [blocked_on] that session. *)
Lemma reachable_blocked_on a sess data m rest s :
  reachable s → crashed s = false →
  sessions s !! a = Some sess → s_writer sess = WInConnWrite data →
  pending s = DSend (s_resCh sess) m :: rest →
  blocked_on a (s_resCh sess) m rest s.
Proof.
  intros Hr Hc Ha Hw Hp.
  destruct (reachable_invariant safe_inv (conj owner_inv_init disp_inv_init)
              safe_inv_step s Hr) as [[Hown Hinj] (P1 & _)].
  split_and!; [done|done| | |].
  - apply (P1 _ m). rewrite Hp. by left.
  - by exists sess, data.
  - intros c sess' Hlk. destruct (Hown _ _ Hlk) as [Hlt _].
    split; [done|]. intros Heq. by eapply Hinj.
Qed.

(** C4, as the code has it.  A connection cannot corrupt what the others
    are delivered, but it can block it.  While the dispatcher is sending
    to a session whose [conn.Write] has not returned, then, whatever the
    other goroutines do, the dispatcher stays at that send: no session is
    delivered anything and the dispatcher receives no event.  And in any
    step, what a write loop receives is the message the dispatcher was
    sending, on the channel it was sending it on. *)
Theorem stalled_session_blocks_dispatcher a sess data m rest ls s s' :
  reachable s →
  sessions s !! a = Some sess →
  s_writer sess = WInConnWrite data →
  pending s = DSend (s_resCh sess) m :: rest →
  stalls a ls →
  run ls s = Some s' →
  pending s' = DSend (s_resCh sess) m :: rest ∧
  delivered s' = delivered s ∧
  received s' = received s ∧
  (∀ l s1 s2, step l s1 = Some s2 →
     delivered s2 = delivered s1 ∨
     ∃ c sess' ch' m' rest',
       l = LDeliver c ∧ sessions s1 !! c = Some sess' ∧ s_resCh sess' = ch' ∧
       s_writer sess' = WRecv ∧
       pending s1 = DSend ch' m' :: rest' ∧ pending s2 = rest' ∧
       delivered s2 = delivered s1 ++ [(ch', m')]).
Proof.
  intros Hr Ha Hw Hp Hst Hrun.
  assert (pending s' = DSend (s_resCh sess) m :: rest ∧
          delivered s' = delivered s ∧ received s' = received s)
    as (? & ? & ?); [|split_and!; [done..|apply step_delivered]].
  destruct (crashed s) eqn:Hc.
  - (* after a panic nothing steps *)
    destruct ls as [|l ls]; simpl in Hrun; [by simplify_eq|].
    unfold step in Hrun. by rewrite Hc in Hrun.
  - pose proof (reachable_blocked_on _ _ _ _ _ _ Hr Hc Ha Hw Hp) as Hb.
    destruct (blocked_on_run _ _ _ _ _ _ _ Hb Hst Hrun) as ((_ & Hp' & _) & Hd & Hr').
    done.
Qed.
End system.

(** ** Concrete runs *)

(** C2.  A channel is closed twice.  In [double_remove_schedule] the write
    loop of session 7 fails on its socket and signals removal; the
    dispatcher closes channel 1 and deletes the entry; the read loop then
    fails and signals removal too, and the dispatcher is at
    [close(client.resCh)] for channel 1 again: the process panics.  The
    events the dispatcher received are add, remove, remove. *)
Theorem double_remove_panics :
  ∃ s, run (H := toy_codec) double_remove_schedule initSystem = Some s ∧
       crashed s = true ∧
       pending s = [DClose 1; DDelete 7; DLog (LogClosedConnection 7)] ∧
       1%positive ∈ closed (dstate s) ∧
       received s = [RcvAdd 7; RcvRm 7; RcvRm 7].
Proof.
  eexists. split; [by vm_compute|].
  split_and!; [done|done| |done].
  apply (bool_decide_unpack _). by vm_compute.
Qed.

Lemma request_state_reachable : reachable request_state.
Proof. exists request_schedule. by vm_compute. Qed.

Lemma add_before_any_request_witness :
  reachable request_state ∧
  received request_state = [RcvAdd 3; RcvReq 3 (mkMessage "REQ" ["X"])] ∧
  ∀ pre c m post,
    received request_state = pre ++ RcvReq c m :: post → RcvAdd c ∈ pre.
Proof.
  pose proof (add_before_any_request (H := toy_codec) request_state
                request_state_reachable) as (_ & Hord & _).
  split; [exact request_state_reachable|]. split; [by vm_compute|exact Hord].
Defined.

Lemma greeting_comes_first_witness :
  reachable request_state ∧
  received_on 1 (delivered request_state) = [makeWelcomeMsg; makeFeaturesMsg] ∧
  (received_on 1 (delivered request_state) = [] ∨
   received_on 1 (delivered request_state) = [makeWelcomeMsg] ∨
   ∃ rest, received_on 1 (delivered request_state)
           = makeWelcomeMsg :: makeFeaturesMsg :: rest).
Proof.
  pose proof (greeting_comes_first (H := toy_codec) request_state 1%positive
                request_state_reachable) as (Hfirst & _).
  split; [exact request_state_reachable|]. split; [by vm_compute|exact Hfirst].
Defined.

(** Registration precedes a session's requests, but removal does not end
    them: here the dispatcher receives a request of session 3 after it has
    removed it. *)
Lemma request_after_removal :
  ∃ s, run (H := toy_codec) late_request_schedule initSystem = Some s ∧
       crashed s = false ∧
       clients (dstate s) !! 3%positive = None ∧
       received s = [RcvAdd 3; RcvRes (NewMessage "RES"); RcvRm 3;
                     RcvReq 3 (mkMessage "REQ" ["X"])].
Proof. eexists. split; [by vm_compute|]. split_and!; by vm_compute. Qed.

Lemma stall_state_reachable : reachable stall_state.
Proof. exists stall_schedule. by vm_compute. Qed.

(** In [stall_state] the dispatcher is sending RES to session 11, whose
    write loop is inside [conn.Write]; session 12 is next. *)
Lemma stall_state_blocked :
  blocked_on 11 1 (NewMessage "RES") [DSend 2 (NewMessage "RES")] stall_state.
Proof.
  unfold blocked_on. split_and!.
  - by vm_compute.
  - by vm_compute.
  - apply (bool_decide_unpack _). by vm_compute.
  - exists (@mkSession toy_codec 1%positive tt (WInConnWrite []) (RLoop [])), [].
    split_and!; by vm_compute.
  - assert (map_Forall
              (λ c sess, Pos.lt (s_resCh sess) (next_chan stall_state) ∧
                         (s_resCh sess = 1%positive → c = 11%positive))
              (sessions stall_state)) as Hall
      by (apply (bool_decide_unpack _); by vm_compute).
    exact Hall.
Qed.

(** C4 as stated fails.  In [stall_state] session 12's write loop is
    receiving and RES is on its way to it, yet in no continuation in which
    session 11's socket write does not return is RES delivered to 12. *)
Lemma stalled_writer_blocks_other_sessions :
  ¬ broadcast_isolated (H := toy_codec).
Proof.
  intros Hiso.
  destruct (Hiso stall_state 11%positive 12%positive
              (@mkSession toy_codec 2%positive tt WRecv (RLoop []))
              (NewMessage "RES"))
    as (ls & s' & pre & Hst & Hrun & Hdel).
  - apply stall_state_reachable.
  - done.
  - by vm_compute.
  - done.
  - apply (bool_decide_unpack _). by vm_compute.
  - destruct (blocked_on_run _ _ _ _ _ _ _ stall_state_blocked Hst Hrun)
      as (_ & Hsame & _).
    rewrite Hsame in Hdel. apply (f_equal length) in Hdel.
    rewrite !length_app in Hdel. simpl in Hdel. lia.
Qed.

Lemma stalled_session_blocks_dispatcher_witness :
  let ls := [LAccept 13; LReadBytes 12 (ReadLine [x52; x45; x0a]%byte)] in
  let sess := @mkSession toy_codec 1%positive tt (WInConnWrite []) (RLoop []) in
  reachable stall_state ∧
  sessions stall_state !! 11%positive = Some sess ∧
  pending stall_state
    = [DSend 1 (NewMessage "RES"); DSend 2 (NewMessage "RES")] ∧
  stalls 11 ls ∧
  run (ls ++ [LReq 12]) stall_state = None ∧
  run (ls ++ [LDeliver 12]) stall_state = None ∧
  ∃ s', run ls stall_state = Some s' ∧
        pending s' = [DSend 1 (NewMessage "RES"); DSend 2 (NewMessage "RES")] ∧
        delivered s' = delivered stall_state.
Proof.
  intros ls sess.
  assert (Hst : stalls 11 ls) by (repeat constructor).
  assert (Ha : sessions stall_state !! 11%positive = Some sess) by (by vm_compute).
  assert (Hp : pending stall_state
               = [DSend 1 (NewMessage "RES"); DSend 2 (NewMessage "RES")])
    by (by vm_compute).
  split; [exact stall_state_reachable|]. split; [exact Ha|]. split; [exact Hp|].
  split; [exact Hst|]. split; [by vm_compute|]. split; [by vm_compute|].
  eexists. split; [by vm_compute|].
  pose proof (stalled_session_blocks_dispatcher (H := toy_codec)
                11%positive sess [] (NewMessage "RES")
                [DSend 2%positive (NewMessage "RES")] ls stall_state _
                stall_state_reachable Ha eq_refl Hp Hst eq_refl) as (Hp' & Hd & _).
  split; [exact Hp'|exact Hd].
Defined.

(** A session whose first socket write fails: its write loop goes to
    [rmCh <- c] while the dispatcher is still at
    [client.resCh <- *makeFeaturesMsg()].  Each waits for the other; from
    then on the dispatcher serves nobody. *)
Lemma first_write_failure_deadlocks :
  reachable deadlock_state ∧
  deadlocked_on 11 1 makeFeaturesMsg [DLog (LogNewConnection 11)] deadlock_state ∧
  ∀ ls s', run ls deadlock_state = Some s' →
    pending s' = [DSend 1 makeFeaturesMsg; DLog (LogNewConnection 11)] ∧
    delivered s' = delivered deadlock_state ∧
    received s' = received deadlock_state.
Proof.
  assert (Hd : deadlocked_on 11 1 makeFeaturesMsg [DLog (LogNewConnection 11)]
                 deadlock_state).
  { unfold deadlocked_on. split_and!.
    - by vm_compute.
    - by vm_compute.
    - apply (bool_decide_unpack _). by vm_compute.
    - exists (@mkSession toy_codec 1%positive tt WSendRm (RLoop [])).
      split_and!; by vm_compute.
    - assert (map_Forall
                (λ c sess, Pos.lt (s_resCh sess) (next_chan deadlock_state) ∧
                           (s_resCh sess = 1%positive → c = 11%positive))
                (sessions deadlock_state)) as Hall
        by (apply (bool_decide_unpack _); by vm_compute).
      exact Hall. }
  split; [exists deadlock_schedule; by vm_compute|]. split; [done|].
  intros ls s' Hrun.
  destruct (deadlocked_on_run _ _ _ _ _ _ _ Hd Hrun) as ((_ & Hp & _) & ? & ?).
  done.
Qed.

(** ** More on the goroutines together *)

Section system_more.
Context `{Codec}.

Lemma step_dispatch l s s' : step l s = Some s' → dispatch s s'.
Proof.
  intros Hs. step_inv Hs.
  all: try (by apply dsp_none).
  all: try (by eapply (dsp_select _ _ (RcvAdd _));
              [ done
              | eexists; split_and!;
                [eassumption|done|simpl; apply lookup_insert_eq|done]
              | done.. ]).
  all: try (by eapply (dsp_select _ _ (RcvRes _)); [done|eauto|done..]).
  all: try (by eapply (dsp_select _ _ (RcvReq _ _)); [done|eauto|done..]).
  all: try (by eapply (dsp_select _ _ (RcvRm _)); [done|eauto|done..]).
  all: try (by eapply dsp_deliver).
  all: try (eapply dsp_panic; [eassumption|eassumption|done..]).
  all: eapply dsp_local;
    [ eassumption | done
    | simpl; try rewrite decide_False by done; by destruct (dstate s)
    | done | done | done
    | simpl; by rewrite ?app_nil_r
    | done ].
Qed.

Lemma requests_received_app r1 r2 :
  requests_received (r1 ++ r2) = requests_received r1 ++ requests_received r2.
Proof. apply omap_app. Qed.

Lemma responses_received_app r1 r2 :
  responses_received (r1 ++ r2) = responses_received r1 ++ responses_received r2.
Proof. apply omap_app. Qed.

Lemma downstream_step l s s' :
  downstream s ++ forwards (pending s) = requests_received (received s) →
  step l s = Some s' →
  downstream s' ++ forwards (pending s') = requests_received (received s').
Proof.
  intros Hinv Hs. apply step_dispatch in Hs.
  destruct Hs as [Hd Hp Hr Hdl Hdw _
                 |rcv Hp Hbody Hd Hr Hdl Hdw _
                 |op rest Hp Hop Hex Hp' Hr Hdl Hdw _
                 |c sess ch m rest Hp Hc Hch Hw Hp' Hd Hr Hdl Hdw _
                 |op rest Hp Hex Hp' Hd Hr Hdl Hdw _].
  - by rewrite Hdw, Hp, Hr.
  - rewrite Hp in Hinv. simpl in Hinv. rewrite app_nil_r in Hinv.
    rewrite Hdw, Hr, requests_received_app, <-Hinv. f_equal.
    destruct rcv as [c|c m|c|m].
    + destruct Hbody as (sess & _ & _ & _ & ->). done.
    + by rewrite Hbody.
    + destruct Hbody as (sess & _ & ->). done.
    + destruct Hbody as (order & _ & ->). apply forwards_processResponse.
  - rewrite Hdw, Hp', Hr, <-Hinv, Hp, <-app_assoc. f_equal.
    by rewrite <-forwards_app.
  - by rewrite Hdw, Hp', Hr, <-Hinv, Hp.
  - by rewrite Hdw, Hp', Hr.
Qed.

(** X11.  Requests reach the connector.  In every reachable state, what
    the dispatcher has sent on [cReqCh], followed by what it is about to
    send there in the current case body, is exactly the requests it has
    received from the read loops, in the order received.  So the connector
    is sent every request once, in order, and nothing else; and whenever
    the dispatcher is back at [select], every request received so far has
    been sent on. *)
Theorem requests_reach_connector_in_order (s : System) :
  reachable s →
  downstream s ++ forwards (pending s) = requests_received (received s) ∧
  downstream s `prefix_of` requests_received (received s) ∧
  (pending s = [] → downstream s = requests_received (received s)).
Proof.
  intros Hr.
  assert (Hinv : downstream s ++ forwards (pending s)
                 = requests_received (received s)).
  { revert s Hr. apply reachable_invariant; [done|].
    intros l s s'. apply downstream_step. }
  split; [done|]. split.
  - rewrite <-Hinv. by apply prefix_app_r.
  - intros Hp. rewrite Hp in Hinv. simpl in Hinv. by rewrite app_nil_r in Hinv.
Qed.

(** *** Who is delivered what *)

Lemma table_inj s k1 k2 ch :
  safe_inv s →
  clients (dstate s) !! k1 = Some ch → clients (dstate s) !! k2 = Some ch →
  k1 = k2.
Proof.
  intros [[_ Hinj] (_ & _ & _ & T1 & _)] H1 H2.
  destruct (T1 _ _ H1) as (s1 & Hl1 & Hc1).
  destruct (T1 _ _ H2) as (s2 & Hl2 & Hc2).
  eapply Hinj; [done..|congruence].
Qed.

(** A broadcast over a table in which no two connections share a channel
    sends once on the channel of each entry. *)
Lemma broadcast_sends_once (tab : gmap positive positive) order k ch m :
  order ≡ₚ map_to_list tab →
  (∀ k1 k2 ch', tab !! k1 = Some ch' → tab !! k2 = Some ch' → k1 = k2) →
  tab !! k = Some ch →
  sends_on ch (processResponse order m) = [m].
Proof.
  intros Hperm Hinj Hk. rewrite sends_on_processResponse, length_filter_snd.
  rewrite count_one_of_NoDup; [done| |].
  - rewrite Hperm. apply NoDup_fmap_2_strong; [|apply NoDup_map_to_list].
    intros [k1 ch1] [k2 ch2] Hin1%elem_of_map_to_list Hin2%elem_of_map_to_list.
    simpl. intros <-. f_equal. by eapply Hinj.
  - rewrite Hperm. apply list_elem_of_fmap. exists (k, ch).
    split; [done|]. by apply elem_of_map_to_list.
Qed.

Lemma carried_deliver ch ch' m d p :
  received_on ch (d ++ [(ch', m)]) ++ sends_on ch p
  = received_on ch d ++ sends_on ch (DSend ch' m :: p).
Proof.
  rewrite received_on_app, <-app_assoc. f_equal.
  unfold received_on, sends_on. simpl. by destruct (decide (ch' = ch)).
Qed.

Lemma delivery_inv_init : delivery_inv initSystem.
Proof.
  split.
  - intros ch. by unfold carried.
  - intros c ch [Ht|Hi]; simpl in *.
    + by rewrite lookup_empty in Ht.
    + by apply elem_of_nil in Hi.
Qed.

Lemma delivery_inv_step l s s' :
  safe_inv s → delivery_inv s → step l s = Some s' → delivery_inv s'.
Proof.
  intros Hsafe [Hreg Hlive] Hs.
  pose proof (step_sessions_ext _ _ _ Hs) as Hext.
  pose proof Hsafe as [[Hown Hinj] (P1 & P2 & P3 & T1 & T2 & T3 & K)].
  assert (Hhas : ∀ c ch, live c ch s → has_chan (sessions s) c ch).
  { intros c ch [Ht|Hi]; [by apply T1|by apply P3]. }
  assert (Hlr : ∀ c ch, live c ch s → registered (sessions s) c ch).
  { intros c ch Hl. destruct (Hlive _ _ Hl) as (pre & post & _ & _ & Hc).
    destruct (Hreg ch) as [c' Hc']; [by rewrite Hc|].
    destruct (Hhas _ _ Hl) as (sess & Hlk & Hch).
    pose proof Hc' as (sess' & Hlk' & Hch' & Hw').
    assert (c' = c) as -> by (eapply Hinj; [done|done|congruence]). done. }
  assert (Hkeep : ∀ x,
            (∀ ch, carried ch s' = carried ch s) →
            (∀ c ch, live c ch s' → live c ch s) →
            received s' = received s ++ x →
            (∀ c, RcvAdd c ∉ x) → responses_received x = [] →
            delivery_inv s').
  { intros x Hcar Hl' Hr' Hx Hx'. split.
    - intros ch Hne. rewrite Hcar in Hne. destruct (Hreg _ Hne) as [c Hc].
      exists c. by eapply registered_ext.
    - intros c ch Hl%Hl'. destruct (Hlive _ _ Hl) as (pre & post & Hr & Hnin & Hc).
      exists pre, (post ++ x). rewrite Hr', Hr, <-app_assoc. split; [done|].
      split.
      + rewrite elem_of_app. intros [?|?]; [done|by eapply Hx].
      + by rewrite Hcar, Hc, responses_received_app, Hx', app_nil_r. }
  apply step_dispatch in Hs.
  destruct Hs as [Hd Hp Hr Hdl Hdw _
                 |rcv Hp Hbody Hd Hr Hdl Hdw _
                 |op rest Hp Hop Hex Hp' Hr Hdl Hdw _
                 |c0 sess0 ch0 m rest Hp Hc0 Hch0 Hw0 Hp' Hd Hr Hdl Hdw _
                 |op rest Hp Hex Hp' Hd Hr Hdl Hdw _].
  - apply (Hkeep []).
    + intros ch. unfold carried. by rewrite Hdl, Hp.
    + intros c ch. unfold live. by rewrite Hd, Hp.
    + by rewrite app_nil_r.
    + intros c. apply not_elem_of_nil.
    + done.
  - destruct rcv as [c0|c0 m|c0|m].
    + (* add *)
      destruct Hbody as (sess0 & Hc0 & Hw0 & Hc0' & Hbody).
      assert (Hfresh : ∀ c ch, registered (sessions s) c ch → ch ≠ s_resCh sess0).
      { intros c ch (sess & Hlk & Hch & Hw) ->.
        assert (c = c0) as -> by (by eapply Hinj). congruence. }
      assert (Hcar : ∀ ch, ch ≠ s_resCh sess0 → carried ch s' = carried ch s).
      { intros ch Hne. unfold carried. rewrite Hdl, Hp, Hbody.
        unfold sends_on. simpl. by rewrite !decide_False by done. }
      assert (Hnew : received_on (s_resCh sess0) (delivered s) = []).
      { destruct (received_on (s_resCh sess0) (delivered s)) eqn:Hn; [done|].
        destruct (Hreg (s_resCh sess0)) as [c Hc].
        - unfold carried. by rewrite Hn.
        - by destruct (Hfresh _ _ Hc). }
      split.
      * intros ch Hne. destruct (decide (ch = s_resCh sess0)) as [->|Hch].
        -- exists c0. eexists. split; [exact Hc0'|]. done.
        -- rewrite Hcar in Hne by done. destruct (Hreg _ Hne) as [c Hc].
           exists c. by eapply registered_ext.
      * intros c ch [Ht|Hi].
        -- rewrite Hd in Ht. assert (Hl : live c ch s) by (by left).
           pose proof (Hfresh _ _ (Hlr _ _ Hl)) as Hne.
           destruct (Hlive _ _ Hl) as (pre & post & Hrs & Hnin & Hc).
           exists pre, (post ++ [RcvAdd c0]).
           rewrite Hr, Hrs, <-app_assoc. split; [done|]. split.
           ++ rewrite elem_of_app, list_elem_of_singleton.
              intros [?|[= ->]]; [done|].
              destruct (Hlr _ _ Hl) as (sess & Hlk & _ & Hw). congruence.
           ++ rewrite Hcar, Hc, responses_received_app by done.
              simpl. by rewrite app_nil_r.
        -- rewrite Hbody in Hi. simpl in Hi. set_unfold in Hi.
           destruct_or!; simplify_eq.
           exists (received s), []. split; [done|].
           split; [apply not_elem_of_nil|].
           unfold carried. rewrite Hdl, Hnew, Hbody.
           unfold sends_on. simpl. by rewrite !decide_True by done.
    + (* request *)
      apply (Hkeep [RcvReq c0 m]); [| |done| |done].
      * intros ch. unfold carried. by rewrite Hdl, Hp, Hbody.
      * intros c ch [Ht|Hi]; [left; by rewrite <-Hd|].
        rewrite Hbody in Hi. unfold processRequest in Hi. set_unfold in Hi.
        destruct_or!; simplify_eq.
      * intros c Hin. set_unfold in Hin. destruct_or!; simplify_eq.
    + (* remove *)
      destruct Hbody as (sess0 & Hc0 & Hbody).
      apply (Hkeep [RcvRm c0]); [| |done| |done].
      * intros ch. unfold carried. by rewrite Hdl, Hp, Hbody.
      * intros c ch [Ht|Hi]; [left; by rewrite <-Hd|].
        rewrite Hbody in Hi. simpl in Hi. set_unfold in Hi.
        destruct_or!; simplify_eq.
      * intros c Hin. set_unfold in Hin. destruct_or!; simplify_eq.
    + (* response *)
      destruct Hbody as (order & Hperm & Hbody).
      assert (Hcar : ∀ ch, carried ch s'
                = carried ch s ++ sends_on ch (processResponse order m)).
      { intros ch. unfold carried. rewrite Hdl, Hp, Hbody. simpl.
        by rewrite app_nil_r. }
      assert (Hl' : ∀ c ch, live c ch s' → clients (dstate s) !! c = Some ch).
      { intros c ch [Ht|Hi]; [by rewrite <-Hd|].
        rewrite Hbody in Hi. by apply DInsert_not_in_broadcast in Hi. }
      split.
      * intros ch Hne. rewrite Hcar in Hne.
        destruct (decide (carried ch s = [])) as [Hnil|Hnn].
        -- rewrite Hnil in Hne. simpl in Hne.
           destruct (decide (ch ∈ order.*2)) as [Hin|Hnin].
           ++ apply list_elem_of_fmap in Hin as ([k ch'] & -> & Hin).
              rewrite Hperm in Hin. apply elem_of_map_to_list in Hin.
              assert (Hl : live k ch' s) by (by left).
              exists k. eapply registered_ext; [done|]. by apply Hlr.
           ++ destruct Hne. apply sends_on_broadcast_absent.
              intros kv Hin <-. apply Hnin. by apply list_elem_of_fmap_2.
        -- destruct (Hreg _ Hnn) as [c Hc]. exists c. by eapply registered_ext.
      * intros c ch Ht%Hl'. assert (Hl : live c ch s) by (by left).
        destruct (Hlive _ _ Hl) as (pre & post & Hrs & Hnin & Hc).
        exists pre, (post ++ [RcvRes m]).
        rewrite Hr, Hrs, <-app_assoc. split; [done|]. split.
        -- rewrite elem_of_app, list_elem_of_singleton. by intros [?|?].
        -- rewrite Hcar, Hc, responses_received_app.
           by rewrite (broadcast_sends_once (clients (dstate s)) order c ch m Hperm
                         (λ k1 k2 ch', table_inj s k1 k2 ch' Hsafe) Ht).
  - (* a statement of the dispatcher's own *)
    apply (Hkeep []).
    + intros ch. unfold carried. rewrite Hdl, Hp', Hp.
      rewrite sends_on_cons_other; [done|]. intros m0. apply Hop.
    + intros c ch [Ht|Hi]; [|right; rewrite Hp; right; by rewrite <-Hp'].
      destruct (exec_op_state _ _ _ Hex) as [Htab _]. rewrite Htab in Ht.
      destruct op as [e|ch' m|m|k ch'|ch'|k]; try (by left).
      * apply lookup_insert_Some in Ht as [[<- <-]|[_ Ht]]; [|by left].
        right. rewrite Hp. by left.
      * apply lookup_delete_Some in Ht as [_ Ht]. by left.
    + by rewrite app_nil_r.
    + intros c. apply not_elem_of_nil.
    + done.
  - (* a write loop receives *)
    apply (Hkeep []).
    + intros ch. unfold carried. rewrite Hdl, Hp', Hp. apply carried_deliver.
    + intros c ch [Ht|Hi];
        [left; by rewrite <-Hd|right; rewrite Hp; right; by rewrite <-Hp'].
    + by rewrite app_nil_r.
    + intros c. apply not_elem_of_nil.
    + done.
  - (* panic *)
    apply (Hkeep []).
    + intros ch. unfold carried. by rewrite Hdl, Hp'.
    + intros c ch. unfold live. by rewrite Hd, Hp'.
    + by rewrite app_nil_r.
    + intros c. apply not_elem_of_nil.
    + done.
Qed.

(** X12.  Who is delivered what.  In every reachable state, for every
    connection in the dispatcher's table: what the write loop of its
    channel has received, followed by what the dispatcher is about to send
    it in the current case body, is the greeting, the capabilities message,
    and then exactly the responses that the dispatcher has received since
    it received that connection's add event, each once and in the order
    received.  A session in the table misses no response, gets none twice,
    and gets nothing else: no request and no response from before its
    registration. *)
Theorem registered_session_gets_every_response (s : System) (c : Conn) (ch : Chan) :
  reachable s →
  clients (dstate s) !! c = Some ch →
  ∃ pre post,
    received s = pre ++ RcvAdd c :: post ∧ (RcvAdd c ∉ post) ∧
    received_on ch (delivered s) ++ sends_on ch (pending s)
    = makeWelcomeMsg :: makeFeaturesMsg :: responses_received post.
Proof.
  intros Hr Ht.
  assert (Hinv : safe_inv s ∧ delivery_inv s).
  { clear Ht. revert s Hr. apply reachable_invariant.
    - split; [exact (conj owner_inv_init disp_inv_init)|apply delivery_inv_init].
    - intros l s s' [Hsafe Hdel] Hs. split.
      + by eapply safe_inv_step.
      + by eapply delivery_inv_step. }
  destruct Hinv as [_ [_ Hlive]]. apply Hlive. by left.
Qed.

(** *** A write loop that fails while the dispatcher is sending to it *)

(** In a reachable state, a dispatcher that is sending to a session whose
    write loop is at [rmCh <- c] is [deadlocked_on] that session. *)
Lemma reachable_deadlocked_on a sess m rest s :
  reachable s →
  sessions s !! a = Some sess → s_writer sess = WSendRm →
  pending s = DSend (s_resCh sess) m :: rest →
  deadlocked_on a (s_resCh sess) m rest s.
Proof.
  intros Hr Ha Hw Hp.
  destruct (reachable_invariant safe_inv (conj owner_inv_init disp_inv_init)
              safe_inv_step s Hr) as [[Hown Hinj] (P1 & _ & _ & _ & _ & _ & K)].
  assert (Hopen : s_resCh sess ∉ closed (dstate s)).
  { apply (P1 _ m). rewrite Hp. by left. }
  split_and!; [|done|done| |].
  - destruct (crashed s) eqn:Hc; [|done].
    destruct (K eq_refl) as (op & rest' & Hp' & Hex).
    rewrite Hp in Hp'. simplify_eq. simpl in Hex.
    by rewrite decide_False in Hex.
  - by exists sess.
  - intros c sess' Hlk. destruct (Hown _ _ Hlk) as [Hlt _].
    split; [done|]. intros Heq. by eapply Hinj.
Qed.

(** X13.  A socket write that fails while the dispatcher is sending to
    the same session stops the dispatcher for good.  The write loop, after
    the failed [conn.Write], is at [rmCh <- c], which only the dispatcher at
    [select] can receive; the dispatcher is at [resCh <- msg] for that
    session, which only its write loop can receive.  Whatever the other
    goroutines do from then on, the dispatcher stays at that send: no
    session is delivered anything, and no add, request, response or removal
    is received; the process has not panicked. *)
Theorem failed_write_during_send_deadlocks a sess m rest ls s s' :
  reachable s →
  sessions s !! a = Some sess →
  s_writer sess = WSendRm →
  pending s = DSend (s_resCh sess) m :: rest →
  run ls s = Some s' →
  crashed s' = false ∧
  pending s' = DSend (s_resCh sess) m :: rest ∧
  (∃ sess', sessions s' !! a = Some sess' ∧ s_writer sess' = WSendRm) ∧
  delivered s' = delivered s ∧
  received s' = received s.
Proof.
  intros Hr Ha Hw Hp Hrun.
  pose proof (reachable_deadlocked_on _ _ _ _ _ Hr Ha Hw Hp) as Hd.
  destruct (deadlocked_on_run _ _ _ _ _ _ _ Hd Hrun)
    as ((Hc & Hp' & _ & (sess' & Ha' & _ & Hw') & _) & Hdl & Hrc).
  split_and!; [done|done|by exists sess'|done|done].
Qed.

(** *** How often a connection is added and removed *)

Lemma times_received_snoc x r y :
  times_received x (r ++ [y])
  = times_received x r + (if decide (y = x) then 1 else 0).
Proof.
  unfold times_received. rewrite filter_app, length_app. f_equal.
  rewrite filter_cons. by destruct (decide (y = x)).
Qed.

(** Where a session of the state after a step comes from. *)
Lemma step_sessions_back l s s' c sess' :
  step l s = Some s' → sessions s' !! c = Some sess' →
  (∃ sess, sessions s !! c = Some sess ∧ s_resCh sess' = s_resCh sess ∧
           (writer_registered (s_writer sess')
            = writer_registered (s_writer sess) ∨
            received s' = received s ++ [RcvAdd c])) ∨
  (sessions s !! c = None ∧ s_resCh sess' = next_chan s ∧
   s_writer sess' = WRegister ∧
   dstate s' = dstate s ∧ pending s' = pending s ∧ received s' = received s).
Proof.
  intros Hs Hlk. step_inv Hs.
  all: try (left; exists sess'; split_and!; [done|done|by left]).
  all: apply lookup_insert_Some in Hlk as [[<- <-]|[Hne Hlk]];
    [|left; exists sess'; split_and!; [done|done|by left]].
  all: try (by right).
  all: left; eexists; split; [eassumption|]; split; [done|]; simpl.
  all: try (by right).
  all: left.
  all: unfold writer_received, writer_wrote in *;
    repeat case_match; simplify_eq; simpl; try done.
  all: match goal with Hw : s_writer _ = _ |- _ => by rewrite Hw end.
Qed.

Lemma DClose_in_case_body ch order ev :
  DClose ch ∈ case_body order ev → ∃ c, ev = EvRm c ∧ resCh c = ch.
Proof.
  destruct ev as [m|m|c|c]; simpl.
  - unfold processResponse.
    intros [?|(kv & ? & _)%list_elem_of_fmap]%elem_of_cons; done.
  - unfold processRequest. intros Hin. set_unfold in Hin.
    destruct_or!; simplify_eq.
  - intros Hin. set_unfold in Hin. destruct_or!; simplify_eq.
  - intros Hin. set_unfold in Hin. destruct_or!; simplify_eq. by exists c.
Qed.

Lemma closes_eq ch s s' :
  (ch ∈ closed (dstate s') ↔ ch ∈ closed (dstate s)) →
  (DClose ch ∈ pending s' ↔ DClose ch ∈ pending s) →
  closes ch s' = closes ch s.
Proof. unfold closes. intros H1 H2. repeat case_decide; tauto. Qed.

Lemma count_inv_init : count_inv initSystem.
Proof. intros c. simpl. by rewrite lookup_empty. Qed.

Lemma snoc_neq_self {A} (l : list A) x : l ≠ l ++ [x].
Proof.
  intros Heq. apply (f_equal length) in Heq. rewrite length_app in Heq.
  simpl in Heq. lia.
Qed.

Lemma count_inv_step l s s' :
  safe_inv s → count_inv s → step l s = Some s' → count_inv s'.
Proof.
  intros Hsafe Hcount Hs.
  pose proof Hsafe as [[Hown Hinj] (P1 & P2 & P3 & T1 & T2 & T3 & K)].
  pose proof (step_sessions_ext _ _ _ Hs) as Hext.
  pose proof (step_dispatch _ _ _ Hs) as Hd.
  assert (Hfresh : closes (next_chan s) s = 0).
  { unfold closes. rewrite !decide_False; [done| |].
    - intros Hin. destruct (P2 _ Hin) as (c' & _ & sess & Hlk & Hch & _).
      destruct (Hown _ _ Hlk) as [Hlt _]. lia.
    - intros Hin. destruct (T3 _ Hin) as (c' & sess & Hlk & Hch & _).
      destruct (Hown _ _ Hlk) as [Hlt _]. lia. }
  intros c. destruct (sessions s' !! c) as [sess'|] eqn:Hc'.
  - destruct (step_sessions_back _ _ _ _ _ Hs Hc')
      as [(sess & Hc & Hch & Hw)|(Hc & Hch & Hw & Hd' & Hp' & Hr')].
    + pose proof (Hcount c) as Hcnt. rewrite Hc in Hcnt.
      destruct Hcnt as [Hadd Hrm]. rewrite Hch.
      destruct Hd as [Hd Hp Hr Hdl Hdw _
                     |rcv Hp Hbody Hd Hr Hdl Hdw _
                     |op rest Hp Hop Hex Hp' Hr Hdl Hdw _
                     |c0 sess0 ch0 m rest Hp Hc0 Hch0 Hw0 Hp' Hd Hr Hdl Hdw _
                     |op rest Hp Hex Hp' Hd Hr Hdl Hdw _].
      * rewrite Hr. split.
        -- destruct Hw as [->|Hw]; [done|].
           rewrite Hr in Hw. by apply snoc_neq_self in Hw.
        -- rewrite Hrm. symmetry. apply closes_eq; by rewrite ?Hd, ?Hp.
      * rewrite Hr, !times_received_snoc.
        destruct rcv as [c1|c1 m|c1|m].
        -- destruct Hbody as (sess1 & Hc1 & Hw1 & Hc1' & Hbody). split.
           ++ destruct (decide (RcvAdd c1 = RcvAdd c)) as [[= ->]|Hne].
              ** simplify_eq. simpl. rewrite Hadd, Hw1. done.
              ** destruct Hw as [->|Hw]; [lia|].
                 rewrite Hr in Hw. apply app_inj_tail in Hw as [_ ?]. done.
           ++ rewrite decide_False by done. rewrite Hrm, Nat.add_0_r.
              symmetry. apply closes_eq; [by rewrite Hd|].
              rewrite Hp, Hbody. split; [|by intros ?%elem_of_nil].
              by intros (? & [=] & _)%DClose_in_case_body.
        -- split.
           ++ rewrite decide_False by done.
              destruct Hw as [->|Hw]; [lia|].
              rewrite Hr in Hw. apply app_inj_tail in Hw as [_ ?]. done.
           ++ rewrite decide_False by done. rewrite Hrm, Nat.add_0_r.
              symmetry. apply closes_eq; [by rewrite Hd|].
              rewrite Hp, Hbody. split; [|by intros ?%elem_of_nil].
              by intros (? & [=] & _)%(DClose_in_case_body _ [] (EvReq m)).
        -- destruct Hbody as (sess1 & Hc1 & Hbody). split.
           ++ rewrite decide_False by done.
              destruct Hw as [->|Hw]; [lia|].
              rewrite Hr in Hw. apply app_inj_tail in Hw as [_ ?]. done.
           ++ rewrite Hrm. unfold closes. rewrite Hd, Hp, Hbody. simpl.
              rewrite Nat.add_0_r.
              destruct (decide (RcvRm c1 = RcvRm c)) as [[= ->]|Hne].
              ** simplify_eq.
                 rewrite (decide_True (P := DClose _ ∈ _)); [done|].
                 by left.
              ** rewrite (decide_False (P := DClose _ ∈ _)); [done|].
                 set_unfold. intros [[= Heq]|[?|[?|[]]]]; try done.
                 destruct Hne. f_equal. by eapply Hinj.
        -- destruct Hbody as (order & Hperm & Hbody). split.
           ++ rewrite decide_False by done.
              destruct Hw as [->|Hw]; [lia|].
              rewrite Hr in Hw. apply app_inj_tail in Hw as [_ ?]. done.
           ++ rewrite decide_False by done. rewrite Hrm, Nat.add_0_r.
              symmetry. apply closes_eq; [by rewrite Hd|].
              rewrite Hp, Hbody. split; [|by intros ?%elem_of_nil].
              by intros (? & [=] & _)%(DClose_in_case_body _ order (EvRes m)).
      * rewrite Hr. split.
        -- destruct Hw as [->|Hw]; [done|].
           rewrite Hr in Hw. by apply snoc_neq_self in Hw.
        -- rewrite Hrm. destruct (exec_op_state _ _ _ Hex) as [_ Hcl].
           destruct (decide (op = DClose (s_resCh sess))) as [->|Hne].
           ++ simpl in Hex. destruct (decide (s_resCh sess ∈ closed (dstate s)));
                [done|].
              destruct (P2 (s_resCh sess)) as (c1 & Hshape & _);
                [rewrite Hp; by left|].
              rewrite Hp in Hshape. injection Hshape as Hrest.
              unfold closes. rewrite Hcl, Hp, Hp', Hrest.
              rewrite (decide_True (P := _ ∈ {[_]} ∪ _))
                by (apply elem_of_union; left; by apply elem_of_singleton).
              rewrite (decide_False (P := _ ∈ closed _)) by done.
              rewrite (decide_True (P := _ ∈ DClose _ :: _)) by (by left).
              rewrite (decide_False (P := DClose _ ∈ [_; _])); [done|].
              intros Hin. set_unfold in Hin. destruct_or!; simplify_eq.
           ++ symmetry. apply closes_eq.
              ** rewrite Hcl. destruct op; try done.
                 set_unfold. split; [|by right]. intros [Heq|?]; [|done].
                 destruct Hne. congruence.
              ** rewrite Hp, Hp', elem_of_cons. split; [by right|].
                 intros [Heq|?]; [|done]. by destruct Hne.
      * rewrite Hr. split.
        -- destruct Hw as [->|Hw]; [done|].
           rewrite Hr in Hw. by apply snoc_neq_self in Hw.
        -- rewrite Hrm. symmetry. apply closes_eq; [by rewrite Hd|].
           rewrite Hp, Hp', elem_of_cons. split; [by right|].
           by intros [?|?].
      * rewrite Hr. split.
        -- destruct Hw as [->|Hw]; [done|].
           rewrite Hr in Hw. by apply snoc_neq_self in Hw.
        -- rewrite Hrm. symmetry. apply closes_eq; by rewrite ?Hd, ?Hp'.
    + pose proof (Hcount c) as Hcnt. rewrite Hc in Hcnt.
      destruct Hcnt as [Hadd Hrm]. rewrite Hr', Hadd, Hrm, Hw, Hch.
      split; [done|]. symmetry. rewrite <-Hfresh.
      apply closes_eq; by rewrite ?Hd', ?Hp'.
  - assert (Hc : sessions s !! c = None).
    { destruct (sessions s !! c) as [sess|] eqn:Hc; [|done].
      destruct (Hext _ _ Hc) as (sess' & Hlk & _). congruence. }
    pose proof (Hcount c) as Hcnt. rewrite Hc in Hcnt.
    destruct Hcnt as [Hadd Hrm].
    destruct Hd as [Hd Hp Hr Hdl Hdw _
                   |rcv Hp Hbody Hd Hr Hdl Hdw _
                   |op rest Hp Hop Hex Hp' Hr Hdl Hdw _
                   |c0 sess0 ch0 m rest Hp Hc0 Hch0 Hw0 Hp' Hd Hr Hdl Hdw _
                   |op rest Hp Hex Hp' Hd Hr Hdl Hdw _];
      rewrite Hr; try done.
    rewrite !times_received_snoc, Hadd, Hrm.
    destruct rcv as [c1|c1 m|c1|m].
    + destruct Hbody as (sess1 & Hc1 & _).
      rewrite !decide_False; [done|done|]. intros [= ->]. congruence.
    + by rewrite !decide_False.
    + destruct Hbody as (sess1 & Hc1 & _).
      rewrite !decide_False; [done| |done]. intros [= ->]. congruence.
    + by rewrite !decide_False.
Qed.

(** X14.  A connection is added once and removed at most twice.  In
    every reachable state the dispatcher has received the add event of a
    connection at most once and its remove event at most twice; and it has
    received the remove event twice exactly when it is at the
    [close(client.resCh)] of that connection's remove case with the channel
    closed already, the statement that panics. *)
Theorem second_removal_is_fatal (s : System) (c : Conn) :
  reachable s →
  times_received (RcvAdd c) (received s) ≤ 1 ∧
  times_received (RcvRm c) (received s) ≤ 2 ∧
  (times_received (RcvRm c) (received s) = 2 ↔
   ∃ ch, pending s = [DClose ch; DDelete c; DLog (LogClosedConnection c)] ∧
         ch ∈ closed (dstate s)).
Proof.
  intros Hr.
  assert (Hinv : safe_inv s ∧ count_inv s).
  { revert s Hr. apply reachable_invariant.
    - split; [exact (conj owner_inv_init disp_inv_init)|apply count_inv_init].
    - intros l s s' [Hsafe Hcnt] Hs. split.
      + by eapply safe_inv_step.
      + by eapply count_inv_step. }
  destruct Hinv as [[[Hown Hinj] (P1 & P2 & _)] Hcnt].
  pose proof (Hcnt c) as Hc.
  destruct (sessions s !! c) as [sess|] eqn:Hlk.
  - destruct Hc as [-> ->]. split_and!.
    + destruct (s_writer sess); simpl; lia.
    + unfold closes. repeat case_decide; lia.
    + split.
      * unfold closes. intros Htwo.
        destruct (decide (s_resCh sess ∈ closed (dstate s))) as [Hcl|];
          destruct (decide (DClose (s_resCh sess) ∈ pending s)) as [Hin|];
          simpl in Htwo; try lia.
        destruct (P2 _ Hin) as (c' & Hshape & sess' & Hlk' & Hch' & _).
        assert (c' = c) as -> by (by eapply Hinj).
        by exists (s_resCh sess).
      * intros (ch & Hshape & Hcl).
        destruct (P2 ch) as (c' & Hshape' & sess' & Hlk' & Hch' & _);
          [rewrite Hshape; by left|].
        rewrite Hshape in Hshape'. simplify_eq.
        unfold closes. rewrite !decide_True; [done| |done].
        rewrite Hshape. by left.
  - destruct Hc as [-> ->]. split_and!; [lia|lia|]. split; [done|].
    intros (ch & Hshape & Hcl).
    destruct (P2 ch) as (c' & Hshape' & sess' & Hlk' & _);
      [rewrite Hshape; by left|].
    rewrite Hshape in Hshape'. simplify_eq.
Qed.

(** *** What a panic takes *)

Lemma fail_at_frame c sess r lg r' lg' :
  fail_at c sess r lg →
  times_received (RcvRm c) r' = times_received (RcvRm c) r →
  (∀ e, e ∈ lg → e ∈ lg') →
  fail_at c sess r' lg'.
Proof.
  intros (Hrd & Hwr & Hsp & Hle & Heq) Ht Hlg. unfold fail_at. rewrite Ht.
  split_and!; [| |done|done|].
  - destruct (s_reader sess) as [|ops|]; [done| |].
    + intros Hin. destruct (Hrd Hin) as [?|[? [e He]]]; [by left|].
      right. split; [done|]. exists e. by apply Hlg.
    + destruct Hrd as [e He]. exists e. by apply Hlg.
  - intros Hw. destruct (Hwr Hw) as [e He]. exists e. by apply Hlg.
  - intros Hx. destruct (Heq Hx) as [? [e He]]. split; [done|].
    exists e. by apply Hlg.
Qed.

Lemma fail_inv_init : fail_inv initSystem.
Proof. intros c sess Hlk. simpl in Hlk. by rewrite lookup_empty in Hlk. Qed.

Lemma fail_inv_step l s s' :
  safe_inv s → count_inv s → fail_inv s → step l s = Some s' → fail_inv s'.
Proof.
  intros [[Hown _] _] Hcnt Hinv Hs. step_inv Hs.
  all: intros c0 sess0 Hlk; simpl in *.
  all: try (apply lookup_insert_Some in Hlk as [[<- <-]|[Hne Hlk]]).
  all: try (eapply fail_at_frame; [by eapply Hinv| |];
            [ first [ done
                    | rewrite times_received_snoc, decide_False by congruence; lia ]
            | first [ done | intros e0 He0; apply elem_of_app; by left ] ]).
  1: { (* accept *)
    pose proof (Hcnt c) as Hc0.
    match goal with Hn : sessions s !! c = None |- _ => rewrite Hn in Hc0 end.
    destruct Hc0 as [_ Hz]. unfold fail_at. simpl. rewrite Hz.
    split_and!; [done|done|done|lia|lia]. }
  all: match goal with
       | Hc : sessions _ !! ?c = Some ?s0 |- fail_at ?c _ _ ?lg =>
           assert (Hold : fail_at c s0 (received s) lg)
             by (eapply fail_at_frame;
                 [ by eapply Hinv | done
                 | first [done | intros ? ?; apply elem_of_app; by left] ]);
           destruct (Hown _ _ Hc) as [_ Hreg0];
           destruct Hold as (Hrd & Hwr & Hsp & Hle & Heq)
       end.
  all: clear Hown Hcnt Hinv.
  all: unfold fail_at; simpl; rewrite ?times_received_snoc.
  all: try rewrite decide_False by done.
  all: try rewrite decide_True by done.
  all: rewrite ?Nat.add_0_r.
  - (* addCh <- client *)
    match goal with Hw : s_writer _ = WRegister |- _ =>
      rewrite (Hreg0 Hw) in *; rewrite Hw in * end.
    simpl in *. split_and!; [done|done|done|lia|].
    intros Ht. by destruct (Heq Ht) as [[=] _].
  - (* go client.Read *)
    match goal with Hw : s_writer _ = WSpawnRead |- _ =>
      rewrite (Hsp Hw) in *; rewrite Hw in * end.
    simpl in *. split_and!; [by intros ?%elem_of_nil|done|done|lia|].
    intros Ht. by destruct (Heq Ht) as [[=] _].
  - (* reqCh <- *msg *)
    match goal with Hr : s_reader _ = RLoop _ |- _ => rewrite Hr in * end.
    simpl in *. split_and!; [|done| |lia|done].
    + intros Hin. destruct Hrd as [[e [=]]|[[=] _]]. by right.
    + intros Hw. by specialize (Hsp Hw).
  - (* rmCh <- c, from the read loop *)
    match goal with Hr : s_reader _ = RLoop _ |- _ => rewrite Hr in * end.
    simpl in *. split_and!; [| done | |lia|].
    + destruct Hrd as [[e [=]]|[_ Hlog]]; [by left|done].
    + intros Hw. by specialize (Hsp Hw).
    + intros Ht. apply Heq. lia.
  - (* rmCh <- c, from the write loop *)
    match goal with Hw : s_writer _ = WSendRm |- _ => rewrite Hw in * end.
    assert (times_received (RcvRm c) (received s)
            ≠ reader_done (s_reader s0) + 1)
      by (intros Ht; by destruct (Heq Ht) as [[=] _]).
    split_and!; [done|done|done|lia|]. intros _. split; [done|]. by apply Hwr.
  - (* msg, more := <-resCh gives a message *)
    match goal with Hw : s_writer _ = WRecv |- _ => rewrite Hw in * end.
    unfold writer_received in *.
    match goal with Hp : match Pack ?m with _ => _ end = _ |- _ =>
      destruct (Pack m); simplify_eq end.
    + split_and!; [done|done|done|done|].
      intros Ht. by destruct (Heq Ht) as [[=] _].
    + split_and!; [done|done|done|done|].
      intros Ht. by destruct (Heq Ht) as [[=] _].
  - (* msg, more := <-resCh finds the channel closed *)
    match goal with Hw : s_writer _ = WRecv |- _ => rewrite Hw in * end.
    split_and!; [done|done|done|done|].
    intros Ht. by destruct (Heq Ht) as [[=] _].
  - (* conn.Write returns *)
    match goal with Hw : s_writer _ = WInConnWrite _ |- _ => rewrite Hw in * end.
    unfold writer_wrote in *.
    match goal with Hp : match ?r with _ => _ end = (_, _) |- _ =>
      destruct r; simplify_eq end.
    + split_and!; [done| |done|done|].
      * intros _. eexists. apply elem_of_app. right. by left.
      * intros Ht. by destruct (Heq Ht) as [[=] _].
    + split_and!; [done|done|done|done|].
      intros Ht. by destruct (Heq Ht) as [[=] _].
  - (* ReadBytes returns *)
    match goal with Hr : s_reader _ = RLoop _ |- _ => rewrite Hr in * end.
    simpl in *. split_and!; [|done| |lia|done].
    + match goal with Hi : Read_iter _ _ ?r = _ |- _ =>
        destruct r as [line|e]; simpl in Hi end.
      * repeat case_match; simplify_eq.
        -- by intros [?|[]%elem_of_nil]%elem_of_cons.
        -- by intros ?%RRemove_not_in_range_lines.
      * simplify_eq. intros _. left. by exists e.
    + intros Hw. by specialize (Hsp Hw).
  - (* the read loop logs *)
    match goal with Hr : s_reader _ = RLoop _ |- _ => rewrite Hr in * end.
    simpl in *. split_and!; [|done| |lia|done].
    + intros Hin. destruct Hrd as [[e0 [= -> ->]]|[[=] _]]; [by right|].
      right. split; [done|]. exists e0. apply elem_of_app. right. by left.
    + intros Hw. by specialize (Hsp Hw).
Qed.

Lemma reachable_counts (s : System) :
  reachable s → safe_inv s ∧ count_inv s ∧ fail_inv s.
Proof.
  revert s. apply reachable_invariant.
  - split_and!; [exact (conj owner_inv_init disp_inv_init)
                |apply count_inv_init|apply fail_inv_init].
  - intros l s s' (Hsafe & Hcnt & Hfail) Hs. split_and!.
    + by eapply safe_inv_step.
    + by eapply count_inv_step.
    + by eapply fail_inv_step.
Qed.

(** X15.  What a panic takes.  Whenever the process has panicked, there
    is a connection whose removal the dispatcher has received twice, and
    the log holds both a write error and a read error for that connection:
    its write loop logged a failed [conn.Write] before it sent the client on
    [rmCh], and its read loop a failed [ReadBytes] before it did the same.
    So as long as no socket write has failed, nothing the clients or the
    connector do makes the process panic. *)
Theorem panic_takes_a_write_and_a_read_error (s : System) :
  reachable s →
  crashed s = true →
  ∃ c e1 e2,
    times_received (RcvRm c) (received s) = 2 ∧
    LogWriteError c e1 ∈ syslog s ∧
    LogReadError c e2 ∈ syslog s.
Proof.
  intros Hr Hcr.
  destruct (reachable_counts s Hr)
    as ([_ (P1 & P2 & _ & _ & _ & _ & K)] & Hcnt & Hfail).
  destruct (K Hcr) as (op & rest & Hp & Hex).
  assert (∃ ch, op = DClose ch ∧ ch ∈ closed (dstate s)) as (ch & -> & Hcl).
  { destruct op as [e|ch m|m|k ch|ch|k]; simpl in Hex; try done.
    - destruct (decide (ch ∈ closed (dstate s))); [|done].
      destruct (P1 ch m); [rewrite Hp; by left|done].
    - destruct (decide (ch ∈ closed (dstate s))); [|done]. by exists ch. }
  destruct (P2 ch) as (c & Hshape & sess & Hlk & Hch & _); [rewrite Hp; by left|].
  pose proof (Hcnt c) as Hc. rewrite Hlk in Hc. destruct Hc as [_ Hrm].
  assert (Htwo : times_received (RcvRm c) (received s) = 2).
  { rewrite Hrm. unfold closes. rewrite Hch, !decide_True; [done| |done].
    rewrite Hp. by left. }
  destruct (Hfail _ _ Hlk) as (Hrd & _ & _ & Hle & Heq).
  rewrite Htwo in Hle, Heq.
  destruct (s_reader sess) as [|ops|]; simpl in *; try lia.
  destruct Hrd as [e2 He2]. destruct Heq as [_ [e1 He1]]; [done|].
  by exists c, e1, e2.
Qed.

(** *** A connection that goes away while it is idle *)

Lemma run_invariant_labels (P : System → Prop) (Q : Label → Prop) :
  (∀ l s s', Q l → P s → step l s = Some s' → P s') →
  ∀ ls s s', Forall Q ls → P s → run ls s = Some s' → P s'.
Proof.
  intros Hstep. induction ls as [|l ls IH]; intros s s' HQ HP Hrun; simpl in Hrun.
  - by simplify_eq.
  - apply Forall_cons in HQ as [Hl HQ].
    destruct (step l s) as [s1|] eqn:Hs; [|done]. eauto.
Qed.

Lemma reader_removals_of_step a l s s' :
  write_fails_on a l = false →
  count_inv s → fail_inv s → reader_removals_of a s →
  step l s = Some s' → reader_removals_of a s'.
Proof.
  intros Hl Hcnt Hfail Hinv Hs. step_inv Hs.
  all: intros sess0 Hlk; simpl in *.
  all: try (apply lookup_insert_Some in Hlk as [[<- <-]|[Hne Hlk]]).
  all: try (destruct (Hinv _ Hlk) as [Hw0 Ht0]; split; [done|];
            first [ done
                  | rewrite times_received_snoc, decide_False by congruence;
                    lia ]).
  1: { (* accept *)
    pose proof (Hcnt c) as Hc0.
    match goal with Hn : sessions s !! c = None |- _ => rewrite Hn in Hc0 end.
    destruct Hc0 as [_ Hz]. simpl. rewrite Hz. split; [done|lia]. }
  all: match goal with
       | Hc : sessions _ !! ?c = Some ?s0 |- _ =>
           destruct (Hinv _ Hc) as [Hw0 Ht0];
           destruct (Hfail _ _ Hc) as (_ & _ & Hsp & _ & _)
       end.
  all: rewrite ?times_received_snoc.
  all: try rewrite decide_False by done.
  all: try rewrite decide_True by done.
  all: rewrite ?Nat.add_0_r.
  all: try match goal with
           | Hw : s_writer _ = WSpawnRead |- _ => rewrite (Hsp Hw) in *
           end.
  all: try match goal with
           | Hr : s_reader _ = _ |- _ => rewrite Hr in *
           end.
  all: simpl in *.
  all: try (split; [done|lia]).
  - (* msg, more := <-resCh gives a message *)
    unfold writer_received in *.
    match goal with Hp : match Pack ?m with _ => _ end = _ |- _ =>
      destruct (Pack m); simplify_eq end; done.
  - (* conn.Write returns an error *)
    by rewrite bool_decide_eq_true_2 in Hl.
Qed.

(** X16.  A connection that goes away while it is idle.  Take a reachable
    state in which the dispatcher is at [select], and a session whose read
    loop is in [ReadBytes] and whose write loop is at its receive.  If
    [ReadBytes] now fails, the removal can go through: there is a schedule
    in which the read loop logs the error and sends the client on [rmCh];
    the dispatcher closes the channel, deletes the table entry and logs;
    the write loop finds the channel closed and returns without sending on
    [rmCh]; nothing panics, the dispatcher is back at [select] and has
    received one removal.  And however the system runs on from that state,
    as long as no [conn.Write] of this connection returns an error the
    dispatcher receives the removal of this connection at most once, and a
    panic, if there is one, is over another connection, whose removal was
    received twice. *)
Theorem read_error_disconnects_cleanly (s : System) (c : Conn) (sess : Session)
    (e : Err) :
  reachable s →
  crashed s = false →
  pending s = [] →
  sessions s !! c = Some sess →
  s_reader sess = RLoop [] →
  s_writer sess = WRecv →
  (∃ s',
     run [LReadBytes c (ReadFail e); LReadLog c; LRmReader c;
          LDisp; LDisp; LDisp; LRecvClosed c] s = Some s' ∧
     crashed s' = false ∧
     pending s' = [] ∧
     clients (dstate s') = delete c (clients (dstate s)) ∧
     closed (dstate s') = {[s_resCh sess]} ∪ closed (dstate s) ∧
     sessions s' !! c = Some (mkSession (s_resCh sess) (s_tok sess) WDone RDone) ∧
     received s' = received s ++ [RcvRm c] ∧
     delivered s' = delivered s ∧
     syslog s' = syslog s ++ [LogReadError c e; LogClosedConnection c]) ∧
  (∀ ls s',
     Forall (λ l, write_fails_on c l = false) ls →
     run ls s = Some s' →
     times_received (RcvRm c) (received s') ≤ 1 ∧
     (crashed s' = true →
      ∃ c', c' ≠ c ∧ times_received (RcvRm c') (received s') = 2)).
Proof.
  intros Hr Hcr Hp Hlk Hrd Hw.
  destruct (reachable_counts s Hr) as (Hsafe & Hcnt & Hfail).
  assert (Hz : times_received (RcvRm c) (received s) = 0).
  { destruct (Hfail _ _ Hlk) as (_ & _ & _ & Hle & Heq).
    rewrite Hrd, Hw in *. simpl in *.
    destruct (decide (times_received (RcvRm c) (received s) = 1)) as [Ht|];
      [by destruct (Heq Ht) as [[=] _]|lia]. }
  assert (Hopen : s_resCh sess ∉ closed (dstate s)).
  { pose proof (Hcnt c) as Hc. rewrite Hlk in Hc. destruct Hc as [_ Hrm].
    rewrite Hz in Hrm. unfold closes in Hrm. intros Hin.
    rewrite decide_True in Hrm by done. lia. }
  split.
  { eexists. split.
    { cbn [run]. unfold step at 1. rewrite Hcr, Hlk, Hrd. cbn.
      do 6 (unfold step at 1; simpl;
            rewrite ?Hcr, ?lookup_insert_eq, ?Hp, ?Hw; simpl;
            try rewrite decide_False by done;
            try rewrite decide_True
              by (apply elem_of_union; left; by apply elem_of_singleton);
            simpl).
      rewrite Hw. reflexivity. }
    cbn. rewrite lookup_insert_eq. split_and!; try done.
    by rewrite <-app_assoc. }
  intros ls s' Hls Hrun.
  assert (Hinv : (safe_inv s' ∧ count_inv s' ∧ fail_inv s')
                 ∧ reader_removals_of c s').
  { revert Hrun.
    apply (run_invariant_labels
             (λ s, (safe_inv s ∧ count_inv s ∧ fail_inv s)
                   ∧ reader_removals_of c s)
             (λ l, write_fails_on c l = false)); [|done|].
    - intros l s1 s2 Hl [(Hsafe1 & Hcnt1 & Hfail1) Hrr] Hs. split_and!.
      + by eapply safe_inv_step.
      + by eapply count_inv_step.
      + by eapply fail_inv_step.
      + by eapply reader_removals_of_step.
    - split; [done|]. intros sess0 Hlk0. rewrite Hlk in Hlk0.
      injection Hlk0 as <-. rewrite Hw, Hz. split; [done|lia]. }
  destruct Hinv as [([_ (P1 & P2 & _ & _ & _ & _ & K)] & Hcnt' & _) Hrr].
  assert (Hle : times_received (RcvRm c) (received s') ≤ 1).
  { pose proof (Hcnt' c) as Hc. destruct (sessions s' !! c) as [sess'|] eqn:Hlk'.
    - destruct (Hrr _ Hlk') as [_ Hle].
      destruct (s_reader sess'); simpl in Hle; lia.
    - destruct Hc as [_ ->]. lia. }
  split; [done|].
  intros Hcr'. destruct (K Hcr') as (op & rest & Hp' & Hex).
  assert (∃ ch, op = DClose ch ∧ ch ∈ closed (dstate s')) as (ch & -> & Hcl).
  { destruct op as [e0|ch m|m|k ch|ch|k]; simpl in Hex; try done.
    - destruct (decide (ch ∈ closed (dstate s'))); [|done].
      destruct (P1 ch m); [rewrite Hp'; by left|done].
    - destruct (decide (ch ∈ closed (dstate s'))); [|done]. by exists ch. }
  destruct (P2 ch) as (c' & Hshape & sess' & Hlk' & Hch & _);
    [rewrite Hp'; by left|].
  pose proof (Hcnt' c') as Hc. rewrite Hlk' in Hc. destruct Hc as [_ Hrm].
  assert (Htwo : times_received (RcvRm c') (received s') = 2).
  { rewrite Hrm. unfold closes. rewrite Hch, !decide_True; [done| |done].
    rewrite Hp'. by left. }
  exists c'. split; [|done]. intros ->. lia.
Qed.

(** *** Without a failing socket write *)

Lemma reader_removals_step l s s' :
  write_fails l = false →
  count_inv s → fail_inv s → reader_removals s →
  step l s = Some s' → reader_removals s'.
Proof.
  intros Hl Hcnt Hfail Hinv Hs. step_inv Hs.
  all: intros c0 sess0 Hlk; simpl in *.
  all: try (apply lookup_insert_Some in Hlk as [[<- <-]|[Hne Hlk]]).
  all: try (destruct (Hinv _ _ Hlk) as [Hw0 Ht0]; split; [done|];
            first [ done
                  | rewrite times_received_snoc, decide_False by congruence;
                    lia ]).
  1: { (* accept *)
    pose proof (Hcnt c) as Hc0.
    match goal with Hn : sessions s !! c = None |- _ => rewrite Hn in Hc0 end.
    destruct Hc0 as [_ Hz]. simpl. rewrite Hz. split; [done|lia]. }
  all: match goal with
       | Hc : sessions _ !! ?c = Some ?s0 |- _ =>
           destruct (Hinv _ _ Hc) as [Hw0 Ht0];
           destruct (Hfail _ _ Hc) as (_ & _ & Hsp & _ & _)
       end.
  all: rewrite ?times_received_snoc.
  all: try rewrite decide_False by done.
  all: try rewrite decide_True by done.
  all: rewrite ?Nat.add_0_r.
  all: try match goal with
           | Hw : s_writer _ = WSpawnRead |- _ => rewrite (Hsp Hw) in *
           end.
  all: try match goal with
           | Hr : s_reader _ = _ |- _ => rewrite Hr in *
           end.
  all: simpl in *.
  all: try (split; [done|lia]).
  (* msg, more := <-resCh gives a message *)
  unfold writer_received in *.
  match goal with Hp : match Pack ?m with _ => _ end = _ |- _ =>
    destruct (Pack m); simplify_eq end; done.
Qed.

(** X17.  Without a failing socket write there is no panic.  In every
    run of the system in which no [conn.Write] returns an error, whatever
    the clients send, however their reads fail, whatever the connector
    broadcasts and however the goroutines interleave, the process does not
    panic. *)
Theorem no_write_failure_no_panic (ls : list Label) (s : System) :
  Forall (λ l, write_fails l = false) ls →
  run ls initSystem = Some s →
  crashed s = false.
Proof.
  intros Hls Hrun.
  assert (Hinv : (safe_inv s ∧ count_inv s ∧ fail_inv s) ∧ reader_removals s).
  { revert Hrun.
    apply (run_invariant_labels
             (λ s, (safe_inv s ∧ count_inv s ∧ fail_inv s) ∧ reader_removals s)
             (λ l, write_fails l = false)); [|done|].
    - intros l s1 s2 Hl [(Hsafe & Hcnt & Hfail) Hrr] Hs. split_and!.
      + by eapply safe_inv_step.
      + by eapply count_inv_step.
      + by eapply fail_inv_step.
      + by eapply reader_removals_step.
    - split_and!; [exact (conj owner_inv_init disp_inv_init)
                  |apply count_inv_init|apply fail_inv_init|].
      intros c sess Hlk. simpl in Hlk. by rewrite lookup_empty in Hlk. }
  destruct Hinv as [([_ (P1 & P2 & _ & _ & _ & _ & K)] & Hcnt & _) Hrr].
  destruct (crashed s) eqn:Hcr; [|done].
  destruct (K eq_refl) as (op & rest & Hp & Hex).
  assert (∃ ch, op = DClose ch ∧ ch ∈ closed (dstate s)) as (ch & -> & Hcl).
  { destruct op as [e|ch m|m|k ch|ch|k]; simpl in Hex; try done.
    - destruct (decide (ch ∈ closed (dstate s))); [|done].
      destruct (P1 ch m); [rewrite Hp; by left|done].
    - destruct (decide (ch ∈ closed (dstate s))); [|done]. by exists ch. }
  destruct (P2 ch) as (c & Hshape & sess & Hlk & Hch & _); [rewrite Hp; by left|].
  pose proof (Hcnt c) as Hc. rewrite Hlk in Hc. destruct Hc as [_ Hrm].
  destruct (Hrr _ _ Hlk) as [_ Hle].
  rewrite Hrm in Hle. unfold closes in Hle.
  rewrite Hch, !decide_True in Hle; [| |done].
  - destruct (s_reader sess); simpl in Hle; lia.
  - rewrite Hp. by left.
Qed.

(** *** The dispatcher of the system and [handleChannels] *)

Lemma run_ops_snoc done : ∀ st st1 op st2,
  run_ops st done = (done, Some st1) →
  exec_op st1 op = Some st2 →
  run_ops st (done ++ [op]) = (done ++ [op], Some st2).
Proof.
  induction done as [|d done IH]; intros st st1 op st2 Hrun Hex; simpl in *.
  - simplify_eq. by rewrite Hex.
  - destruct (exec_op st d) as [st'|]; [|done].
    destruct (run_ops st' done) as [tr fin] eqn:Hrun'. simplify_eq.
    by rewrite (IH _ _ _ _ Hrun' Hex).
Qed.

Lemma run_sends_open order m : ∀ st tr st',
  run_ops st ((λ kv : positive * positive, DSend kv.2 m) <$> order) = (tr, Some st') →
  ∀ kv, kv ∈ order → kv.2 ∉ closed st.
Proof.
  induction order as [|kv0 order IH]; intros st tr st' Hrun kv Hin.
  - by apply elem_of_nil in Hin.
  - rewrite fmap_cons in Hrun. simpl in Hrun.
    destruct (decide (kv0.2 ∈ closed st)); [done|].
    destruct (run_ops st _) as [tr1 fin1] eqn:Hrun1. simplify_eq.
    apply elem_of_cons in Hin as [->|Hin]; [done|]. eauto.
Qed.

(** A case body that completes for one order of [range] completes for
    every order, with the same state. *)
Lemma case_body_any_order st order order' ev st' :
  order ≡ₚ order' →
  run_ops st (case_body order ev) = (case_body order ev, Some st') →
  run_ops st (case_body order' ev) = (case_body order' ev, Some st').
Proof.
  intros Hperm Hrun. destruct ev as [m|m|c|c]; try done.
  cbn [case_body] in *. unfold processResponse in Hrun. simpl in Hrun.
  destruct (run_ops st _) as [tr1 fin1] eqn:Hrun1. simplify_eq.
  pose proof (run_ops_sends_state _ _ _ _ _ Hrun1) as ->.
  apply run_broadcast. intros kv Hin. rewrite <-Hperm in Hin.
  by eapply run_sends_open.
Qed.

Lemma link_at_select evs st order ev :
  link_at evs [] st →
  order ≡ₚ map_to_list (clients st) →
  link_at (evs ++ [ev]) (case_body order ev) st.
Proof.
  intros Hlink Hord. simpl in Hlink.
  assert (∃ op rest, case_body order ev = op :: rest) as (op & rest & Hbody).
  { destruct ev; simpl; eauto. }
  unfold link_at. rewrite Hbody.
  exists evs, ev, st, order, []. by rewrite Hbody.
Qed.

Lemma link_at_op evs op rest st st' :
  link_at evs (op :: rest) st →
  exec_op st op = Some st' →
  link_at evs rest st'.
Proof.
  intros (pre & ev & st0 & order & done & -> & Hpre & Hord & Hbody & Hrun) Hex.
  pose proof (run_ops_snoc _ _ _ _ _ Hrun Hex) as Hrun'.
  destruct rest as [|op' rest].
  - simpl. rewrite <-Hbody in Hrun'.
    apply (case_body_any_order _ _ (map_to_list (clients st0))) in Hrun'; [|done].
    unfold handleChannels in *. rewrite handleChannels_from_app.
    destruct (handleChannels_from initDState pre) as [tr [st1|]]; [|done].
    simpl in Hpre. simplify_eq. cbn [handleChannels_from].
    by rewrite Hrun'.
  - exists pre, ev, st0, order, (done ++ [op]).
    split_and!; [done|done|done| |done].
    by rewrite <-app_assoc.
Qed.

Lemma link_inv_init : link_inv initSystem.
Proof.
  split; [|done]. intros c [Hin|Hin]; by apply elem_of_nil in Hin.
Qed.

Lemma link_inv_step l s s' :
  safe_inv s → link_inv s → step l s = Some s' → link_inv s'.
Proof.
  intros [_ (P1 & _)] [Hsess Hlink] Hs.
  pose proof (step_sessions_ext _ _ _ Hs) as Hext.
  assert (Hkeep : ∀ c, is_Some (sessions s !! c) → is_Some (sessions s' !! c)).
  { intros c [sess Hc]. destruct (Hext _ _ Hc) as (sess' & Hc' & _). eauto. }
  assert (Hch : ∀ c, is_Some (sessions s !! c) →
                     chan_of (sessions s') c = chan_of (sessions s) c).
  { intros c [sess Hc]. destruct (Hext _ _ Hc) as (sess' & Hc' & Heq & _).
    unfold chan_of. rewrite Hc, Hc'. done. }
  assert (Hevs : event_of (sessions s') <$> received s = events_received s).
  { unfold events_received. apply Forall_fmap_ext, Forall_forall.
    intros [c|c m|c|m] Hin; simpl; try done.
    - rewrite Hch; [done|]. apply Hsess. by left.
    - rewrite Hch; [done|]. apply Hsess. by right. }
  apply step_dispatch in Hs.
  destruct Hs as [Hd Hp Hr Hdl Hdw _
                 |rcv Hp Hbody Hd Hr Hdl Hdw _
                 |op rest Hp Hop Hex Hp' Hr Hdl Hdw _
                 |c0 sess0 ch0 m rest Hp Hc0 Hch0 Hw0 Hp' Hd Hr Hdl Hdw _
                 |op rest Hp Hex Hp' Hd Hr Hdl Hdw _].
  - split; [rewrite Hr; by eauto|].
    unfold events_received. by rewrite Hr, Hevs, Hp, Hd.
  - split.
    + rewrite Hr. intros c Hin. apply Hkeep.
      rewrite !elem_of_app, !list_elem_of_singleton in Hin.
      destruct Hin as [[Hin| <-]|[Hin| <-]]; [by eauto| |by eauto|].
      * destruct Hbody as (sess & Hc & _). eauto.
      * destruct Hbody as (sess & Hc & _). eauto.
    + rewrite Hp in Hlink.
      assert (∃ order, order ≡ₚ map_to_list (clients (dstate s)) ∧
                pending s' = case_body order (event_of (sessions s') rcv))
        as (order & Hord & Hpend).
      { destruct rcv as [c|c m|c|m]; simpl.
        - destruct Hbody as (sess & Hc & Hw & Hc' & Hbody).
          exists (map_to_list (clients (dstate s))). split; [done|].
          unfold chan_of. by rewrite Hc'.
        - by exists (map_to_list (clients (dstate s))).
        - destruct Hbody as (sess & Hc & Hbody).
          exists (map_to_list (clients (dstate s))). split; [done|].
          rewrite Hch by eauto. unfold chan_of. by rewrite Hc.
        - destruct Hbody as (order & Hord & Hbody). by exists order. }
      unfold events_received. rewrite Hr, fmap_app, Hevs, Hpend, Hd.
      by apply link_at_select.
  - split; [rewrite Hr; by eauto|].
    unfold events_received. rewrite Hr, Hevs, Hp'.
    rewrite Hp in Hlink. by eapply link_at_op.
  - split; [rewrite Hr; by eauto|].
    unfold events_received. rewrite Hr, Hevs, Hp', Hd.
    rewrite Hp in Hlink. eapply link_at_op; [done|].
    simpl. rewrite decide_False; [done|].
    apply (P1 _ m). rewrite Hp. by left.
  - split; [rewrite Hr; by eauto|].
    unfold events_received. by rewrite Hr, Hevs, Hp', Hd.
Qed.

(** X18.  The dispatcher of the running system is the sequential loop.
    In every reachable state in which the dispatcher is at [select], its
    table and the set of channels it has closed are what [handleChannels]
    run on its own ends in, given the events the dispatcher has received so
    far in the order received: however the goroutines interleave, the
    dispatcher's state depends only on the order in which the events
    reached it. *)
Theorem dispatcher_state_is_sequential (s : System) :
  reachable s →
  pending s = [] →
  snd (handleChannels (events_received s)) = Some (dstate s).
Proof.
  intros Hr Hp.
  assert (Hinv : safe_inv s ∧ link_inv s).
  { clear Hp. revert s Hr. apply reachable_invariant.
    - split; [exact (conj owner_inv_init disp_inv_init)|apply link_inv_init].
    - intros l s s' [Hsafe Hlink] Hs. split.
      + by eapply safe_inv_step.
      + by eapply link_inv_step. }
  destruct Hinv as [_ [_ Hlink]]. by rewrite Hp in Hlink.
Qed.

(** *** A broadcast that goes through *)

(** The dispatcher is at the sends of a broadcast and the write loop of
    every session still to be served is at its receive: the sends go
    through one after the other. *)
Lemma deliver_all m (order : list (positive * positive)) : ∀ (s : System) rest,
  crashed s = false →
  pending s = ((λ kv : positive * positive, DSend kv.2 m) <$> order) ++ rest →
  NoDup (order.*1) →
  (∀ k ch, (k, ch) ∈ order →
     ∃ sess, sessions s !! k = Some sess ∧ s_resCh sess = ch ∧
             s_writer sess = WRecv ∧ ch ∉ closed (dstate s)) →
  ∃ s', run (LDeliver <$> order.*1) s = Some s' ∧
        crashed s' = false ∧ pending s' = rest ∧
        delivered s' = delivered s ++ ((λ kv : positive * positive, (kv.2, m)) <$> order) ∧
        received s' = received s ∧ dstate s' = dstate s ∧
        downstream s' = downstream s.
Proof.
  induction order as [|[k ch] order IH]; intros s rest Hcr Hp Hnd Hall.
  - exists s. simpl. by rewrite app_nil_r.
  - rewrite !fmap_cons in *. cbn [fst snd] in *. simpl in Hp.
    apply NoDup_cons in Hnd as [Hk Hnd].
    destruct (Hall k ch) as (sess & Hlk & Hch & Hw & Hopen); [by left|].
    cbn [run]. unfold step at 1. rewrite Hcr, Hp, Hlk.
    rewrite decide_True by done. rewrite Hw.
    destruct (writer_received m) as [pc es].
    match goal with |- ∃ _, run _ ?s1 = _ ∧ _ =>
      destruct (IH s1 rest)
        as (s' & Hrun & Hcr' & Hp' & Hdl & Hrc & Hds & Hdw)
    end.
    + done.
    + done.
    + done.
    + intros k' ch' Hin. simpl.
      destruct (Hall k' ch') as (sess' & Hlk' & Hch' & Hw' & Hopen'); [by right|].
      exists sess'. rewrite lookup_insert_ne; [done|].
      intros <-. apply Hk. apply list_elem_of_fmap. by exists (k, ch').
    + exists s'. split; [exact Hrun|]. split_and!; try done.
      rewrite Hdl. simpl. by rewrite <-app_assoc.
Qed.

(** X19.  A broadcast goes through when the write loops are receiving.
    Take a reachable state in which the dispatcher is at [select] and the
    write loop of every session in the table is at its receive.  Then a
    response from the connector is broadcast in full, whatever order
    [range] takes: the dispatcher logs it and hands it to each session of
    the table in turn, once, and is back at [select]; nothing panics and
    the table is as before. *)
Theorem broadcast_goes_through (s : System) (m : Message)
    (order : list (positive * positive)) :
  reachable s →
  crashed s = false →
  pending s = [] →
  order ≡ₚ map_to_list (clients (dstate s)) →
  (∀ k ch, clients (dstate s) !! k = Some ch →
     ∃ sess, sessions s !! k = Some sess ∧ s_writer sess = WRecv) →
  ∃ s',
    run (LRes m order :: LDisp :: (LDeliver <$> order.*1)) s = Some s' ∧
    crashed s' = false ∧
    pending s' = [] ∧
    delivered s'
    = delivered s ++ ((λ kv : positive * positive, (kv.2, m)) <$> order) ∧
    received s' = received s ++ [RcvRes m] ∧
    dstate s' = dstate s.
Proof.
  intros Hr Hcr Hp Hperm Hrecv.
  destruct (reachable_invariant safe_inv (conj owner_inv_init disp_inv_init)
              safe_inv_step s Hr) as [_ (_ & _ & _ & T1 & T2 & _)].
  cbn [run]. unfold step at 1. rewrite Hcr, Hp.
  rewrite decide_True by done.
  unfold step at 1. cbn. rewrite Hcr.
  match goal with |- ∃ _, run _ ?s1 = _ ∧ _ =>
    destruct (deliver_all m order s1 [])
      as (s' & Hrun & Hcr' & Hp' & Hdl & Hrc & Hds & _)
  end.
  - done.
  - simpl. by rewrite app_nil_r.
  - rewrite Hperm. apply NoDup_fst_map_to_list.
  - intros k ch Hin. rewrite Hperm in Hin. apply elem_of_map_to_list in Hin.
    destruct (Hrecv _ _ Hin) as (sess & Hlk & Hw).
    destruct (T1 _ _ Hin) as (sess' & Hlk' & Hch).
    rewrite Hlk in Hlk'. injection Hlk' as <-.
    exists sess. simpl. split_and!; [done|done|done|].
    intros Hcl. specialize (T2 _ _ Hin Hcl). rewrite Hp in T2.
    by apply elem_of_nil in T2.
  - exists s'. split; [exact Hrun|]. split_and!; done.
Qed.
(** *** The broadcast and the write loop in the system *)

(** *** A broadcast after N registrations *)




























End system_more.

(** ** More concrete runs *)

Lemma requests_reach_connector_in_order_witness :
  reachable request_state ∧
  received request_state = [RcvAdd 3; RcvReq 3 (mkMessage "REQ" ["X"])] ∧
  downstream request_state = [mkMessage "REQ" ["X"]] ∧
  downstream request_state ++ forwards (pending request_state)
  = requests_received (received request_state).
Proof.
  pose proof (requests_reach_connector_in_order (H := toy_codec) request_state
                request_state_reachable) as (Hinv & _).
  split; [exact request_state_reachable|].
  split; [by vm_compute|]. split; [by vm_compute|exact Hinv].
Defined.

Lemma registered_session_gets_every_response_witness :
  reachable stall_state ∧
  clients (dstate stall_state) !! 12%positive = Some 2%positive ∧
  received stall_state = [RcvAdd 11; RcvAdd 12; RcvRes (NewMessage "RES")] ∧
  received_on 2 (delivered stall_state) = [makeWelcomeMsg; makeFeaturesMsg] ∧
  ∃ pre post,
    received stall_state = pre ++ RcvAdd 12 :: post ∧ (RcvAdd 12 ∉ post) ∧
    received_on 2 (delivered stall_state) ++ sends_on 2 (pending stall_state)
    = makeWelcomeMsg :: makeFeaturesMsg :: responses_received post.
Proof.
  assert (Ht : clients (dstate stall_state) !! 12%positive = Some 2%positive)
    by (by vm_compute).
  pose proof (registered_session_gets_every_response (H := toy_codec) stall_state
                12%positive 2%positive stall_state_reachable Ht) as Hall.
  split; [exact stall_state_reachable|]. split; [exact Ht|].
  split; [by vm_compute|]. split; [by vm_compute|exact Hall].
Defined.

Lemma deadlock_state_reachable : reachable deadlock_state.
Proof. exists deadlock_schedule. by vm_compute. Qed.

Lemma failed_write_during_send_deadlocks_witness :
  let ls := [LAccept 12; LReadBytes 11 (ReadLine [x52; x45; x0a]%byte)] in
  let sess := @mkSession toy_codec 1%positive tt WSendRm (RLoop []) in
  reachable deadlock_state ∧
  sessions deadlock_state !! 11%positive = Some sess ∧
  pending deadlock_state
    = [DSend 1 makeFeaturesMsg; DLog (LogNewConnection 11)] ∧
  run (ls ++ [LRmWriter 11]) deadlock_state = None ∧
  run (ls ++ [LDeliver 11]) deadlock_state = None ∧
  run (ls ++ [LAdd 12]) deadlock_state = None ∧
  ∃ s', run ls deadlock_state = Some s' ∧
        crashed s' = false ∧
        pending s' = [DSend 1 makeFeaturesMsg; DLog (LogNewConnection 11)] ∧
        delivered s' = delivered deadlock_state.
Proof.
  intros ls sess.
  assert (Ha : sessions deadlock_state !! 11%positive = Some sess)
    by (by vm_compute).
  assert (Hp : pending deadlock_state
               = [DSend 1 makeFeaturesMsg; DLog (LogNewConnection 11)])
    by (by vm_compute).
  split; [exact deadlock_state_reachable|]. split; [exact Ha|].
  split; [exact Hp|].
  split; [by vm_compute|]. split; [by vm_compute|]. split; [by vm_compute|].
  eexists. split; [by vm_compute|].
  pose proof (failed_write_during_send_deadlocks (H := toy_codec)
                11%positive sess makeFeaturesMsg [DLog (LogNewConnection 11)]
                ls deadlock_state _
                deadlock_state_reachable Ha eq_refl Hp eq_refl)
    as (Hc & Hp' & _ & Hd & _).
  split; [exact Hc|]. split; [exact Hp'|exact Hd].
Defined.

Lemma double_remove_state_reachable : reachable double_remove_state.
Proof. exists double_remove_schedule. by vm_compute. Qed.

Lemma only_double_close_panics_witness :
  reachable double_remove_state ∧
  crashed double_remove_state = true ∧
  ∃ ch c,
    pending double_remove_state
    = [DClose ch; DDelete c; DLog (LogClosedConnection c)] ∧
    ch ∈ closed (dstate double_remove_state).
Proof.
  assert (Hc : crashed double_remove_state = true) by (by vm_compute).
  pose proof (only_double_close_panics (H := toy_codec) double_remove_state
                double_remove_state_reachable) as (_ & Hpanic).
  split; [exact double_remove_state_reachable|]. split; [exact Hc|].
  exact (Hpanic Hc).
Defined.

Lemma second_removal_is_fatal_witness :
  reachable double_remove_state ∧
  received double_remove_state = [RcvAdd 7; RcvRm 7; RcvRm 7] ∧
  times_received (RcvAdd 7) (received double_remove_state) ≤ 1 ∧
  times_received (RcvRm 7) (received double_remove_state) ≤ 2 ∧
  ∃ ch, pending double_remove_state
        = [DClose ch; DDelete 7; DLog (LogClosedConnection 7)] ∧
        ch ∈ closed (dstate double_remove_state).
Proof.
  pose proof (second_removal_is_fatal (H := toy_codec) double_remove_state
                7%positive double_remove_state_reachable) as (Hadd & Hrm & Hiff).
  split; [exact double_remove_state_reachable|]. split; [by vm_compute|].
  split; [exact Hadd|]. split; [exact Hrm|].
  apply Hiff. by vm_compute.
Defined.

Lemma panic_takes_a_write_and_a_read_error_witness :
  reachable double_remove_state ∧
  crashed double_remove_state = true ∧
  syslog double_remove_state
  = [LogNewConnection 7; LogWriteError 7 "broken pipe"; LogClosedConnection 7;
     LogReadError 7 "use of closed network connection"] ∧
  ∃ c e1 e2,
    times_received (RcvRm c) (received double_remove_state) = 2 ∧
    LogWriteError c e1 ∈ syslog double_remove_state ∧
    LogReadError c e2 ∈ syslog double_remove_state.
Proof.
  assert (Hc : crashed double_remove_state = true) by (by vm_compute).
  pose proof (panic_takes_a_write_and_a_read_error (H := toy_codec)
                double_remove_state double_remove_state_reachable Hc) as Hall.
  split; [exact double_remove_state_reachable|]. split; [exact Hc|].
  split; [by vm_compute|exact Hall].
Defined.

Lemma read_error_disconnects_cleanly_witness :
  let sess := @mkSession toy_codec 1%positive tt WRecv (RLoop []) in
  let broadcast_first :=
    [LReadBytes 3 (ReadFail "EOF"); LRes (NewMessage "RES") [(3, 1)]%positive;
     LDisp; LDeliver 3; LReadLog 3; LRmReader 3; LDisp; LConnWrite 3 None;
     LDisp; LDisp; LRecvClosed 3] in
  reachable request_state ∧
  crashed request_state = false ∧
  pending request_state = [] ∧
  sessions request_state !! 3%positive = Some sess ∧
  (∃ s',
     run [LReadBytes 3 (ReadFail "EOF"); LReadLog 3; LRmReader 3;
          LDisp; LDisp; LDisp; LRecvClosed 3] request_state = Some s' ∧
     crashed s' = false ∧
     pending s' = [] ∧
     clients (dstate s') = delete 3%positive (clients (dstate request_state)) ∧
     closed (dstate s') = {[1%positive]} ∪ closed (dstate request_state) ∧
     sessions s' !! 3%positive
     = Some (@mkSession toy_codec 1%positive tt WDone RDone) ∧
     received s' = received request_state ++ [RcvRm 3] ∧
     delivered s' = delivered request_state ∧
     syslog s' = syslog request_state
                 ++ [LogReadError 3 "EOF"; LogClosedConnection 3]) ∧
  ∃ s',
    run broadcast_first request_state = Some s' ∧
    times_received (RcvRm 3) (received s') ≤ 1 ∧
    (crashed s' = true →
     ∃ c', c' ≠ 3%positive ∧ times_received (RcvRm c') (received s') = 2).
Proof.
  intros sess broadcast_first.
  assert (Hc : crashed request_state = false) by (by vm_compute).
  assert (Hp : pending request_state = []) by (by vm_compute).
  assert (Hlk : sessions request_state !! 3%positive = Some sess)
    by (by vm_compute).
  pose proof (read_error_disconnects_cleanly (H := toy_codec) request_state
                3%positive sess "EOF" request_state_reachable Hc Hp Hlk
                eq_refl eq_refl) as [Hclean Hany].
  split; [exact request_state_reachable|]. split; [exact Hc|].
  split; [exact Hp|]. split; [exact Hlk|]. split; [exact Hclean|].
  eexists. split; [by vm_compute|].
  apply (Hany broadcast_first); [|by vm_compute].
  unfold broadcast_first. repeat constructor.
Defined.

Lemma no_write_failure_no_panic_witness :
  Forall (λ l, write_fails l = false) request_schedule ∧
  run (H := toy_codec) request_schedule initSystem = Some request_state ∧
  crashed request_state = false.
Proof.
  assert (Hls : Forall (λ l, write_fails l = false) request_schedule)
    by (repeat constructor).
  assert (Hrun : run (H := toy_codec) request_schedule initSystem
                 = Some request_state) by (by vm_compute).
  exact (conj Hls (conj Hrun
           (no_write_failure_no_panic (H := toy_codec) request_schedule
              request_state Hls Hrun))).
Defined.

Lemma dispatcher_state_is_sequential_witness :
  reachable request_state ∧
  pending request_state = [] ∧
  events_received request_state
  = [EvAdd (mkClient 3 1); EvReq (mkMessage "REQ" ["X"])] ∧
  snd (handleChannels (events_received request_state))
  = Some (dstate request_state).
Proof.
  assert (Hp : pending request_state = []) by (by vm_compute).
  split; [exact request_state_reachable|]. split; [exact Hp|].
  split; [by vm_compute|].
  exact (dispatcher_state_is_sequential (H := toy_codec) request_state
           request_state_reachable Hp).
Defined.

Lemma broadcast_goes_through_witness :
  let order := [(3, 1)]%positive in
  let RES := NewMessage "RES" in
  reachable request_state ∧
  crashed request_state = false ∧
  pending request_state = [] ∧
  order ≡ₚ map_to_list (clients (dstate request_state)) ∧
  ∃ s',
    run (LRes RES order :: LDisp :: (LDeliver <$> order.*1)) request_state
    = Some s' ∧
    crashed s' = false ∧
    pending s' = [] ∧
    delivered s' = delivered request_state ++ [(1%positive, RES)] ∧
    received s' = received request_state ++ [RcvRes RES] ∧
    dstate s' = dstate request_state.
Proof.
  intros order RES.
  assert (Hc : crashed request_state = false) by (by vm_compute).
  assert (Hp : pending request_state = []) by (by vm_compute).
  assert (Ho : order ≡ₚ map_to_list (clients (dstate request_state)))
    by (by vm_compute).
  assert (Hw : ∀ k ch, clients (dstate request_state) !! k = Some ch →
             ∃ sess, sessions request_state !! k = Some sess ∧
                     s_writer sess = WRecv).
  { assert (map_Forall
              (λ k _, ∃ sess, sessions request_state !! k = Some sess ∧
                              s_writer sess = WRecv)
              (clients (dstate request_state))) as Hall.
    { apply map_Forall_to_list. rewrite <-Ho.
      repeat constructor. eexists. split; by vm_compute. }
    exact Hall. }
  split; [exact request_state_reachable|]. split; [exact Hc|].
  split; [exact Hp|]. split; [exact Ho|].
  exact (broadcast_goes_through (H := toy_codec) request_state RES order
           request_state_reachable Hc Hp Ho Hw).
Defined.

(** ** The broadcast, run *)





(** ** The write loop after a failed write, run *)


